(** * LuxNews: search-and-crawl pipeline, shallow embedding and verification

    The development follows the Python package [luxnews]:
    - [utils.py]     text normalisation, dates, file names, deduplication;
    - [models.py]    [SearchHit], [ArticleRecord], [MediaStatus];
    - [media/base.py] the per-media scraper ([BaseMediaScraper]);
    - [core.py]      the runner ([LuxNewsRunner]).

    Python [str] values are sequences of Unicode code points and are
    modelled as [list N].  Effects (network, browser, clock, console) are
    threaded through an explicit world state together with a trace of the
    external calls made. *)

From Stdlib Require Import ZArith NArith Lia String Ascii DecimalString.
From stdpp Require Import base option list gmap sets.
From Equations Require Import Equations.

Local Open Scope N_scope.

(** ** Python strings *)

Abbreviation str := (list N).

(** An ASCII literal as a Python string. *)
Definition lit (s : string) : str :=
  map N_of_ascii (list_ascii_of_string s).

(** Truth value of a [str]: the empty string is falsy. *)
Definition truthy (s : str) : bool :=
  match s with [] => false | _ :: _ => true end.

(** Truth value of an [Optional[str]]. *)
Definition truthy_opt (o : option str) : bool :=
  match o with Some s => truthy s | None => false end.

(** [needle in haystack] on strings. *)
Fixpoint starts_with (prefix s : str) : bool :=
  match prefix, s with
  | [], _ => true
  | _ :: _, [] => false
  | a :: prefix', b :: s' => (a =? b) && starts_with prefix' s'
  end.

Fixpoint str_in (needle haystack : str) : bool :=
  starts_with needle haystack ||
  match haystack with
  | [] => false
  | _ :: rest => str_in needle rest
  end.

(** Python slice [s[:n]]: a negative bound counts from the end. *)
Definition slice_to (n : Z) (s : str) : str :=
  if (0 <=? n)%Z then take (Z.to_nat n) s
  else take (length s - Z.to_nat (- n))%nat s.

(** [s.strip(chars)], [drop] telling which characters go, and its two
    halves [lstrip] and [rstrip]. *)
Fixpoint lstrip_by (drop : N -> bool) (s : str) : str :=
  match s with
  | [] => []
  | c :: rest => if drop c then lstrip_by drop rest else s
  end.

Fixpoint rstrip_by (drop : N -> bool) (s : str) : str :=
  match s with
  | [] => []
  | c :: rest =>
      match rstrip_by drop rest with
      | [] => if drop c then [] else [c]
      | kept => c :: kept
      end
  end.

Definition strip_by (drop : N -> bool) (s : str) : str :=
  rstrip_by drop (lstrip_by drop s).

(** ** The Unicode character database

    [unicodedata] and the [str] methods consult tables that are not part of
    the repository; they are taken as a parameter. *)

Class UnicodeData := {
  (** full compatibility decomposition of one code point, the value of
      [unicodedata.normalize("NFKD", ch)] *)
  decomposition : N -> list N;
  (** canonical combining class, [unicodedata.combining] *)
  combining : N -> N;
  (** full lowercase mapping of one code point *)
  tolower_full : N -> list N;
  (** white space, as seen by [\s] and by [str.strip()] *)
  isspace : N -> bool;
  (** the Cased and Case_Ignorable properties, read by [str.lower] around a
      capital sigma *)
  cased : N -> bool;
  case_ignorable : N -> bool
}.

Definition SPACE : N := 32.
Definition HYPHEN : N := 45.
Definition CAPITAL_SIGMA : N := 0x3A3.
Definition SMALL_SIGMA : N := 0x3C3.
Definition FINAL_SIGMA : N := 0x3C2.

Section Text.
Context {U : UnicodeData}.

(** *** [unicodedata.normalize("NFKD", text)] *)

(** Canonical ordering: inside every run of non-starters the marks are
    sorted by combining class, stably; starters never move. *)
Fixpoint reorder_insert (c : N) (l : list N) : list N :=
  match l with
  | d :: l' =>
      if (0 <? combining d) && (combining d <? combining c)
      then d :: reorder_insert c l'
      else c :: l
  | [] => [c]
  end.

Fixpoint canonical_order (l : list N) : list N :=
  match l with
  | [] => []
  | c :: l' =>
      if combining c =? 0 then c :: canonical_order l'
      else reorder_insert c (canonical_order l')
  end.

Definition nfkd (text : str) : str :=
  canonical_order (flat_map decomposition text).

(** *** [str.lower()] *)

Fixpoint first_not_ignorable (l : list N) : option N :=
  match l with
  | [] => None
  | c :: l' => if case_ignorable c then first_not_ignorable l' else Some c
  end.

Definition cased_neighbour (l : list N) : bool :=
  match first_not_ignorable l with
  | Some c => cased c
  | None => false
  end.

(** A capital sigma becomes a final sigma when a cased letter precedes it
    and none follows, case-ignorable characters being skipped. *)
Definition handle_capital_sigma (rev_before after : list N) : N :=
  if cased_neighbour rev_before && negb (cased_neighbour after)
  then FINAL_SIGMA else SMALL_SIGMA.

Fixpoint lower_from (rev_before s : list N) : list N :=
  match s with
  | [] => []
  | c :: rest =>
      (if c =? CAPITAL_SIGMA then [handle_capital_sigma rev_before rest]
       else tolower_full c)
      ++ lower_from (c :: rev_before) rest
  end.

Definition lower (s : str) : str := lower_from [] s.

(** *** [_WHITESPACE_RE.sub(" ", s)] with [_WHITESPACE_RE = \s+] *)

Fixpoint sub_whitespace (in_run : bool) (s : str) : str :=
  match s with
  | [] => []
  | c :: rest =>
      if isspace c
      then (if in_run then sub_whitespace true rest
            else SPACE :: sub_whitespace true rest)
      else c :: sub_whitespace false rest
  end.

(** [s.strip()] *)
Definition strip (s : str) : str := strip_by isspace s.

(** *** [utils.normalize_text] *)
Definition normalize_text (text : str) : str :=
  let normalized := nfkd text in
  let normalized := filter (fun ch => combining ch = 0) normalized in
  let normalized := lower normalized in
  let normalized := strip (sub_whitespace false normalized) in
  normalized.

(** *** [utils.safe_filename] *)

(** The character class [a-z0-9\-_. ] *)
Definition filename_class (c : N) : bool :=
  ((97 <=? c) && (c <=? 122)) || ((48 <=? c) && (c <=? 57))
  || (c =? 45) || (c =? 95) || (c =? 46) || (c =? 32).

Definition replace_char (old new : N) (s : str) : str :=
  map (fun c => if c =? old then new else c) s.

Definition safe_filename (text : str) (max_len : Z) : str :=
  let normalized := normalize_text text in
  let normalized := filter (fun c => filename_class c = true) normalized in
  let normalized :=
    strip_by (fun c => c =? HYPHEN) (replace_char SPACE HYPHEN normalized) in
  let normalized :=
    if truthy normalized then normalized else lit "item" in
  slice_to max_len normalized.

End Text.

(** The default [max_len] of [safe_filename]. *)
Definition DEFAULT_MAX_LEN : Z := 120.

(** *** [utils.unique_preserve_order] *)
Fixpoint unique_from (seen : gset str) (items : list str) : list str :=
  match items with
  | [] => []
  | item :: rest =>
      if decide (item ∈ seen) then unique_from seen rest
      else item :: unique_from ({[item]} ∪ seen) rest
  end.

Definition unique_preserve_order (items : list str) : list str :=
  unique_from ∅ items.

(** ** Exceptions *)

Inductive exn :=
| RequestException (msg : str)
| RuntimeError (msg : str)
| KeyError (msg : str)
| ValueError (msg : str)
| TypeError (msg : str)
| OverflowError (msg : str)
| WebDriverException (msg : str)
| TimeoutException (msg : str)
| EOFError (msg : str)
| OtherException (msg : str)
| KeyboardInterrupt.

(** [except Exception]: everything but the interrupts deriving directly
    from [BaseException]. *)
Definition is_Exception (e : exn) : bool :=
  match e with KeyboardInterrupt => false | _ => true end.

(** [except WebDriverException]; selenium's [TimeoutException] is a
    subclass. *)
Definition is_WebDriverException (e : exn) : bool :=
  match e with WebDriverException _ | TimeoutException _ => true | _ => false end.

Definition is_RequestException (e : exn) : bool :=
  match e with RequestException _ => true | _ => false end.

Definition is_EOFError (e : exn) : bool :=
  match e with EOFError _ => true | _ => false end.

(** [except (ValueError, TypeError)] *)
Definition is_ValueError_or_TypeError (e : exn) : bool :=
  match e with ValueError _ | TypeError _ => true | _ => false end.

Definition is_KeyError (e : exn) : bool :=
  match e with KeyError _ => true | _ => false end.

Inductive result (A : Type) :=
| Ok (a : A)
| Raise (e : exn).
Arguments Ok {A} a.
Arguments Raise {A} e.

(** ** Dates ([datetime], [timedelta])

    A [datetime] is a wall-clock reading, in microseconds counted from
    0001-01-01T00:00:00, together with the UTC offset of its [tzinfo]; a
    naive [datetime] has no [tzinfo].  Python's [datetime] covers the years 1
    to 9999: a reading lies between 0 and [DATETIME_SPAN], and arithmetic
    that leaves this range raises [OverflowError]. *)

Record datetime := mk_datetime {
  wall : Z;
  tzinfo : option Z
}.

#[global] Instance datetime_eq_dec : EqDecision datetime.
Proof. solve_decision. Defined.

Definition MICROSECONDS_PER_DAY : Z := 86400000000.

(** A number of days, in microseconds. *)
Definition days_us (days : Z) : Z := (days * MICROSECONDS_PER_DAY)%Z.

(** [date.max.toordinal()] days *)
Definition DATETIME_SPAN : Z := (3652059 * MICROSECONDS_PER_DAY)%Z.

Definition in_datetime_range (reading : Z) : bool :=
  (0 <=? reading)%Z && (reading <? DATETIME_SPAN)%Z.

Definition DATE_OUT_OF_RANGE : exn :=
  OverflowError (lit "date value out of range").

(** [str(n)] for an [int] *)
Definition str_of_int (n : Z) : str := lit (NilZero.string_of_int (Z.to_int n)).

(** [timedelta(days=n)], in microseconds.  CPython turns the days into a C
    [int] and then refuses a magnitude above 999999999. *)
Definition timedelta_days (days : Z) : result Z :=
  if (days <? -2147483648)%Z || (2147483647 <? days)%Z
  then Raise (OverflowError (lit "Python int too large to convert to C int"))
  else if (Z.abs days <=? 999999999)%Z
  then Ok (days_us days)
  else Raise (OverflowError (lit "days=" ++ str_of_int days
                             ++ lit "; must have magnitude <= 999999999")).

(** [timezone.utc] *)
Definition timezone_utc : Z := 0%Z.

(** [dt - delta] keeps the [tzinfo] of [dt]; the new reading must be a date
    of the calendar. *)
Definition datetime_sub (dt : datetime) (delta : Z) : result datetime :=
  let reading := (wall dt - delta)%Z in
  if in_datetime_range reading
  then Ok {| wall := reading; tzinfo := tzinfo dt |}
  else Raise DATE_OUT_OF_RANGE.

(** [dt.replace(tzinfo=tz)] *)
Definition replace_tzinfo (dt : datetime) (tz : Z) : datetime :=
  {| wall := wall dt; tzinfo := Some tz |}.

(** The system's local zone, which [astimezone] assumes for a naive
    [datetime]. *)
Class LocalZone := { local_utcoffset : Z }.

(** The instant of an aware [datetime], in microseconds of UTC. *)
Definition utc_instant (dt : datetime) : Z :=
  (wall dt - default 0 (tzinfo dt))%Z.

(** [dt.astimezone(timezone.utc)]: the reading of [dt] less its offset (for
    a naive [dt], the offset of the local zone), which must be a date of the
    calendar, with [timezone.utc] attached. *)
Definition astimezone_utc `{LocalZone} (dt : datetime) : result datetime :=
  match datetime_sub dt (default local_utcoffset (tzinfo dt)) with
  | Ok utc => Ok (replace_tzinfo utc timezone_utc)
  | Raise e => Raise e
  end.

(** [a >= b] on [datetime]: aware values compare by instant, naive ones by
    reading, and mixing the two raises [TypeError]. *)
Definition datetime_ge (a b : datetime) : result bool :=
  match tzinfo a, tzinfo b with
  | Some oa, Some ob => Ok (wall b - ob <=? wall a - oa)%Z
  | None, None => Ok (wall b <=? wall a)%Z
  | _, _ => Raise (TypeError (lit "can't compare offset-naive and offset-aware datetimes"))
  end.

(** *** [utils.parse_date]

    [dateutil] is outside the repository: the fuzzy parser is a parameter,
    which for each text either raises or returns a [datetime]. *)
Class DateParser := { date_parser_parse : str -> result datetime }.

Definition parse_date `{DateParser} `{LocalZone} (text : str)
  : result (option datetime) :=
  match date_parser_parse text with
  | Raise e =>
      if is_ValueError_or_TypeError e then Ok None else Raise e
  | Ok dt =>
      let dt :=
        match tzinfo dt with
        | None => replace_tzinfo dt timezone_utc
        | Some _ => dt
        end in
      match astimezone_utc dt with
      | Ok utc => Ok (Some utc)
      | Raise e => Raise e
      end
  end.

(** *** [utils.is_within_last_days]

    [utcnow] is the reading of [datetime.now(timezone.utc)], consulted only
    when [now] is omitted. *)
Definition is_within_last_days (utcnow : datetime)
    (dt : datetime) (last_days : Z) (now : option datetime) : result bool :=
  let now := match now with None => utcnow | Some n => n end in
  match timedelta_days last_days with
  | Raise e => Raise e
  | Ok delta =>
      match datetime_sub now delta with
      | Raise e => Raise e
      | Ok cutoff => datetime_ge dt cutoff
      end
  end.

(** ** [models.py] *)

Record SearchHit := mk_SearchHit {
  hit_url : str;
  hit_title : option str;
  hit_published_at : option datetime;
  hit_snippet : option str;
  hit_media_id : option str
}.

#[global] Instance SearchHit_eq_dec : EqDecision SearchHit.
Proof. solve_decision. Defined.

Inductive article_status := StatusOk | StatusSkipped | StatusFailed.

Record ArticleRecord := mk_ArticleRecord {
  run_id : str;
  run_timestamp : str;
  media : str;
  url : str;
  title : option str;
  published_at : option str;
  date_unknown : bool;
  matched_keywords : list str;
  snippets : list str;
  per_article_pdf_path : option str;
  status : article_status;
  errors : list str
}.

Inductive media_status := MediaOk | MediaPartial | MediaFailed.

Record MediaStatus := mk_MediaStatus {
  ms_media : str;
  ms_status : media_status;
  ms_errors : list str
}.

(** ** [config.py], [media/registry.py] *)

Record RunConfig := mk_RunConfig {
  keywords : list str;
  medias : list str;
  last_days : Z;
  max_pages : Z;
  max_results : Z;
  debug : bool;
  pause : bool;
  pause_on_error : bool;
  search_use_selenium : bool;
  extra_user_agent : option str
}.

Record MediaDefinition := mk_MediaDefinition {
  media_id : str;
  search_url : str;
  domain : str
}.

(** ** The cross-keyword merge of [LuxNewsRunner._collect_search_hits]

    [hits_by_url] is a Python [dict]: keys are unique and keep their
    insertion order.  It is an association list that is only ever changed
    through [dict_setdefault_then]. *)

Record Payload := mk_Payload {
  p_keywords : gset str;
  p_snippets : list str;
  p_title : option str;
  p_published_at : option datetime
}.

(** [payload = d.setdefault(key, default)] followed by in-place updates
    [f] of the payload. *)
Fixpoint dict_setdefault_then (key : str) (default : Payload)
    (f : Payload -> Payload) (d : list (str * Payload)) : list (str * Payload) :=
  match d with
  | [] => [(key, f default)]
  | (k, v) :: d' =>
      if decide (k = key) then (k, f v) :: d'
      else (k, v) :: dict_setdefault_then key default f d'
  end.

(** [d.get(key)] *)
Fixpoint dict_get (key : str) (d : list (str * Payload)) : option Payload :=
  match d with
  | [] => None
  | (k, v) :: d' => if decide (k = key) then Some v else dict_get key d'
  end.

(** The body of [for hit in keyword_hits], after the [setdefault]. *)
Definition update_payload (keyword : str) (hit : SearchHit) (payload : Payload)
  : Payload :=
  let payload :=
    {| p_keywords := {[keyword]} ∪ p_keywords payload;
       p_snippets := p_snippets payload;
       p_title := p_title payload;
       p_published_at := p_published_at payload |} in
  let payload :=
    match hit_snippet hit with
    | Some s =>
        if truthy s
        then {| p_keywords := p_keywords payload;
                p_snippets := p_snippets payload ++ [s];
                p_title := p_title payload;
                p_published_at := p_published_at payload |}
        else payload
    | None => payload
    end in
  let payload :=
    if truthy_opt (hit_title hit) && negb (truthy_opt (p_title payload))
    then {| p_keywords := p_keywords payload;
            p_snippets := p_snippets payload;
            p_title := hit_title hit;
            p_published_at := p_published_at payload |}
    else payload in
  let payload :=
    match hit_published_at hit, p_published_at payload with
    | Some d, None =>
        {| p_keywords := p_keywords payload;
           p_snippets := p_snippets payload;
           p_title := p_title payload;
           p_published_at := Some d |}
    | _, _ => payload
    end in
  payload.

Definition merge_hit (keyword : str) (hits_by_url : list (str * Payload))
    (hit : SearchHit) : list (str * Payload) :=
  dict_setdefault_then (hit_url hit)
    {| p_keywords := ∅; p_snippets := [];
       p_title := hit_title hit; p_published_at := hit_published_at hit |}
    (update_payload keyword hit) hits_by_url.

(** One keyword round: [for hit in keyword_hits: ...] *)
Definition merge_keyword_hits (keyword : str) (keyword_hits : list SearchHit)
    (hits_by_url : list (str * Payload)) : list (str * Payload) :=
  foldl (merge_hit keyword) hits_by_url keyword_hits.

(** The final pass [payload["snippets"] = unique_preserve_order(...)]. *)
Definition dedup_snippets (hits_by_url : list (str * Payload))
  : list (str * Payload) :=
  map (fun kv =>
         (kv.1, {| p_keywords := p_keywords kv.2;
                   p_snippets := unique_preserve_order (p_snippets kv.2);
                   p_title := p_title kv.2;
                   p_published_at := p_published_at kv.2 |}))
      hits_by_url.

(** The merge over a sequence of keyword rounds, each round being a keyword
    with the hits its search returned. *)
Definition merge_rounds (rounds : list (str * list SearchHit))
  : list (str * Payload) :=
  dedup_snippets
    (foldl (fun d round => merge_keyword_hits round.1 round.2 d) [] rounds).

(** ** Effects

    External capabilities act on an abstract world [W].  A computation
    threads the world and a trace of the calls it made, and either returns
    or raises. *)

Inductive event :=
| EvSearchPage (url : str)      (* a search loop asks for one result page *)
| EvHttpGet (url : str)         (* [requests.get] *)
| EvSleep (seconds : Z)         (* [time.sleep] of a whole number of seconds *)
| EvRateLimit                   (* [time.sleep(config.rate_limit_seconds)] *)
| EvDriverGet (url : str)       (* [driver.get] *)
| EvPause.                      (* [input(message)] *)

#[global] Instance event_eq_dec : EqDecision event.
Proof. solve_decision. Defined.

Record state (W : Type) := mk_state {
  world : W;
  trace : list event
}.
Arguments mk_state {W} world trace.
Arguments world {W} s.
Arguments trace {W} s.

Definition M (W A : Type) : Type := state W -> result A * state W.

Definition ret {W A} (a : A) : M W A := fun st => (Ok a, st).

Definition bind {W A B} (m : M W A) (k : A -> M W B) : M W B :=
  fun st =>
    match m st with
    | (Ok a, st') => k a st'
    | (Raise e, st') => (Raise e, st')
    end.

Definition raise {W A} (e : exn) : M W A := fun st => (Raise e, st).

(** [try: body  except <catches> as exc: handler] *)
Definition try_except {W A} (body : M W A) (catches : exn -> bool)
    (handler : exn -> M W A) : M W A :=
  fun st =>
    match body st with
    | (Ok a, st') => (Ok a, st')
    | (Raise e, st') => if catches e then handler e st' else (Raise e, st')
    end.

(** [try: body  finally: final] *)
Definition try_finally {W A} (body : M W A) (final : M W unit) : M W A :=
  fun st =>
    match body st with
    | (r, st') =>
        match final st' with
        | (Ok _, st'') => (r, st'')
        | (Raise e, st'') => (Raise e, st'')
        end
    end.

Definition emit {W} (e : event) : M W unit :=
  fun st => (Ok tt, {| world := world st; trace := trace st ++ [e] |}).

(** A call to an external capability. *)
Definition call {W A} (op : W -> result A * W) : M W A :=
  fun st =>
    match op (world st) with
    | (r, w) => (r, {| world := w; trace := trace st |})
    end.

Definition read {W A} (f : W -> A) : M W A :=
  fun st => (Ok (f (world st)), st).

Notation "x <- m ;; k" := (bind m (fun x => k))
  (at level 100, m at next level, right associativity).
Notation "m ;;; k" := (bind m (fun _ => k))
  (at level 100, right associativity).

(** Requested result pages in a trace. *)
Definition is_search_page (e : event) : bool :=
  match e with EvSearchPage _ => true | _ => false end.

Definition page_fetches (tr : list event) : nat :=
  length (filter (fun e => is_search_page e = true) tr).

(** The capabilities the package obtains from [requests], [selenium],
    [bs4], the clock, the console and the file system. *)
Class Env (W : Type) := {
  (** [requests.get(url, headers, timeout)], [raise_for_status()] and
      [response.text] *)
  requests_get : str -> str -> W -> result str * W;
  (** [datetime.now(timezone.utc)]: its reading in microseconds, a date of
      the calendar as is the local reading *)
  clock_utcnow : W -> Z;
  (** [input(message)] *)
  console_input : W -> result unit * W;
  (** [driver.get(url)] *)
  driver_get : str -> W -> result unit * W;
  (** [WebDriverWait(driver, timeout).until(readyState == "complete")] *)
  driver_wait_ready : W -> result unit * W;
  (** locating and clicking a consent button *)
  driver_click_consent : W -> result unit * W;
  (** [driver.title] *)
  driver_title : W -> result (option str) * W;
  (** [driver.page_source] *)
  driver_page_source : W -> result str * W;
  (** [driver.execute_script("return document.body ? ... innerText : ''")] *)
  driver_body_text : W -> result str * W;
  (** [Page.printToPDF] written to the given path *)
  driver_print_pdf : str -> W -> result unit * W;
  (** [driver.save_screenshot(path)] *)
  driver_save_screenshot : str -> W -> result unit * W;
  (** [DebugManager.dump_page] when debugging is enabled: media, kind, url *)
  debug_dump : str -> str -> str -> W -> result unit * W;
  (** creating the error directory and writing the page markup there:
      media, run id; returns the markup path and the screenshot path *)
  write_error_html : str -> str -> W -> result (str * str) * W;
  (** [BaseMediaScraper.parse_search_results] (BeautifulSoup) *)
  parse_search_results : MediaDefinition -> str -> str -> list SearchHit;
  (** [BaseMediaScraper.detect_next_page] (BeautifulSoup) *)
  detect_next_page : str -> str -> option str;
  (** content of the first [meta] tag with the given property or name *)
  html_meta_content : str -> str -> option str;
  (** the first [time] element: its [datetime] attribute and its text *)
  html_time_tag : str -> option (option str * str);
  (** [urllib.parse.quote_plus] *)
  quote_plus : str -> str;
  (** [template.format(query=.., page=..)] *)
  format_search_url : str -> str -> option Z -> str;
  (** [datetime.isoformat()] *)
  isoformat : datetime -> str;
  (** [repr(s)] of a [str]: the quote it chooses and what it escapes depend
      on the characters of [s] and on the Unicode database *)
  str_repr : str -> str;
  (** [LuxNewsRunner._generate_run_id] (clock and [random.choices]) *)
  generate_run_id : option str -> W -> str * W;
  (** creating the output, run and PDF directories; returns their paths *)
  make_run_dirs : str -> W -> result (str * str) * W;
  (** [create_driver] and [driver.quit()] *)
  create_driver : W -> result unit * W;
  driver_quit : W -> result unit * W;
  (** [build_run_summary_pdf], [merge_pdfs] and [dump_json] *)
  write_run_outputs : str -> list ArticleRecord -> list MediaStatus ->
                      list str -> W -> result unit * W;
  (** the progress callback, called with the event name, the media and the
      status reached so far *)
  progress_callback : str -> str -> option MediaStatus -> W -> result unit * W
}.

(** [str(exc)]: the message, and for a [KeyError] the [repr] of its
    argument. *)
Definition exn_str {W} `{Env W} (e : exn) : str :=
  match e with
  | KeyError m => str_repr m
  | RequestException m | RuntimeError m | ValueError m
  | TypeError m | OverflowError m | WebDriverException m
  | TimeoutException m | EOFError m | OtherException m => m
  | KeyboardInterrupt => []
  end.

(** ** [media/base.py]: [BaseMediaScraper] *)

Definition PAGE_PLACEHOLDER : str := lit "{page}".

Definition DEFAULT_USER_AGENT : str :=
  lit "Mozilla/5.0 (X11; Linux x86_64) AppleWebKit/537.36 (KHTML, like Gecko) Chrome/121.0 Safari/537.36".

(** What one pass through the body of the search loop decides. *)
Inductive loop_step :=
| Break (hits : list SearchHit)
| Continue (urls : list str) (pages_seen seen_urls : gset str)
    (hits : list SearchHit).

Section Scraper.
Context {W : Type} {E : Env W} {LZ : LocalZone}.
Variable config : RunConfig.
Variable definition : MediaDefinition.

Definition has_page_placeholder : bool :=
  str_in PAGE_PLACEHOLDER (search_url definition).

(** [BaseMediaScraper.build_search_urls] *)
Definition build_search_urls (keyword : str) : list str :=
  let query := quote_plus keyword in
  if has_page_placeholder
  then map (fun page => format_search_url (search_url definition) query (Some page))
           (seqZ 1 (max_pages config))
  else [format_search_url (search_url definition) query None].

(** [BaseMediaScraper._user_agent] *)
Definition _user_agent : str :=
  match extra_user_agent config with
  | Some ua => if truthy ua then ua else DEFAULT_USER_AGENT
  | None => DEFAULT_USER_AGENT
  end.

(** One turn of [for attempt in range(1, 4)]: the page text, or nothing
    once a [RequestException] has been logged and slept over. *)
Definition fetch_attempt (url : str) (attempt : Z) : M W (option str) :=
  try_except
    (emit (EvHttpGet url) ;;;
     text <- call (requests_get url _user_agent) ;;
     ret (Some text))
    is_RequestException
    (fun _ => emit (EvSleep (2 ^ attempt)) ;;; ret None).

Fixpoint fetch_attempts (url : str) (attempts : list Z) : M W str :=
  match attempts with
  | [] => raise (RuntimeError (lit "Failed to fetch search page: " ++ url))
  | attempt :: rest =>
      r <- fetch_attempt url attempt ;;
      match r with
      | Some text => ret text
      | None => fetch_attempts url rest
      end
  end.

(** [BaseMediaScraper.fetch_search_page] *)
Definition fetch_search_page (url : str) : M W str :=
  fetch_attempts url (seqZ 1 3).

(** The loop of [BaseMediaScraper.filter_hits_by_date], [filtered] being
    the list built so far. *)
Fixpoint filter_hits_from (now : datetime) (last_days : Z)
    (hits filtered : list SearchHit) : result (list SearchHit) :=
  match hits with
  | [] => Ok filtered
  | hit :: rest =>
      match hit_published_at hit with
      | None => filter_hits_from now last_days rest (filtered ++ [hit])
      | Some published =>
          match is_within_last_days now published last_days (Some now) with
          | Raise e => Raise e
          | Ok true => filter_hits_from now last_days rest (filtered ++ [hit])
          | Ok false => filter_hits_from now last_days rest filtered
          end
      end
  end.

(** [datetime.now().astimezone()] *)
Definition local_now (w : W) : datetime :=
  {| wall := (clock_utcnow w + local_utcoffset)%Z;
     tzinfo := Some local_utcoffset |}.

(** [BaseMediaScraper.filter_hits_by_date] *)
Definition filter_hits_by_date (hits : list SearchHit) (last_days : Z)
  : M W (list SearchHit) :=
  now <- read local_now ;;
  match filter_hits_from now last_days hits [] with
  | Ok filtered => ret filtered
  | Raise e => raise e
  end.

(** *** The search loop

    [BaseMediaScraper.search] and [LuxNewsRunner._search_with_selenium] run
    the same loop; they differ in how a page is fetched ([fetch]) and in
    what happens between the first two stop conditions ([after_new_hits]). *)

Section Loop.
Variable fetch : str -> M W str.
Variable after_new_hits : M W unit.
Variable keyword_last_days : Z.

(** The body of [for url in urls] for a [url] not in [pages_seen]. *)
Definition search_page (url : str) (urls : list str)
    (pages_seen seen_urls : gset str) (hits : list SearchHit) : M W loop_step :=
  let pages_seen := {[url]} ∪ pages_seen in
  emit (EvSearchPage url) ;;;
  html <- fetch url ;;
  page_hits <- filter_hits_by_date (parse_search_results definition html url)
                                   keyword_last_days ;;
  let new_hits := filter (fun hit => hit_url hit ∉ seen_urls) page_hits in
  let seen_urls := foldl (fun seen hit => {[hit_url hit]} ∪ seen) seen_urls new_hits in
  let hits := hits ++ new_hits in
  if bool_decide (new_hits = []) then ret (Break hits)
  else
    after_new_hits ;;;
    if (max_results config <=? Z.of_nat (length hits))%Z then ret (Break hits)
    else if negb has_page_placeholder then
      if (max_pages config <=? Z.of_nat (size pages_seen))%Z then ret (Break hits)
      else
        match detect_next_page html url with
        | Some next_url =>
            if truthy next_url && negb (bool_decide (next_url ∈ pages_seen))
            then emit EvRateLimit ;;;
                 ret (Continue (urls ++ [next_url]) pages_seen seen_urls hits)
            else ret (Break hits)
        | None => ret (Break hits)
        end
    else
      emit EvRateLimit ;;;
      ret (Continue urls pages_seen seen_urls hits).

(** The measure of the loop: each pass either drops a queued URL or uses up
    one of the pages still allowed. *)
Definition loop_measure (urls : list str) (pages_seen : gset str) : nat :=
  (length urls + Z.to_nat (max_pages config - Z.of_nat (size pages_seen)))%nat.

Definition inspect {A} (a : A) : {b | a = b} := exist _ a eq_refl.

(** [for url in urls: if url in pages_seen: continue ...], [urls] being the
    URLs the iteration has not reached yet. *)
Equations search_loop (urls : list str) (pages_seen seen_urls : gset str)
    (hits : list SearchHit) (st : state W) : result (list SearchHit) * state W
    by wf (loop_measure urls pages_seen) lt :=
search_loop [] pages_seen seen_urls hits st := (Ok hits, st);
search_loop (url :: urls) pages_seen seen_urls hits st
    with decide (url ∈ pages_seen) := {
  | left _ => search_loop urls pages_seen seen_urls hits st
  | right fresh
      with inspect (search_page url urls pages_seen seen_urls hits st) := {
    | exist _ (Raise e, st') _ => (Raise e, st')
    | exist _ (Ok (Break hits'), st') _ => (Ok hits', st')
    | exist _ (Ok (Continue urls' pages_seen' seen_urls' hits'), st') eqn =>
        search_loop urls' pages_seen' seen_urls' hits' st' } }.
Next Obligation.
  match goal with
  | Hfresh : ?u ∉ ?ps, Hpage : search_page ?u _ ?ps _ _ _ = _ |- _ =>
      assert (Hsize : size ({[u]} ∪ ps) = S (size ps))
        by (rewrite size_union by (apply disjoint_singleton_l; exact Hfresh);
            rewrite size_singleton; reflexivity);
      revert Hpage
  end.
  unfold search_page, bind, emit, ret, loop_measure.
  destruct (fetch _ _) as [[html|e] st1]; [|discriminate].
  destruct (filter_hits_by_date _ _ st1) as [[page_hits|e] st2]; [|discriminate].
  destruct (bool_decide _); [discriminate|].
  destruct (after_new_hits st2) as [[[]|e] st3]; [|discriminate].
  destruct (_ <=? _)%Z; [discriminate|].
  destruct (negb has_page_placeholder).
  - destruct (_ <=? _)%Z eqn:Hpages; [discriminate|].
    apply Z.leb_gt in Hpages.
    destruct (detect_next_page html _) as [next_url|]; [|discriminate].
    destruct (truthy next_url && _); [|discriminate].
    intros [= <- <- <- <- <-]. rewrite Hsize in *.
    rewrite length_app. simpl. lia.
  - intros [= <- <- <- <- <-]. rewrite Hsize. simpl. lia.
Qed.

(** The whole search for one keyword. *)
Definition search_with (keyword : str) : M W (list SearchHit) :=
  search_loop (build_search_urls keyword) ∅ ∅ [].

End Loop.

(** [BaseMediaScraper.search] *)
Definition search (keyword : str) (last_days : Z) : M W (list SearchHit) :=
  search_with fetch_search_page (ret tt) last_days keyword.

End Scraper.

(** ** [core.py]: [LuxNewsRunner] *)

(** The locals of [_process_article] that its [except] clause reads. *)
Record article_locals := mk_locals {
  l_title : option str;
  l_published_at : option str;
  l_date_unknown : bool;
  l_snippets : list str;
  l_pdf_path : option str
}.

(** [published_at = text; date_unknown = False] *)
Definition with_published_at (vars : article_locals) (text : option str)
  : article_locals :=
  {| l_title := l_title vars; l_published_at := text; l_date_unknown := false;
     l_snippets := l_snippets vars; l_pdf_path := l_pdf_path vars |}.

(** [per_article_pdf_path = path] *)
Definition with_pdf_path (vars : article_locals) (path : option str)
  : article_locals :=
  {| l_title := l_title vars; l_published_at := l_published_at vars;
     l_date_unknown := l_date_unknown vars; l_snippets := l_snippets vars;
     l_pdf_path := path |}.

Definition META_KEYS : list str :=
  [lit "article:published_time"; lit "og:pubdate"; lit "pubdate";
   lit "date"; lit "publish_date"; lit "dc.date"].

Definition NO_MATCH_MESSAGE : str :=
  lit "No keyword match found in visible text.".

(** What [run_job] returns. *)
Record RunResult := mk_RunResult {
  rr_run_id : str;
  rr_run_timestamp : str;
  rr_run_dir : str;
  rr_records : list ArticleRecord;
  rr_media_statuses : list MediaStatus
}.

Section Runner.
Context {W : Type} {E : Env W} {LZ : LocalZone} {U : UnicodeData} {DP : DateParser}.
Variable config : RunConfig.
Variable MEDIA_REGISTRY : str -> option MediaDefinition.

(** [LuxNewsRunner._pause] *)
Definition _pause : M W unit :=
  try_except (emit EvPause ;;; call console_input) is_EOFError (fun _ => ret tt).

(** [LuxNewsRunner._notify] *)
Definition _notify (name media_id : str) (status : option MediaStatus) : M W unit :=
  try_except (call (progress_callback name media_id status)) is_Exception
             (fun _ => ret tt).

(** [selenium_utils.try_accept_cookies] *)
Definition try_accept_cookies : M W unit :=
  try_except (call driver_click_consent) is_WebDriverException (fun _ => ret tt).

(** [selenium_utils.extract_title] *)
Definition extract_title : M W (option str) :=
  title <- try_except (call driver_title) is_WebDriverException
                      (fun _ => ret None) ;;
  match title with
  | Some t => if truthy t then ret (Some (strip t)) else ret None
  | None => ret None
  end.

(** [selenium_utils.extract_visible_text] *)
Definition extract_visible_text : M W str :=
  try_except (call driver_body_text) is_WebDriverException (fun _ => ret []).

(** [DebugManager.dump_page] *)
Definition dump_page (media_id kind url : str) : M W unit :=
  if debug config then call (debug_dump media_id kind url) else ret tt.

(** The page fetch of [_search_with_selenium]. *)
Definition selenium_fetch (definition : MediaDefinition) (url : str) : M W str :=
  emit (EvDriverGet url) ;;;
  call (driver_get url) ;;;
  call driver_wait_ready ;;;
  try_accept_cookies ;;;
  dump_page (media_id definition) (lit "search") url ;;;
  call driver_page_source.

(** [LuxNewsRunner._search_with_selenium] *)
Definition _search_with_selenium (definition : MediaDefinition)
    (keyword : str) (last_days : Z) : M W (list SearchHit) :=
  search_with config definition (selenium_fetch definition)
    (if pause config then _pause else ret tt) last_days keyword.

(** The loop [for keyword in self.config.keywords] of
    [_collect_search_hits]. *)
Fixpoint collect_keywords (definition : MediaDefinition) (last_days : Z)
    (kws : list str) (hits_by_url : list (str * Payload))
  : M W (list (str * Payload)) :=
  match kws with
  | [] => ret hits_by_url
  | keyword :: rest =>
      keyword_hits <-
        (if search_use_selenium config || debug config
         then _search_with_selenium definition keyword last_days
         else search config definition keyword last_days) ;;
      collect_keywords definition last_days rest
        (merge_keyword_hits keyword keyword_hits hits_by_url)
  end.

(** [LuxNewsRunner._collect_search_hits] *)
Definition _collect_search_hits (definition : MediaDefinition) (last_days : Z)
  : M W (list (str * Payload)) :=
  hits_by_url <- collect_keywords definition last_days (keywords config) [] ;;
  ret (dedup_snippets hits_by_url).

(** [LuxNewsRunner._extract_date]: the meta tags, then the [time] element. *)
Definition parsed_iso (text : str) : result (option str) :=
  match parse_date text with
  | Raise e => Raise e
  | Ok (Some parsed) =>
      match astimezone_utc parsed with
      | Ok utc => Ok (Some (isoformat utc))
      | Raise e => Raise e
      end
  | Ok None => Ok None
  end.

Definition extract_date_time_tag (html : str) : result (option str) :=
  match html_time_tag html with
  | Some (datetime_attr, text) =>
      let date_text :=
        match datetime_attr with
        | Some a => if truthy a then a else text
        | None => text
        end in
      parsed_iso date_text
  | None => Ok None
  end.

Fixpoint extract_date_meta (html : str) (keys : list str) : result (option str) :=
  match keys with
  | [] => extract_date_time_tag html
  | key :: rest =>
      match html_meta_content html key with
      | Some content =>
          if truthy content then
            match parsed_iso content with
            | Raise e => Raise e
            | Ok (Some iso) => Ok (Some iso)
            | Ok None => extract_date_meta html rest
            end
          else extract_date_meta html rest
      | None => extract_date_meta html rest
      end
  end.

Definition _extract_date (html : str) : result (option str) :=
  extract_date_meta html META_KEYS.

(** [LuxNewsRunner._format_error_artifacts] *)
Definition _format_error_artifacts (media_id url run_id : str) : M W (list str) :=
  try_except
    (paths <- call (write_error_html media_id run_id) ;;
     screenshot_path <-
       try_except (call (driver_save_screenshot paths.2) ;;; ret (Some paths.2))
                  is_WebDriverException (fun _ => ret None) ;;
     ret ([lit "URL: " ++ url]
          ++ match screenshot_path with
             | Some p => [lit "Screenshot: " ++ p]
             | None => []
             end
          ++ [lit "HTML: " ++ paths.1]))
    is_Exception
    (fun exc => ret [lit "Artifact capture failed: " ++ exn_str exc]).

(** The keyword test of [_process_article]. *)
Definition match_keywords (kws : list str) (visible_text : str) : list str :=
  let normalized_text := normalize_text visible_text in
  filter (fun kw => str_in (normalize_text kw) normalized_text = true) kws.

Section ProcessArticle.
Variables (media_id url : str) (kws : list str).
Variables (search_title : option str) (search_date : option datetime).
Variables (pdf_dir run_id run_timestamp : str).

Definition record_of (vars : article_locals) (matched : list str)
    (st : article_status) (errs : list str) : ArticleRecord :=
  mk_ArticleRecord run_id run_timestamp media_id url
    (l_title vars) (l_published_at vars) (l_date_unknown vars)
    matched (l_snippets vars) (l_pdf_path vars) st errs.

(** The [except Exception as exc] clause, reading the locals as they stand
    when the exception arrives. *)
Definition article_failed (vars : article_locals) (exc : exn) : M W ArticleRecord :=
  (if pause_on_error config then _pause else ret tt) ;;;
  artifacts <- _format_error_artifacts media_id url run_id ;;
  ret (record_of vars [] StatusFailed ([exn_str exc] ++ artifacts)).

(** A statement of the [try] block, with the locals current at that point. *)
Definition guarded {A} (vars : article_locals) (m : M W A)
    (k : A -> M W ArticleRecord) : M W ArticleRecord :=
  fun st =>
    match m st with
    | (Ok a, st') => k a st'
    | (Raise e, st') =>
        if is_Exception e then article_failed vars e st' else (Raise e, st')
    end.

Definition lift_result {A} (r : result A) : M W A :=
  match r with Ok a => ret a | Raise e => raise e end.

(** [" ".join(visible_text.split())[:200]] *)
Definition snippet_text_of (visible_text : str) : str :=
  slice_to 200 (strip (sub_whitespace false visible_text)).

(** [title or url] *)
Definition title_or_url (title : option str) : str :=
  match title with
  | Some t => if truthy t then t else url
  | None => url
  end.

(** [pdf_dir / f"{media_id}_{safe_title}.pdf"] *)
Definition pdf_path_of (safe_title : str) : str :=
  pdf_dir ++ lit "/" ++ media_id ++ lit "_" ++ safe_title ++ lit ".pdf".

(** [LuxNewsRunner._process_article] *)
Definition _process_article (snippets : list str) : M W ArticleRecord :=
  let vars :=
    {| l_title := search_title; l_published_at := None;
       l_date_unknown := true; l_snippets := snippets; l_pdf_path := None |} in
  guarded vars (emit (EvDriverGet url) ;;; call (driver_get url)) (fun _ =>
  guarded vars (call driver_wait_ready) (fun _ =>
  guarded vars try_accept_cookies (fun _ =>
  guarded vars extract_title (fun detected_title =>
  let vars :=
    if truthy_opt detected_title
    then {| l_title := detected_title; l_published_at := l_published_at vars;
            l_date_unknown := l_date_unknown vars;
            l_snippets := l_snippets vars; l_pdf_path := l_pdf_path vars |}
    else vars in
  guarded vars (html <- call driver_page_source ;; lift_result (_extract_date html))
    (fun detected_date =>
  guarded vars
    (if truthy_opt detected_date
     then ret (with_published_at vars detected_date)
     else
       match search_date with
       | Some d =>
           utc <- lift_result (astimezone_utc d) ;;
           ret (with_published_at vars (Some (isoformat utc)))
       | None => ret vars
       end)
    (fun vars =>
  guarded vars
    (match MEDIA_REGISTRY media_id with
     | Some _ => dump_page media_id (lit "article") url
     | None => raise (KeyError media_id)
     end) (fun _ =>
  guarded vars (if pause config then _pause else ret tt) (fun _ =>
  guarded vars extract_visible_text (fun visible_text =>
  let matched := match_keywords kws visible_text in
  let vars :=
    match l_snippets vars with
    | [] =>
        if truthy visible_text && truthy (snippet_text_of visible_text)
        then {| l_title := l_title vars; l_published_at := l_published_at vars;
                l_date_unknown := l_date_unknown vars;
                l_snippets := [snippet_text_of visible_text];
                l_pdf_path := l_pdf_path vars |}
        else vars
    | _ :: _ => vars
    end in
  match matched with
  | [] =>
      ret (record_of (with_pdf_path vars None) [] StatusSkipped [NO_MATCH_MESSAGE])
  | _ :: _ =>
      let safe_title := safe_filename (title_or_url (l_title vars)) DEFAULT_MAX_LEN in
      let pdf_path := pdf_path_of safe_title in
      guarded vars (call (driver_print_pdf pdf_path)) (fun _ =>
      let vars := with_pdf_path vars (Some pdf_path) in
      ret (record_of vars matched StatusOk []))
  end))))))))).

End ProcessArticle.

(** [LuxNewsRunner._get_scraper] *)
Definition _get_scraper (media_id : str) : result MediaDefinition :=
  match MEDIA_REGISTRY media_id with
  | Some definition => Ok definition
  | None => Raise (KeyError (lit "Unknown media: " ++ media_id))
  end.

(** What the body of [for media_id in self.config.medias] adds to the three
    lists of [run_job]. *)
Record media_outcome := mk_outcome {
  o_status : MediaStatus;
  o_records : list ArticleRecord;
  o_pdf_paths : list str
}.

(** [for url, payload in results.items()] *)
Fixpoint process_results (media_id pdf_dir run_id run_timestamp : str)
    (results : list (str * Payload)) (acc : media_outcome) : M W media_outcome :=
  match results with
  | [] => ret acc
  | (url, payload) :: rest =>
      record <- _process_article media_id url (keywords config)
                  (p_title payload) (p_published_at payload)
                  pdf_dir run_id run_timestamp (p_snippets payload) ;;
      let pdfs :=
        match status record, per_article_pdf_path record with
        | StatusOk, Some path =>
            if truthy path then o_pdf_paths acc ++ [path] else o_pdf_paths acc
        | _, _ => o_pdf_paths acc
        end in
      let st :=
        match status record with
        | StatusFailed =>
            {| ms_media := ms_media (o_status acc);
               ms_status := MediaPartial;
               ms_errors := ms_errors (o_status acc) ++ errors record |}
        | _ => o_status acc
        end in
      emit EvRateLimit ;;;
      process_results media_id pdf_dir run_id run_timestamp rest
        {| o_status := st; o_records := o_records acc ++ [record];
           o_pdf_paths := pdfs |}
  end.

(** The body of [for index, media_id in enumerate(self.config.medias)]. *)
Definition run_media (pdf_dir run_id run_timestamp media_id : str)
  : M W media_outcome :=
  let status := {| ms_media := media_id; ms_status := MediaOk; ms_errors := [] |} in
  _notify (lit "media_start") media_id None ;;;
  match _get_scraper media_id with
  | Raise exc =>
      if is_KeyError exc then
        let status :=
          {| ms_media := media_id; ms_status := MediaFailed;
             ms_errors := [exn_str exc] |} in
        _notify (lit "media_error") media_id (Some status) ;;;
        ret {| o_status := status; o_records := []; o_pdf_paths := [] |}
      else raise exc
  | Ok definition =>
      results <-
        try_except
          (r <- _collect_search_hits definition (last_days config) ;; ret (inl r))
          is_Exception (fun exc => ret (inr exc)) ;;
      match results with
      | inr exc =>
          let status :=
            {| ms_media := media_id; ms_status := MediaFailed;
               ms_errors := [lit "Search failed for " ++ media_id ++ lit ": "
                               ++ exn_str exc] |} in
          _notify (lit "media_error") media_id (Some status) ;;;
          ret {| o_status := status; o_records := []; o_pdf_paths := [] |}
      | inl results =>
          outcome <- process_results media_id pdf_dir run_id run_timestamp results
                       {| o_status := status; o_records := []; o_pdf_paths := [] |} ;;
          _notify (lit "media_done") media_id (Some (o_status outcome)) ;;;
          ret outcome
      end
  end.

(** [for index, media_id in enumerate(self.config.medias, start=1)] *)
Fixpoint run_medias (pdf_dir run_id run_timestamp : str) (media_ids : list str)
    (records : list ArticleRecord) (media_statuses : list MediaStatus)
    (article_pdf_paths : list str)
  : M W (list ArticleRecord * list MediaStatus * list str) :=
  match media_ids with
  | [] => ret (records, media_statuses, article_pdf_paths)
  | media_id :: rest =>
      outcome <- run_media pdf_dir run_id run_timestamp media_id ;;
      run_medias pdf_dir run_id run_timestamp rest
        (records ++ o_records outcome)
        (media_statuses ++ [o_status outcome])
        (article_pdf_paths ++ o_pdf_paths outcome)
  end.

(** [LuxNewsRunner.run_job] *)
Definition run_job (job_name : option str) : M W RunResult :=
  run_id <- call (fun w => let (r, w') := generate_run_id job_name w in (Ok r, w')) ;;
  run_timestamp <-
    read (fun w => isoformat {| wall := clock_utcnow w; tzinfo := Some timezone_utc |}) ;;
  dirs <- call (make_run_dirs run_id) ;;
  call create_driver ;;;
  collected <-
    try_finally
      (run_medias dirs.2 run_id run_timestamp (medias config) [] [] [])
      (call driver_quit) ;;
  call (write_run_outputs dirs.1 collected.1.1 collected.1.2 collected.2) ;;;
  ret {| rr_run_id := run_id; rr_run_timestamp := run_timestamp;
         rr_run_dir := dirs.1; rr_records := collected.1.1;
         rr_media_statuses := collected.1.2 |}.

End Runner.

(** ** Concrete collaborators

    A fragment of the Unicode character database (Basic Latin, Latin-1
    Supplement, the combining diacritical marks and the white space
    characters), a fuzzy parser and an off-line world.  They give the
    parameters above a value to run the definitions on. *)

Fixpoint assoc {A} (c : N) (table : list (N * A)) : option A :=
  match table with
  | [] => None
  | (k, v) :: rest => if k =? c then Some v else assoc c rest
  end.

Definition LATIN1_DECOMPOSITIONS : list (N * list N) :=
  [(160, [32]); (168, [32; 776]); (170, [97]); (175, [32; 772]); (178, [50]);
   (179, [51]); (180, [32; 769]); (181, [956]); (184, [32; 807]); (185, [49]);
   (186, [111]); (188, [49; 8260; 52]); (189, [49; 8260; 50]);
   (190, [51; 8260; 52]); (192, [65; 768]); (193, [65; 769]); (194, [65; 770]);
   (195, [65; 771]); (196, [65; 776]); (197, [65; 778]); (199, [67; 807]);
   (200, [69; 768]); (201, [69; 769]); (202, [69; 770]); (203, [69; 776]);
   (204, [73; 768]); (205, [73; 769]); (206, [73; 770]); (207, [73; 776]);
   (209, [78; 771]); (210, [79; 768]); (211, [79; 769]); (212, [79; 770]);
   (213, [79; 771]); (214, [79; 776]); (217, [85; 768]); (218, [85; 769]);
   (219, [85; 770]); (220, [85; 776]); (221, [89; 769]); (224, [97; 768]);
   (225, [97; 769]); (226, [97; 770]); (227, [97; 771]); (228, [97; 776]);
   (229, [97; 778]); (231, [99; 807]); (232, [101; 768]); (233, [101; 769]);
   (234, [101; 770]); (235, [101; 776]); (236, [105; 768]); (237, [105; 769]);
   (238, [105; 770]); (239, [105; 776]); (241, [110; 771]); (242, [111; 768]);
   (243, [111; 769]); (244, [111; 770]); (245, [111; 771]); (246, [111; 776]);
   (249, [117; 768]); (250, [117; 769]); (251, [117; 770]); (252, [117; 776]);
   (253, [121; 769]); (255, [121; 776])].

(** Combining classes of U+0300 .. U+036F. *)
Definition DIACRITIC_CLASSES : list N :=
  [230; 230; 230; 230; 230; 230; 230; 230; 230; 230; 230; 230; 230; 230; 230;
   230; 230; 230; 230; 230; 230; 232; 220; 220; 220; 220; 232; 216; 220; 220;
   220; 220; 220; 202; 202; 220; 220; 220; 220; 202; 202; 220; 220; 220; 220;
   220; 220; 220; 220; 220; 220; 220; 1; 1; 1; 1; 1; 220; 220; 220; 220; 230;
   230; 230; 230; 230; 230; 230; 230; 240; 230; 220; 220; 220; 230; 230; 230;
   220; 220; 0; 230; 230; 230; 220; 220; 220; 220; 230; 232; 220; 220; 230;
   233; 234; 234; 233; 234; 234; 233; 230; 230; 230; 230; 230; 230; 230; 230;
   230; 230; 230; 230; 230].

Definition WHITESPACE : list N :=
  [9; 10; 11; 12; 13; 28; 29; 30; 31; 32; 0x85; 0xA0; 0x1680; 0x2000; 0x2001;
   0x2002; 0x2003; 0x2004; 0x2005; 0x2006; 0x2007; 0x2008; 0x2009; 0x200A;
   0x2028; 0x2029; 0x202F; 0x205F; 0x3000].

Definition latin1_decomposition (c : N) : list N :=
  match assoc c LATIN1_DECOMPOSITIONS with
  | Some d => d
  | None => [c]
  end.

Definition latin1_combining (c : N) : N :=
  if (0x300 <=? c) && (c <? 0x370)
  then nth (N.to_nat (c - 0x300)) DIACRITIC_CLASSES 0
  else 0.

Definition latin1_upper (c : N) : bool :=
  ((65 <=? c) && (c <=? 90))
  || ((0xC0 <=? c) && (c <=? 0xDE) && negb (c =? 0xD7)).

Definition latin1_tolower (c : N) : list N :=
  if latin1_upper c then [c + 32] else [c].

Definition latin1_cased (c : N) : bool :=
  latin1_upper c || ((97 <=? c) && (c <=? 122))
  || ((0xDF <=? c) && (c <=? 0xFF) && negb (c =? 0xF7))
  || (c =? 0xAA) || (c =? 0xB5) || (c =? 0xBA).

Definition latin1_case_ignorable (c : N) : bool :=
  existsb (N.eqb c) [39; 46; 58; 94; 96; 168; 173; 175; 180; 183; 184]
  || ((0x300 <=? c) && (c <? 0x370)).

Definition latin1_ucd : UnicodeData :=
  {| decomposition := latin1_decomposition;
     combining := latin1_combining;
     tolower_full := latin1_tolower;
     isspace := fun c => existsb (N.eqb c) WHITESPACE;
     cased := latin1_cased;
     case_ignorable := latin1_case_ignorable |}.

(** A parser that rejects the empty text and otherwise reads the length of
    the text, modulo the days of the calendar, as a naive number of days
    after 0001-01-01. *)
Definition toy_date_parser : DateParser :=
  {| date_parser_parse := fun text =>
       match text with
       | [] => Raise (ValueError (lit "String does not contain a date"))
       | _ :: _ =>
           Ok {| wall := days_us (Z.of_nat (length text) mod 3652059);
                 tzinfo := None |}
       end |}.

(** The reading of 2026-01-01T00:00:00. *)
Definition SAMPLE_NOW : Z := (739616 * MICROSECONDS_PER_DAY)%Z.

(** 2026-01-01T00:00:00+00:00 *)
Definition sample_now : datetime :=
  {| wall := SAMPLE_NOW; tzinfo := Some timezone_utc |}.

(** [repr] of a text without control characters: single quotes, or double
    quotes when the text has an apostrophe and no double quote; the quote
    chosen and the backslash are escaped. *)
Definition plain_repr (s : str) : str :=
  let quote :=
    if bool_decide (39 ∈ s) && negb (bool_decide (34 ∈ s)) then 34 else 39 in
  [quote]
  ++ flat_map (fun c => if (c =? quote) || (c =? 92) then [92; c] else [c]) s
  ++ [quote].

Definition utc_zone : LocalZone := {| local_utcoffset := 0%Z |}.

(** A world without network: every HTTP request fails, the browser shows
    one fixed page. *)
Definition offline_env : Env unit :=
  {| requests_get := fun _ _ w => (Raise (RequestException (lit "offline")), w);
     clock_utcnow := fun _ => SAMPLE_NOW;
     console_input := fun w => (Ok tt, w);
     driver_get := fun _ w => (Ok tt, w);
     driver_wait_ready := fun w => (Ok tt, w);
     driver_click_consent := fun w => (Ok tt, w);
     driver_title := fun w => (Ok (Some (lit "Place financiere")), w);
     driver_page_source := fun w => (Ok [], w);
     driver_body_text := fun w => (Ok (lit "La BCL  et la place FINANCIERE"), w);
     driver_print_pdf := fun _ w => (Ok tt, w);
     driver_save_screenshot := fun _ w => (Ok tt, w);
     debug_dump := fun _ _ _ w => (Ok tt, w);
     write_error_html := fun _ _ w => (Ok (lit "page.html", lit "page.png"), w);
     parse_search_results := fun _ _ _ => [];
     detect_next_page := fun _ _ => None;
     html_meta_content := fun _ _ => None;
     html_time_tag := fun _ => None;
     quote_plus := fun s => s;
     format_search_url := fun template query _ => template ++ query;
     isoformat := fun _ => lit "1970-01-01T00:00:00+00:00";
     str_repr := plain_repr;
     generate_run_id := fun _ w => (lit "run", w);
     make_run_dirs := fun r w => (Ok (r, r ++ lit "/pdfs"), w);
     create_driver := fun w => (Ok tt, w);
     driver_quit := fun w => (Ok tt, w);
     write_run_outputs := fun _ _ _ _ w => (Ok tt, w);
     progress_callback := fun _ _ _ w => (Ok tt, w) |}.

(** A world whose search pages never run out: each page fetched shows one
    new article and a link to a next page not seen before. *)
Definition paged_env : Env nat :=
  {| requests_get := fun _ _ w => (Ok [N.of_nat w], S w);
     clock_utcnow := fun _ => SAMPLE_NOW;
     console_input := fun w => (Ok tt, w);
     driver_get := fun _ w => (Ok tt, S w);
     driver_wait_ready := fun w => (Ok tt, w);
     driver_click_consent := fun w => (Ok tt, w);
     driver_title := fun w => (Ok None, w);
     driver_page_source := fun w => (Ok [N.of_nat w], w);
     driver_body_text := fun w => (Ok [], w);
     driver_print_pdf := fun _ w => (Ok tt, w);
     driver_save_screenshot := fun _ w => (Ok tt, w);
     debug_dump := fun _ _ _ w => (Ok tt, w);
     write_error_html := fun _ _ w => (Ok (lit "page.html", lit "page.png"), w);
     parse_search_results := fun _ html _ =>
       [{| hit_url := html; hit_title := None; hit_published_at := None;
           hit_snippet := None; hit_media_id := None |}];
     detect_next_page := fun _ url => Some (url ++ lit "+");
     html_meta_content := fun _ _ => None;
     html_time_tag := fun _ => None;
     quote_plus := fun s => s;
     format_search_url := fun template query page =>
       template ++ query
       ++ match page with Some p => [Z.to_N p] | None => [] end;
     isoformat := fun _ => lit "1970-01-01T00:00:00+00:00";
     str_repr := plain_repr;
     generate_run_id := fun _ w => (lit "run", w);
     make_run_dirs := fun r w => (Ok (r, r ++ lit "/pdfs"), w);
     create_driver := fun w => (Ok tt, w);
     driver_quit := fun w => (Ok tt, w);
     write_run_outputs := fun _ _ _ _ w => (Ok tt, w);
     progress_callback := fun _ _ _ w => (Ok tt, w) |}.

(** The paged world with a network that goes down after the first page:
    every later request fails. *)
Definition flaky_env : Env nat :=
  {| requests_get := fun url user_agent w =>
       match w with
       | O => @requests_get nat paged_env url user_agent w
       | S _ => (Raise (RequestException (lit "connection lost")), w)
       end;
     clock_utcnow := @clock_utcnow nat paged_env;
     console_input := @console_input nat paged_env;
     driver_get := @driver_get nat paged_env;
     driver_wait_ready := @driver_wait_ready nat paged_env;
     driver_click_consent := @driver_click_consent nat paged_env;
     driver_title := @driver_title nat paged_env;
     driver_page_source := @driver_page_source nat paged_env;
     driver_body_text := @driver_body_text nat paged_env;
     driver_print_pdf := @driver_print_pdf nat paged_env;
     driver_save_screenshot := @driver_save_screenshot nat paged_env;
     debug_dump := @debug_dump nat paged_env;
     write_error_html := @write_error_html nat paged_env;
     parse_search_results := @parse_search_results nat paged_env;
     detect_next_page := @detect_next_page nat paged_env;
     html_meta_content := @html_meta_content nat paged_env;
     html_time_tag := @html_time_tag nat paged_env;
     quote_plus := @quote_plus nat paged_env;
     format_search_url := @format_search_url nat paged_env;
     isoformat := @isoformat nat paged_env;
     str_repr := @str_repr nat paged_env;
     generate_run_id := @generate_run_id nat paged_env;
     make_run_dirs := @make_run_dirs nat paged_env;
     create_driver := @create_driver nat paged_env;
     driver_quit := @driver_quit nat paged_env;
     write_run_outputs := @write_run_outputs nat paged_env;
     progress_callback := @progress_callback nat paged_env |}.

Definition paged_config (pages : Z) : RunConfig :=
  {| keywords := [lit "BCL"]; medias := [lit "rtl.lu"];
     last_days := 2; max_pages := pages; max_results := 200;
     debug := false; pause := false; pause_on_error := false;
     search_use_selenium := false; extra_user_agent := None |}.

(** A source whose template has no page placeholder, and one that has. *)
Definition linked_source : MediaDefinition :=
  {| media_id := lit "delano.lu";
     search_url := lit "https://delano.lu/search?q={query}";
     domain := lit "delano.lu" |}.

Definition numbered_source : MediaDefinition :=
  {| media_id := lit "rtl.lu";
     search_url := lit "https://rtl.lu/search?q={query}&p={page}";
     domain := lit "rtl.lu" |}.

Definition sample_config : RunConfig :=
  {| keywords := [lit "BCL"; lit "CSSF"];
     medias := [lit "rtl.lu"; lit "nowhere.lu"];
     last_days := 2; max_pages := 1; max_results := 200;
     debug := false; pause := false; pause_on_error := false;
     search_use_selenium := false; extra_user_agent := None |}.

Definition sample_registry (media_id : str) : option MediaDefinition :=
  if bool_decide (media_id = lit "rtl.lu") then Some numbered_source else None.

Definition initial_state : state unit := {| world := tt; trace := [] |}.

(** * Vocabulary of the statements *)

(** ** The recency filter *)

Definition undated (hit : SearchHit) : Prop := hit_published_at hit = None.

#[global] Instance undated_dec hit : Decision (undated hit).
Proof. unfold undated. apply _. Defined.

(** ** File names *)

(** Lowercase ASCII letters, digits, hyphen, underscore and dot. *)
Definition filename_char (c : N) : Prop :=
  97 <= c <= 122 \/ 48 <= c <= 57 \/ c = 45 \/ c = 95 \/ c = 46.

(** A character that leaves no trace in a file name: it is outside the
    class [a-z0-9\-_. ], or it is a space or a hyphen. *)
Definition unusable (c : N) : Prop :=
  filename_class c = false \/ c = SPACE \/ c = HYPHEN.

(** ** Normalisation *)

Section UnicodeVocabulary.
Context {U : UnicodeData}.

(** A code point that [normalize_text] leaves alone: it is its own
    decomposition, it is a starter, it is its own lowercase form and it is
    not a capital sigma. *)
Definition stable (c : N) : Prop :=
  decomposition c = [c] /\ combining c = 0
  /\ tolower_full c = [c] /\ c <> CAPITAL_SIGMA.

(** The facts about the character database that the results below rest on.
    They hold of the Unicode data: decompositions are full, lowercasing a
    decomposed starter gives decomposed, lowercase starters, and the entries
    for the space, the ASCII letters and E-grave are the familiar ones. *)
Class UnicodeLaws : Prop := {
  decomposition_full :
    forall c d, d ∈ decomposition c -> decomposition d = [d];
  lower_closed :
    forall c, combining c = 0 -> decomposition c = [c] -> c <> CAPITAL_SIGMA ->
              Forall stable (tolower_full c);
  sigma_stable : stable SMALL_SIGMA /\ stable FINAL_SIGMA;
  space_stable : stable SPACE /\ isspace SPACE = true;
  ascii_upper :
    forall c, 65 <= c <= 90 ->
              decomposition c = [c] /\ combining c = 0 /\ tolower_full c = [c + 32];
  ascii_lower :
    forall c, 97 <= c <= 122 ->
              decomposition c = [c] /\ combining c = 0
              /\ tolower_full c = [c] /\ isspace c = false;
  e_grave : decomposition 0xC8 = [0x45; 0x300] /\ combining 0x300 = 230
}.

(** White space in a string is single spaces only. *)
Fixpoint single_spaced (after_space : bool) (s : str) : bool :=
  match s with
  | [] => true
  | c :: rest =>
      if isspace c
      then (c =? SPACE) && negb after_space && single_spaced true rest
      else single_spaced false rest
  end.

End UnicodeVocabulary.

(** ["FINANCIÈRE"], E-grave being U+00C8. *)
Definition FINANCIERE_UPPER : str := [70; 73; 78; 65; 78; 67; 73; 0xC8; 82; 69].

Fixpoint all_below (P : N -> bool) (n : nat) : bool :=
  match n with
  | O => true
  | S k => P (N.of_nat k) && all_below P k
  end.

Definition latin1_stable_b (c : N) : bool :=
  bool_decide (latin1_decomposition c = [c])
  && (latin1_combining c =? 0)
  && bool_decide (latin1_tolower c = [c])
  && negb (c =? CAPITAL_SIGMA).

(** ** The cross-keyword merge *)

(** The keywords recorded for a URL, none if the URL has no entry. *)
Definition keywords_of (url : str) (d : list (str * Payload)) : gset str :=
  match dict_get url d with
  | Some payload => p_keywords payload
  | None => ∅
  end.

(** The merge before the final pass over the snippets. *)
Definition merge_from (d : list (str * Payload))
    (rounds : list (str * list SearchHit)) : list (str * Payload) :=
  foldl (fun d round => merge_keyword_hits round.1 round.2 d) d rounds.

(** The URLs that the rounds produced. *)
Definition round_urls (rounds : list (str * list SearchHit)) : list str :=
  flat_map (fun round => map hit_url round.2) rounds.

(** ** Article records *)

(** The invariant of [ArticleRecord]. *)
Definition record_invariant (r : ArticleRecord) : Prop :=
  match status r with
  | StatusOk =>
      is_Some (per_article_pdf_path r) /\ matched_keywords r <> []
      /\ errors r = []
  | StatusSkipped =>
      matched_keywords r = [] /\ errors r = [NO_MATCH_MESSAGE]
      /\ per_article_pdf_path r = None
  | StatusFailed =>
      errors r <> [] /\ matched_keywords r = []
  end.

(** ** Traces and the search loop *)

(** A computation that requests no result page. *)
Definition silent {W A} (m : M W A) : Prop :=
  forall st, page_fetches (trace (m st).2) = page_fetches (trace st).

(** The pages a loop may still request: with a page placeholder, the URLs
    still queued; without, the pages still allowed, at least one while a URL
    is queued. *)
Definition page_budget (config : RunConfig) (definition : MediaDefinition)
    (urls : list str) (pages_seen : gset str) : nat :=
  if has_page_placeholder definition then length urls
  else match urls with
       | [] => 0
       | _ :: _ => Nat.max 1 (Z.to_nat (max_pages config - Z.of_nat (size pages_seen)))
       end.

(** The stop conditions in the order the specification gives them:
    (a) no new hit on the page; (b) the accumulated hits have reached
    [max_results]; (c) for a template without page placeholder, the pages
    visited have reached [max_pages], or no next page is found, or the next
    page was already visited. *)
Definition spec_stops (config : RunConfig) (definition : MediaDefinition)
    (new_hits hits : list SearchHit) (pages_seen : gset str)
    (next_page : option str) : bool :=
  if bool_decide (new_hits = []) then true
  else if (max_results config <=? Z.of_nat (length hits))%Z then true
  else if has_page_placeholder definition then false
  else if (max_pages config <=? Z.of_nat (size pages_seen))%Z then true
  else match next_page with
       | None => true
       | Some next_url =>
           negb (truthy next_url) || bool_decide (next_url ∈ pages_seen)
       end.

(** ** Fetch retries and source-level failures *)

Definition is_http_get (e : event) : bool :=
  match e with EvHttpGet _ => true | _ => false end.

(** HTTP requests in a trace. *)
Definition http_gets (tr : list event) : nat :=
  length (filter (fun e => is_http_get e = true) tr).

Section FetchVocabulary.
Context {W : Type} {E : Env W}.
Variable config : RunConfig.

(** Three requests in a row, starting in world [w] and ending in [w3], each
    failing with a [RequestException]. *)
Definition three_failures (url : str) (w w3 : W) : Prop :=
  exists m1 w1 m2 w2 m3,
    requests_get url (_user_agent config) w = (Raise (RequestException m1), w1)
    /\ requests_get url (_user_agent config) w1 = (Raise (RequestException m2), w2)
    /\ requests_get url (_user_agent config) w2 = (Raise (RequestException m3), w3).

(** [k] requests of [url] in a row, from world [w] to world [w'], each
    failing with a [RequestException]. *)
Fixpoint requests_fail (url : str) (k : nat) (w w' : W) : Prop :=
  match k with
  | O => w' = w
  | S k =>
      exists msg w1,
        requests_get url (_user_agent config) w
          = (Raise (RequestException msg), w1)
        /\ requests_fail url k w1 w'
  end.

End FetchVocabulary.

Definition FETCH_FAILED (url : str) : exn :=
  RuntimeError (lit "Failed to fetch search page: " ++ url).

(** The trace of three failed attempts: a request, then a sleep of [2],
    [4] and [8] seconds. *)
Definition three_attempts (url : str) : list event :=
  [EvHttpGet url; EvSleep 2; EvHttpGet url; EvSleep 4; EvHttpGet url; EvSleep 8].

(** What [k] failed attempts in a row add to the trace, the first of them
    being attempt [1]: a request each, followed by the sleep of that
    attempt. *)
Definition failed_attempts (url : str) (k : nat) : list event :=
  flat_map (fun attempt => [EvHttpGet url; EvSleep (2 ^ attempt)])
    (seqZ 1 (Z.of_nat k)).

(** The sleep that follows a third failed request. *)
Definition THIRD_BACKOFF : event := EvSleep 8.

(** A run from [st] only added to the trace, and if a third request in a
    row failed in it, it ended there, raising the failure of that page. *)
Definition fails_loudly_at {W A} (st : state W) (run : result A * state W)
  : Prop :=
  exists new,
    trace run.2 = trace st ++ new
    /\ (THIRD_BACKOFF ∈ new ->
        exists url before,
          run.1 = Raise (FETCH_FAILED url)
          /\ new = before ++ three_attempts url).

Definition fails_loudly {W A} (m : M W A) : Prop :=
  forall st, fails_loudly_at st (m st).

(** The search for one keyword as [_collect_search_hits] runs it, and the
    rounds of a collection: the keywords in order, each with the hits its
    search returned, the searches running one after the other. *)
Definition keyword_search {W} `{Env W} `{LocalZone} (config : RunConfig)
    (definition : MediaDefinition) (last_days : Z) (keyword : str)
  : M W (list SearchHit) :=
  if search_use_selenium config || debug config
  then _search_with_selenium config definition keyword last_days
  else search config definition keyword last_days.

Fixpoint search_rounds {W} `{Env W} `{LocalZone} (config : RunConfig)
    (definition : MediaDefinition) (last_days : Z) (kws : list str)
  : M W (list (str * list SearchHit)) :=
  match kws with
  | [] => ret []
  | keyword :: rest =>
      keyword_hits <- keyword_search config definition last_days keyword ;;
      rounds <- search_rounds config definition last_days rest ;;
      ret ((keyword, keyword_hits) :: rounds)
  end.

(** The status recorded for a media whose search raised [exc]. *)
Definition search_failed_status {W} `{Env W} (media_id : str) (exc : exn)
  : MediaStatus :=
  {| ms_media := media_id; ms_status := MediaFailed;
     ms_errors := [lit "Search failed for " ++ media_id ++ lit ": " ++ exn_str exc] |}.

(** ** Sample runs *)

Definition undated_hit : SearchHit :=
  {| hit_url := lit "https://rtl.lu/news/article-1"; hit_title := None;
     hit_published_at := None; hit_snippet := None; hit_media_id := None |}.

Definition old_hit : SearchHit :=
  {| hit_url := lit "https://rtl.lu/news/article-2"; hit_title := None;
     hit_published_at :=
       Some {| wall := (SAMPLE_NOW - 10 * MICROSECONDS_PER_DAY)%Z;
               tzinfo := Some timezone_utc |};
     hit_snippet := None; hit_media_id := None |}.

Definition sample_rounds : list (str * list SearchHit) :=
  [(lit "BCL", [undated_hit; old_hit]); (lit "CSSF", [undated_hit])].

Definition sample_article_run : result ArticleRecord * state unit :=
  @_process_article unit offline_env utc_zone latin1_ucd toy_date_parser
    sample_config sample_registry (lit "rtl.lu")
    (lit "https://rtl.lu/news/article-1") (keywords sample_config)
    None None (lit "out/pdfs") (lit "run") (lit "now") [] initial_state.

(** Pages requested and hits returned by a search in the paged world. *)
Definition paged_search (pages : Z) (source : MediaDefinition) : nat * nat :=
  let run := @search nat paged_env utc_zone (paged_config pages) source
               (lit "BCL") 2 {| world := 0%nat; trace := [] |} in
  (page_fetches (trace run.2),
   match run.1 with Ok hits => length hits | Raise _ => 0%nat end).

(** A job in the off-line world: the search of the known source fails after
    three requests, the other source is unknown; both are marked failed and
    the job returns. *)
Definition offline_job : result RunResult * state unit :=
  @run_job unit offline_env utc_zone latin1_ucd toy_date_parser
    sample_config sample_registry None initial_state.

(** * Vocabulary of the further properties *)

(** The test [filter_hits_by_date] applies to a hit whose date, if any, is
    aware: no date, or an instant not earlier than [now] minus the window. *)
Definition within_window (now : datetime) (last_days : Z) (hit : SearchHit) : bool :=
  match hit_published_at hit with
  | None => true
  | Some published =>
      (utc_instant now - days_us last_days <=? utc_instant published)%Z
  end.

(** The cutoff [now - timedelta(days=w)] is a date of the calendar: the
    window is a [timedelta] and the reading of [now] less the window lies
    within the years 1 to 9999. *)
Definition window_in_calendar (now : datetime) (w : Z) : Prop :=
  (-999999999 <= w <= 999999999)%Z
  /\ (0 <= wall now - days_us w < DATETIME_SPAN)%Z.

#[global] Instance window_in_calendar_dec now w : Decision (window_in_calendar now w).
Proof. unfold window_in_calendar. apply _. Defined.

(** The result pages a trace asks for, in order. *)
Definition page_urls (tr : list event) : list str :=
  omap (fun e => match e with EvSearchPage u => Some u | _ => None end) tr.

(** A computation that asks for no result page. *)
Definition quiet {W A} (m : M W A) : Prop :=
  forall st, page_urls (trace (m st).2) = page_urls (trace st).

(** The hits of a sequence of rounds with a given URL, in the order in
    which the merge meets them. *)
Definition hits_of (url : str) (rounds : list (str * list SearchHit))
  : list SearchHit :=
  filter (fun hit => hit_url hit = url) (flat_map snd rounds).

(** The first non-empty title among hits, or else the title of the first
    hit. *)
Definition first_title (hits : list SearchHit) : option str :=
  match filter (fun t => truthy_opt t = true) (map hit_title hits) with
  | t :: _ => t
  | [] => match hits with
          | hit :: _ => hit_title hit
          | [] => None
          end
  end.

(** The first date among hits. *)
Definition first_published_at (hits : list SearchHit) : option datetime :=
  head (omap hit_published_at hits).

(** The non-empty snippets of hits. *)
Definition truthy_snippets (hits : list SearchHit) : list str :=
  omap (fun hit => match hit_snippet hit with
                   | Some s => if truthy s then Some s else None
                   | None => None
                   end) hits.

(** The keyword and hit pairs of a sequence of rounds, in order. *)
Definition round_pairs (rounds : list (str * list SearchHit))
  : list (str * SearchHit) :=
  flat_map (fun round => map (pair round.1) round.2) rounds.

(** What the merge has recorded for a URL after meeting the hits [hits] of
    that URL, before the final pass over the snippets. *)
Definition summarises (hits : list SearchHit) (entry : option Payload) : Prop :=
  match hits with
  | [] => entry = None
  | _ :: _ =>
      exists payload,
        entry = Some payload
        /\ p_title payload = first_title hits
        /\ p_published_at payload = first_published_at hits
        /\ p_snippets payload = truthy_snippets hits
  end.

(** ** Article records and runs *)

(** A computation that lets no exception of the class [Exception] out. *)
Definition no_Exception_escapes {W A} (m : M W A) : Prop :=
  forall st,
    match (m st).1 with
    | Ok _ => True
    | Raise exc => is_Exception exc = false
    end.

(** What holds of the locals [title], [published_at], [date_unknown],
    [snippets] and [per_article_pdf_path] of [_process_article] as long as
    the PDF has not been printed. *)
Definition locals_invariant (search_title : option str)
    (search_snippets : list str) (vars : article_locals) : Prop :=
  (l_date_unknown vars = true <-> l_published_at vars = None)
  /\ l_pdf_path vars = None
  /\ (l_title vars = search_title \/ truthy_opt (l_title vars) = true)
  /\ match search_snippets with
     | [] => l_snippets vars = []
             \/ exists s, l_snippets vars = [s] /\ s <> []
                          /\ (length s <= 200)%nat
     | _ :: _ => l_snippets vars = search_snippets
     end.

(** What holds of the record that [_process_article] returns for the
    given arguments. *)
Definition record_fields {U : UnicodeData} (media_id0 url0 : str)
    (search_title : option str) (pdf_dir0 run_id0 run_timestamp0 : str)
    (search_snippets : list str) (r : ArticleRecord) : Prop :=
  (run_id r = run_id0 /\ run_timestamp r = run_timestamp0
   /\ media r = media_id0 /\ url r = url0)
  /\ (date_unknown r = true <-> published_at r = None)
  /\ per_article_pdf_path r
     = match status r with
       | StatusOk =>
           Some (pdf_path_of media_id0 pdf_dir0
                   (safe_filename (title_or_url url0 (title r)) DEFAULT_MAX_LEN))
       | _ => None
       end
  /\ (title r = search_title \/ truthy_opt (title r) = true)
  /\ match search_snippets with
     | [] => snippets r = []
             \/ exists s, snippets r = [s] /\ s <> [] /\ (length s <= 200)%nat
     | _ :: _ => snippets r = search_snippets
     end.

(** The title the page at [url] gives to [_process_article] called in
    [st]: what [extract_title] returns once the browser has been sent to
    the page, the page is ready and the cookie banner has been tried; no
    title when one of these steps raises. *)
Definition page_title {W} `{Env W} {U : UnicodeData} (url : str) (st : state W)
  : option str :=
  match (emit (EvDriverGet url) ;;; call (driver_get url)) st with
  | (Raise _, _) => None
  | (Ok _, st1) =>
      match call driver_wait_ready st1 with
      | (Raise _, _) => None
      | (Ok _, st2) =>
          match try_accept_cookies st2 with
          | (Raise _, _) => None
          | (Ok _, st3) =>
              match extract_title st3 with
              | (Raise _, _) => None
              | (Ok detected_title, _) => detected_title
              end
          end
      end
  end.

(** What a trace shows to an observer [f] of single events, and a
    computation that adds nothing to it. *)
Definition observe {X} (f : event -> option X) (tr : list event) : list X :=
  omap f tr.

Definition preserves {X} (f : event -> option X) {W A} (m : M W A) : Prop :=
  forall st, observe f (trace (m st).2) = observe f (trace st).

(** The browser navigations and the rate-limit sleeps. *)
Definition visit_of (e : event) : option event :=
  match e with
  | EvDriverGet _ | EvRateLimit => Some e
  | _ => None
  end.

(** The URLs the browser is sent to. *)
Definition navigation_of (e : event) : option str :=
  match e with
  | EvDriverGet u => Some u
  | _ => None
  end.

(** The error lines of the failed records. *)
Definition failed_errors (records : list ArticleRecord) : list str :=
  flat_map (fun r => match status r with
                     | StatusFailed => errors r
                     | _ => []
                     end) records.

Definition is_failed (r : ArticleRecord) : bool :=
  match status r with StatusFailed => true | _ => false end.

(** The accumulator with which the loop over the results of a media
    starts. *)
Definition fresh_outcome (media_id : str) : media_outcome :=
  {| o_status := {| ms_media := media_id; ms_status := MediaOk; ms_errors := [] |};
     o_records := []; o_pdf_paths := [] |}.

(** Whether a run ended with a result. *)
Definition returned {W A} (run : result A * state W) : bool :=
  match run.1 with Ok _ => true | Raise _ => false end.

(** A run in the paged world, and the run of its one media. *)
Definition paged_job : result RunResult * state nat :=
  @run_job nat paged_env utc_zone latin1_ucd toy_date_parser
    (paged_config 2) sample_registry None {| world := 0%nat; trace := [] |}.

Definition paged_media_run : result media_outcome * state nat :=
  @run_media nat paged_env utc_zone latin1_ucd toy_date_parser
    (paged_config 2) sample_registry (lit "run/pdfs") (lit "run") (lit "now")
    (lit "rtl.lu") {| world := 0%nat; trace := [] |}.

(** * Verification *)

(** ** Dates *)

Lemma timedelta_days_ok (days : Z) :
  (-999999999 <= days <= 999999999)%Z -> timedelta_days days = Ok (days_us days).
Proof.
  intros Hdays. unfold timedelta_days.
  replace (days <? -2147483648)%Z with false by (symmetry; apply Z.ltb_ge; lia).
  replace (2147483647 <? days)%Z with false by (symmetry; apply Z.ltb_ge; lia).
  replace (Z.abs days <=? 999999999)%Z with true by (symmetry; apply Z.leb_le; lia).
  reflexivity.
Qed.

Lemma timedelta_days_overflow (days : Z) :
  ~ (-999999999 <= days <= 999999999)%Z ->
  exists msg, timedelta_days days = Raise (OverflowError msg).
Proof.
  intros Hdays. unfold timedelta_days.
  destruct (_ || _); [eauto|].
  replace (Z.abs days <=? 999999999)%Z with false by (symmetry; apply Z.leb_gt; lia).
  eauto.
Qed.

Lemma timedelta_days_cases (days : Z) :
  timedelta_days days = Ok (days_us days)
  \/ exists msg, timedelta_days days = Raise (OverflowError msg).
Proof.
  destruct (decide (-999999999 <= days <= 999999999)%Z) as [Hdays|Hdays].
  - left. apply timedelta_days_ok, Hdays.
  - right. apply timedelta_days_overflow, Hdays.
Qed.

Lemma datetime_sub_ok (dt : datetime) (delta : Z) :
  (0 <= wall dt - delta < DATETIME_SPAN)%Z ->
  datetime_sub dt delta = Ok {| wall := (wall dt - delta)%Z; tzinfo := tzinfo dt |}.
Proof.
  intros Hrange. unfold datetime_sub, in_datetime_range.
  replace (0 <=? wall dt - delta)%Z with true by (symmetry; apply Z.leb_le; lia).
  replace (wall dt - delta <? DATETIME_SPAN)%Z with true
    by (symmetry; apply Z.ltb_lt; lia).
  reflexivity.
Qed.

Lemma datetime_sub_overflow (dt : datetime) (delta : Z) :
  ~ (0 <= wall dt - delta < DATETIME_SPAN)%Z ->
  datetime_sub dt delta = Raise DATE_OUT_OF_RANGE.
Proof.
  intros Hrange. unfold datetime_sub, in_datetime_range.
  destruct (0 <=? wall dt - delta)%Z eqn:Hlow; [|reflexivity].
  destruct (wall dt - delta <? DATETIME_SPAN)%Z eqn:Hhigh; [|reflexivity].
  apply Z.leb_le in Hlow. apply Z.ltb_lt in Hhigh. lia.
Qed.

(** C4, as amended.  For aware timestamps [t] and [now] (any UTC offsets)
    and a window of [w] days whose cutoff is a date of the calendar, that is
    [w] of magnitude at most 999999999 and the reading of [now] less [w] days
    within the years 1 to 9999, [is_within_last_days] returns, and returns
    [True] exactly when the instant of [t] is not earlier than the instant of
    [now] minus [w] days; a timestamp exactly [w] days before [now] counts
    as recent.  For every other window it raises [OverflowError].  When
    [now] is omitted the clock reading plays its part. *)
Theorem is_within_last_days_iff
    (clock : datetime) (t_wall t_off now_wall now_off w : Z) :
  let t := {| wall := t_wall; tzinfo := Some t_off |} in
  let now := {| wall := now_wall; tzinfo := Some now_off |} in
  ((-999999999 <= w <= 999999999)%Z ->
   (0 <= now_wall - days_us w < DATETIME_SPAN)%Z ->
   (exists b, is_within_last_days clock t w (Some now) = Ok b)
   /\ (is_within_last_days clock t w (Some now) = Ok true
       <-> (utc_instant now - days_us w <= utc_instant t)%Z)
   /\ is_within_last_days clock
        {| wall := (now_wall - days_us w - now_off + t_off)%Z;
           tzinfo := Some t_off |} w (Some now) = Ok true)
  /\ (~ ((-999999999 <= w <= 999999999)%Z
         /\ (0 <= now_wall - days_us w < DATETIME_SPAN)%Z) ->
      exists msg,
        is_within_last_days clock t w (Some now) = Raise (OverflowError msg))
  /\ is_within_last_days now t w None = is_within_last_days clock t w (Some now).
Proof.
  intros t now. split; [|split; [|reflexivity]].
  - intros Hw Hrange. unfold is_within_last_days.
    rewrite (timedelta_days_ok w Hw), (datetime_sub_ok now (days_us w) Hrange).
    unfold datetime_ge, utc_instant. simpl. repeat split.
    + eexists; reflexivity.
    + intros [= H]. apply Z.leb_le in H. lia.
    + intros H. f_equal. apply Z.leb_le. lia.
    + f_equal. apply Z.leb_le. lia.
  - intros Hout. unfold is_within_last_days.
    destruct (decide (-999999999 <= w <= 999999999)%Z) as [Hw|Hw].
    + rewrite (timedelta_days_ok w Hw), datetime_sub_overflow; [eexists; reflexivity|].
      simpl. tauto.
    + destruct (timedelta_days_overflow w Hw) as [msg ->]. eauto.
Qed.

Lemma is_within_last_days_iff_witness :
  is_within_last_days sample_now
    {| wall := (SAMPLE_NOW - days_us 2)%Z; tzinfo := Some timezone_utc |} 2
    (Some sample_now) = Ok true.
Proof.
  assert (Hw : (-999999999 <= 2 <= 999999999)%Z) by lia.
  assert (Hrange : (0 <= SAMPLE_NOW - days_us 2 < DATETIME_SPAN)%Z)
    by (vm_compute; split; [discriminate|reflexivity]).
  destruct (proj1 (@is_within_last_days_iff sample_now
                     (SAMPLE_NOW - days_us 2) timezone_utc SAMPLE_NOW
                     timezone_utc 2) Hw Hrange) as (_ & Hiff & _).
  apply Hiff. vm_compute. discriminate.
Defined.

(** C4 as first stated fails for a window beyond the calendar: a timestamp
    equal to [now] is not earlier than [now] minus a million days, yet the
    call does not return [True]: it raises [OverflowError]. *)
Lemma is_within_last_days_beyond_calendar :
  is_within_last_days sample_now sample_now 1000000 (Some sample_now)
  = Raise (OverflowError (lit "date value out of range"))
  /\ ~ (is_within_last_days sample_now sample_now 1000000 (Some sample_now)
        = Ok true
        <-> (utc_instant sample_now - days_us 1000000
             <= utc_instant sample_now)%Z).
Proof.
  assert (Hraise : is_within_last_days sample_now sample_now 1000000
                     (Some sample_now)
                   = Raise (OverflowError (lit "date value out of range")))
    by (vm_compute; reflexivity).
  split; [exact Hraise|].
  rewrite Hraise. intros [_ Hback].
  assert (Hle : (utc_instant sample_now - days_us 1000000
                 <= utc_instant sample_now)%Z)
    by (vm_compute; discriminate).
  specialize (Hback Hle). discriminate Hback.
Qed.




(** ** The recency filter *)

Section FilterFacts.
Context {W : Type} {E : Env W} {LZ : LocalZone}.

Lemma filter_hits_from_undated now days hits acc filtered :
  filter_hits_from now days hits acc = Ok filtered ->
  filter undated filtered = filter undated acc ++ filter undated hits
  /\ (forall hit, hit ∈ acc -> hit ∈ filtered).
Proof.
  revert acc. induction hits as [|hit rest IH]; intros acc; simpl.
  - intros [= <-]. rewrite app_nil_r. auto.
  - destruct (hit_published_at hit) as [published|] eqn:Hdate.
    + assert (Hskip : filter undated (hit :: rest) = filter undated rest).
      { apply filter_cons_False. unfold undated. congruence. }
      rewrite Hskip.
      destruct (is_within_last_days _ _ _ _) as [[|]|e]; [| |discriminate];
        intros Hrun; destruct (IH _ Hrun) as [Heq Hin]; [|auto].
      split; [|intros h Hh; apply Hin, elem_of_app; auto].
      rewrite Heq, filter_app, filter_cons_False, filter_nil, app_nil_r
        by (unfold undated; congruence).
      reflexivity.
    + intros Hrun. destruct (IH _ Hrun) as [Heq Hin].
      split; [|intros h Hh; apply Hin, elem_of_app; auto].
      rewrite Heq, filter_app, !(filter_cons_True _ hit) by exact Hdate.
      rewrite filter_nil, <- app_assoc. reflexivity.
Qed.

Lemma filter_hits_from_keeps_undated now days hits acc filtered hit :
  filter_hits_from now days hits acc = Ok filtered ->
  hit ∈ hits -> undated hit -> hit ∈ filtered.
Proof.
  intros Hrun Hin Hnone.
  apply filter_hits_from_undated in Hrun as [Heq _].
  assert (Hf : hit ∈ filter undated filtered).
  { rewrite Heq. apply elem_of_app. right. apply list_elem_of_filter. auto. }
  apply list_elem_of_filter in Hf. tauto.
Qed.

Lemma filter_hits_from_total now off days hits acc :
  tzinfo now = Some off ->
  (-999999999 <= days <= 999999999)%Z ->
  (0 <= wall now - days_us days < DATETIME_SPAN)%Z ->
  (forall hit d, hit ∈ hits -> hit_published_at hit = Some d -> is_Some (tzinfo d)) ->
  exists filtered, filter_hits_from now days hits acc = Ok filtered.
Proof.
  intros Hnow Hdays Hrange. revert acc.
  induction hits as [|hit rest IH]; intros acc Haware; simpl.
  - eauto.
  - assert (Hrest : forall h d, h ∈ rest -> hit_published_at h = Some d ->
                                is_Some (tzinfo d)).
    { intros h d Hh. apply Haware. set_solver. }
    destruct (hit_published_at hit) as [published|] eqn:Hdate; [|auto].
    destruct (Haware hit published) as [o Ho]; [set_solver|assumption|].
    unfold is_within_last_days.
    rewrite (timedelta_days_ok days Hdays), (datetime_sub_ok now _ Hrange).
    unfold datetime_ge. simpl.
    rewrite Ho, Hnow. destruct (_ <=? _)%Z; auto.
Qed.

Lemma filter_hits_from_all_undated now days hits acc :
  (forall hit, hit ∈ hits -> hit_published_at hit = None) ->
  filter_hits_from now days hits acc = Ok (acc ++ hits).
Proof.
  revert acc. induction hits as [|hit rest IH]; intros acc Hnone; simpl.
  - rewrite app_nil_r. reflexivity.
  - rewrite (Hnone hit) by (apply elem_of_cons; auto).
    rewrite IH by (intros h Hh; apply Hnone, elem_of_cons; auto).
    rewrite <- app_assoc. reflexivity.
Qed.

(** C5.  Whenever [filter_hits_by_date] returns, every hit without a
    publication date is in its result: the undated hits of the result are
    the undated hits of the input, in the same order and number, whatever
    the window.  A list of undated hits is returned as it is, whatever the
    window.  The filter does return when the dated hits carry aware dates,
    as the dates [parse_date] produces do, and the cutoff is a date of the
    calendar. *)
Theorem filter_hits_by_date_keeps_undated
    (hits : list SearchHit) (last_days : Z) (st : state W) :
  (forall filtered st',
      filter_hits_by_date hits last_days st = (Ok filtered, st') ->
      (forall hit, hit ∈ hits -> hit_published_at hit = None -> hit ∈ filtered)
      /\ filter undated filtered = filter undated hits)
  /\ ((forall hit, hit ∈ hits -> hit_published_at hit = None) ->
      filter_hits_by_date hits last_days st = (Ok hits, st))
  /\ ((forall hit d, hit ∈ hits -> hit_published_at hit = Some d ->
                     is_Some (tzinfo d)) ->
      (-999999999 <= last_days <= 999999999)%Z ->
      (0 <= wall (local_now (world st)) - days_us last_days < DATETIME_SPAN)%Z ->
      exists filtered, filter_hits_by_date hits last_days st = (Ok filtered, st)).
Proof.
  unfold filter_hits_by_date, bind, read, ret, raise. split; [|split].
  - intros filtered st'.
    destruct (filter_hits_from _ _ _ _) as [f|e] eqn:Hrun; [|discriminate].
    intros [= <- <-]. split.
    + intros hit Hin Hnone. eapply filter_hits_from_keeps_undated; eauto.
    + apply filter_hits_from_undated in Hrun as [Heq _]. exact Heq.
  - intros Hnone. rewrite (filter_hits_from_all_undated _ _ _ _ Hnone).
    reflexivity.
  - intros Haware Hdays Hrange.
    destruct (filter_hits_from_total (local_now (world st)) local_utcoffset
                last_days hits [] eq_refl Hdays Hrange Haware) as [f Hf].
    rewrite Hf. eauto.
Qed.

End FilterFacts.

Lemma filter_hits_by_date_keeps_undated_witness :
  exists filtered,
    @filter_hits_by_date unit offline_env utc_zone [old_hit; undated_hit] 2
      initial_state = (Ok filtered, initial_state)
    /\ undated_hit ∈ filtered.
Proof.
  destruct (@filter_hits_by_date_keeps_undated unit offline_env utc_zone
              [old_hit; undated_hit] 2 initial_state) as (Hkeep & _ & Htotal).
  destruct Htotal as [filtered Hrun].
  - intros hit d Hin Hd.
    apply elem_of_cons in Hin as [->|Hin].
    + injection Hd as <-. eexists; reflexivity.
    + apply list_elem_of_singleton in Hin as ->. discriminate.
  - lia.
  - vm_compute. split; [discriminate|reflexivity].
  - exists filtered. split; [exact Hrun|].
    apply (proj1 (Hkeep filtered initial_state Hrun) undated_hit).
    + apply elem_of_cons. right. apply elem_of_cons. left. reflexivity.
    + reflexivity.
Defined.

(** ** Strings *)

Lemma starts_with_spec (prefix s : str) :
  starts_with prefix s = true <-> exists rest, s = prefix ++ rest.
Proof.
  revert s. induction prefix as [|a prefix IH]; intros s; simpl.
  - split; eauto.
  - destruct s as [|b s].
    + split; [discriminate|]. intros [rest Hrest]. discriminate.
    + rewrite andb_true_iff, N.eqb_eq, IH. split.
      * intros [-> [rest ->]]. eauto.
      * intros [rest [= -> ->]]. eauto.
Qed.

(** [needle in haystack] holds exactly when the needle occurs as a
    contiguous block of the haystack. *)
Lemma str_in_spec (needle haystack : str) :
  str_in needle haystack = true
  <-> exists before after, haystack = before ++ needle ++ after.
Proof.
  induction haystack as [|c rest IH]; simpl.
  - rewrite orb_false_r, starts_with_spec. split.
    + intros [after Hafter]. exists [], after. exact Hafter.
    + intros (before & after & Heq).
      destruct before; [eauto|discriminate].
  - rewrite orb_true_iff, starts_with_spec, IH. split.
    + intros [[after Hafter]|(before & after & ->)].
      * exists [], after. exact Hafter.
      * exists (c :: before), after. reflexivity.
    + intros (before & after & Heq). destruct before as [|b before].
      * left. eauto.
      * right. injection Heq as -> ->. eauto.
Qed.

Lemma lstrip_by_suffix drop s : exists dropped, s = dropped ++ lstrip_by drop s.
Proof.
  induction s as [|c rest [dropped IH]]; simpl.
  - exists []. reflexivity.
  - destruct (drop c).
    + exists (c :: dropped). simpl. f_equal. exact IH.
    + exists []. reflexivity.
Qed.

Lemma lstrip_by_Forall (P : N -> Prop) drop s :
  Forall P s -> Forall P (lstrip_by drop s).
Proof.
  induction 1 as [|c rest Hc Hrest IH]; simpl; [constructor|].
  destruct (drop c); [assumption|constructor; assumption].
Qed.

Lemma rstrip_by_Forall (P : N -> Prop) drop s :
  Forall P s -> Forall P (rstrip_by drop s).
Proof.
  induction 1 as [|c rest Hc Hrest IH]; simpl; [constructor|].
  destruct (rstrip_by drop rest).
  - destruct (drop c); constructor; auto.
  - constructor; assumption.
Qed.

Lemma strip_by_Forall (P : N -> Prop) drop s :
  Forall P s -> Forall P (strip_by drop s).
Proof. intros. apply rstrip_by_Forall, lstrip_by_Forall. assumption. Qed.

Lemma lstrip_by_all drop s :
  Forall (fun c => drop c = true) s -> lstrip_by drop s = [].
Proof.
  induction 1 as [|c rest Hc Hrest IH]; simpl; [reflexivity|].
  rewrite Hc. exact IH.
Qed.

(** What is left by [lstrip] is empty or starts with a kept character. *)
Lemma lstrip_by_fixed drop s : lstrip_by drop (lstrip_by drop s) = lstrip_by drop s.
Proof.
  induction s as [|c rest IH]; simpl; [reflexivity|].
  destruct (drop c) eqn:Hc; [exact IH|]. simpl. rewrite Hc. reflexivity.
Qed.

Lemma rstrip_by_fixed drop s : rstrip_by drop (rstrip_by drop s) = rstrip_by drop s.
Proof.
  induction s as [|c rest IH]; simpl; [reflexivity|].
  destruct (rstrip_by drop rest) as [|k kept] eqn:Hkept.
  - destruct (drop c) eqn:Hc; simpl; [reflexivity|]. rewrite Hc. reflexivity.
  - simpl in *. rewrite IH. reflexivity.
Qed.

Lemma rstrip_by_lstrip_fixed drop s :
  lstrip_by drop s = s -> lstrip_by drop (rstrip_by drop s) = rstrip_by drop s.
Proof.
  destruct s as [|c rest]; simpl; [reflexivity|].
  destruct (drop c) eqn:Hc.
  - intros Heq. exfalso.
    destruct (lstrip_by_suffix drop rest) as [dropped Hd].
    apply (f_equal length) in Heq. apply (f_equal length) in Hd.
    rewrite length_app in Hd. simpl in Heq. lia.
  - intros _. destruct (rstrip_by drop rest); simpl; rewrite Hc; reflexivity.
Qed.

Lemma strip_by_fixed drop s : strip_by drop (strip_by drop s) = strip_by drop s.
Proof.
  unfold strip_by.
  rewrite rstrip_by_lstrip_fixed by apply lstrip_by_fixed.
  apply rstrip_by_fixed.
Qed.

(** ** File names *)

Lemma filename_class_spec c :
  filename_class c = true <-> filename_char c \/ c = SPACE.
Proof.
  unfold filename_class, filename_char, SPACE.
  rewrite !orb_true_iff, !andb_true_iff, !N.leb_le, !N.eqb_eq. tauto.
Qed.

Lemma replace_space_filename_char s :
  Forall (fun c => filename_class c = true) s ->
  Forall filename_char (replace_char SPACE HYPHEN s).
Proof.
  induction 1 as [|c rest Hc Hrest IH]; simpl; constructor; [|exact IH].
  apply filename_class_spec in Hc. destruct (N.eqb_spec c SPACE) as [->|Hne].
  - unfold filename_char, HYPHEN. lia.
  - destruct Hc; [assumption|contradiction].
Qed.

Lemma replace_space_all_hyphens s :
  Forall unusable s -> Forall (fun c => filename_class c = true) s ->
  Forall (fun c => (c =? HYPHEN) = true) (replace_char SPACE HYPHEN s).
Proof.
  intros Hun Hcl. induction Hcl as [|c rest Hc Hrest IH]; simpl; constructor.
  - apply Forall_cons in Hun as [[Hbad|[->| ->]] _].
    + congruence.
    + reflexivity.
    + reflexivity.
  - apply IH. apply Forall_cons in Hun. tauto.
Qed.

Section FilenameFacts.
Context {U : UnicodeData}.

(** C10.  With the default bound of 120 characters, [safe_filename]
    returns a non-empty string of at most 120 characters, each a lowercase
    ASCII letter, a digit, a hyphen, an underscore or a dot (never a space);
    a text whose normal form holds nothing but characters outside that class,
    spaces and hyphens is named ["item"]. *)
Theorem safe_filename_default (text : str) :
  let name := safe_filename text DEFAULT_MAX_LEN in
  name <> []
  /\ (length name <= 120)%nat
  /\ Forall filename_char name
  /\ Forall (fun c => c <> SPACE) name
  /\ (Forall unusable (normalize_text text) -> name = lit "item").
Proof.
  intros name. subst name. unfold safe_filename, DEFAULT_MAX_LEN, slice_to.
  change (0 <=? 120)%Z with true. cbv iota.
  set (kept := filter (fun c => filename_class c = true) (normalize_text text)).
  set (stripped := strip_by (fun c => c =? HYPHEN) (replace_char SPACE HYPHEN kept)).
  assert (Hkept : Forall (fun c => filename_class c = true) kept).
  { apply Forall_forall. intros c Hc. apply list_elem_of_filter in Hc. tauto. }
  assert (Hstripped : Forall filename_char stripped).
  { apply strip_by_Forall, replace_space_filename_char, Hkept. }
  assert (Hitem : Forall filename_char (lit "item")).
  { unfold filename_char. repeat constructor; simpl; lia. }
  assert (Hchars : Forall filename_char (if truthy stripped then stripped else lit "item")).
  { destruct (truthy stripped); assumption. }
  assert (Hname : Forall filename_char
            (take (Z.to_nat 120) (if truthy stripped then stripped else lit "item"))).
  { apply Forall_take, Hchars. }
  repeat split.
  - destruct stripped as [|c rest]; simpl; discriminate.
  - rewrite length_take. lia.
  - exact Hname.
  - eapply Forall_impl; [exact Hname|].
    intros c Hc ->. unfold filename_char, SPACE in Hc. lia.
  - intros Hun.
    assert (Hnone : stripped = []).
    { unfold stripped, strip_by. rewrite lstrip_by_all; [reflexivity|].
      apply replace_space_all_hyphens; [|exact Hkept].
      apply Forall_forall. intros c Hc. apply list_elem_of_filter in Hc.
      rewrite Forall_forall in Hun. apply Hun. tauto. }
    rewrite Hnone. reflexivity.
Qed.

(** ** Keyword matching *)

(** The keyword test keeps a configured keyword exactly when its normal
    form occurs as a contiguous block of the normal form of the body. *)
Lemma match_keywords_spec (kws : list str) (body kw : str) :
  kw ∈ match_keywords kws body
  <-> kw ∈ kws
      /\ exists before after,
           normalize_text body = before ++ normalize_text kw ++ after.
Proof.
  unfold match_keywords. rewrite list_elem_of_filter, str_in_spec. tauto.
Qed.

End FilenameFacts.

Lemma safe_filename_default_witness :
  @safe_filename latin1_ucd (lit "?? !") DEFAULT_MAX_LEN = lit "item".
Proof.
  apply (@safe_filename_default latin1_ucd (lit "?? !")).
  replace (@normalize_text latin1_ucd (lit "?? !")) with [63; 63; 32; 33]
    by (vm_compute; reflexivity).
  unfold unusable.
  repeat (apply Forall_cons; split); try (left; reflexivity);
    try (right; left; reflexivity).
Defined.

(** The substring test is not a whole-word test: ["BCL"] is found inside
    ["abclx"]. *)
Example match_keywords_inside_word :
  @match_keywords latin1_ucd [lit "BCL"; lit "CSSF"] (lit "Les ABCLx de la Cssf-x")
  = [lit "BCL"; lit "CSSF"].
Proof. vm_compute. reflexivity. Qed.

(** ** Normalisation *)

Section NormalizeFacts.
Context {U : UnicodeData}.

Lemma reorder_insert_starters c l :
  combining c <> 0 ->
  filter (fun ch => combining ch = 0) (reorder_insert c l)
  = filter (fun ch => combining ch = 0) l.
Proof.
  intros Hc. induction l as [|d l IH]; simpl.
  - rewrite filter_cons_False by exact Hc. reflexivity.
  - destruct (_ && _) eqn:Hcmp.
    + apply andb_true_iff in Hcmp as [Hd _]. apply N.ltb_lt in Hd.
      rewrite !(filter_cons_False _ d) by lia. exact IH.
    + rewrite (filter_cons_False _ c) by exact Hc. reflexivity.
Qed.

(** Canonical reordering moves marks only: the starters stay as they are. *)
Lemma canonical_order_starters l :
  filter (fun ch => combining ch = 0) (canonical_order l)
  = filter (fun ch => combining ch = 0) l.
Proof.
  induction l as [|c l IH]; simpl; [reflexivity|].
  destruct (N.eqb_spec (combining c) 0) as [Hc|Hc].
  - rewrite !(filter_cons_True _ c) by exact Hc. f_equal. exact IH.
  - rewrite reorder_insert_starters by exact Hc.
    rewrite (filter_cons_False _ c) by exact Hc. exact IH.
Qed.

Lemma canonical_order_stable l : Forall stable l -> canonical_order l = l.
Proof.
  induction 1 as [|c l (_ & Hc & _) Hl IH]; simpl; [reflexivity|].
  rewrite Hc. simpl. f_equal. exact IH.
Qed.

Lemma flat_map_decomposition_stable l :
  Forall stable l -> flat_map decomposition l = l.
Proof.
  induction 1 as [|c l (Hc & _) Hl IH]; simpl; [reflexivity|].
  rewrite Hc, IH. reflexivity.
Qed.

Lemma filter_starters_stable l :
  Forall stable l -> filter (fun ch => combining ch = 0) l = l.
Proof.
  induction 1 as [|c l (_ & Hc & _) Hl IH]; simpl; [reflexivity|].
  rewrite filter_cons_True by exact Hc. f_equal. exact IH.
Qed.

Lemma lower_from_stable_id before l : Forall stable l -> lower_from before l = l.
Proof.
  intros Hl. revert before.
  induction Hl as [|c l (_ & _ & Hlow & Hsigma) Hl IH]; intros before; simpl;
    [reflexivity|].
  destruct (N.eqb_spec c CAPITAL_SIGMA) as [Heq|_]; [contradiction|].
  rewrite Hlow, IH. reflexivity.
Qed.

Section Laws.
Context {L : UnicodeLaws}.

Lemma decomposed_starters text :
  Forall (fun c => combining c = 0 /\ decomposition c = [c])
         (filter (fun ch => combining ch = 0) (nfkd text)).
Proof.
  unfold nfkd. rewrite canonical_order_starters.
  apply Forall_forall. intros d Hd.
  apply list_elem_of_filter in Hd as [Hstarter Hd]. split; [exact Hstarter|].
  apply list_elem_of_In, in_flat_map in Hd as (c & _ & Hd).
  apply (decomposition_full c). apply list_elem_of_In. exact Hd.
Qed.

Lemma lower_from_stable before l :
  Forall (fun c => combining c = 0 /\ decomposition c = [c]) l ->
  Forall stable (lower_from before l).
Proof.
  intros Hl. revert before.
  induction Hl as [|c l [Hstarter Hdec] Hl IH]; intros before; simpl;
    [constructor|].
  apply Forall_app. split; [|apply IH].
  destruct (N.eqb_spec c CAPITAL_SIGMA) as [Heq|Hne].
  - unfold handle_capital_sigma.
    destruct (_ && _); constructor; try constructor; apply sigma_stable.
  - apply lower_closed; assumption.
Qed.

Lemma sub_whitespace_stable in_run l :
  Forall stable l -> Forall stable (sub_whitespace in_run l).
Proof.
  intros Hl. revert in_run.
  induction Hl as [|c l Hc Hl IH]; intros in_run; simpl; [constructor|].
  destruct (isspace c).
  - destruct in_run; [apply IH|].
    constructor; [apply space_stable|apply IH].
  - constructor; [exact Hc|apply IH].
Qed.

Lemma single_spaced_weaken s :
  single_spaced true s = true -> single_spaced false s = true.
Proof.
  destruct s as [|c rest]; simpl; [reflexivity|].
  destruct (isspace c); [|auto]. rewrite andb_false_r. discriminate.
Qed.

Lemma sub_whitespace_single_spaced in_run s :
  single_spaced in_run (sub_whitespace in_run s) = true.
Proof.
  revert in_run.
  induction s as [|c rest IH]; intros in_run; cbn [sub_whitespace];
    [reflexivity|].
  destruct (isspace c) eqn:Hc.
  - destruct in_run; [apply IH|]. cbn [single_spaced].
    rewrite (proj2 space_stable), N.eqb_refl, IH. reflexivity.
  - cbn [single_spaced]. rewrite Hc. apply IH.
Qed.

Lemma sub_whitespace_fixed in_run s :
  single_spaced in_run s = true -> sub_whitespace in_run s = s.
Proof.
  revert in_run. induction s as [|c rest IH]; intros in_run; simpl; [reflexivity|].
  destruct (isspace c).
  - rewrite !andb_true_iff, N.eqb_eq, negb_true_iff.
    intros [[-> ->] Hrest]. f_equal. apply IH. exact Hrest.
  - intros Hrest. f_equal. apply IH. exact Hrest.
Qed.

Lemma lstrip_single_spaced s :
  single_spaced false s = true -> single_spaced false (lstrip_by isspace s) = true.
Proof.
  induction s as [|c rest IH]; simpl; [reflexivity|].
  destruct (isspace c) eqn:Hc.
  - rewrite !andb_true_iff. intros [_ Hrest].
    apply IH, single_spaced_weaken, Hrest.
  - intros Hrest. simpl. rewrite Hc. exact Hrest.
Qed.

Lemma rstrip_single_spaced after_space s :
  single_spaced after_space s = true ->
  single_spaced after_space (rstrip_by isspace s) = true.
Proof.
  revert after_space. induction s as [|c rest IH]; intros after_space; simpl;
    [reflexivity|].
  destruct (isspace c) eqn:Hc.
  - rewrite !andb_true_iff. intros [[Hsp Hafter] Hrest].
    specialize (IH true Hrest).
    destruct (rstrip_by isspace rest) as [|k kept]; [reflexivity|].
    simpl in *. rewrite Hc, Hsp, Hafter. exact IH.
  - intros Hrest. specialize (IH false Hrest).
    destruct (rstrip_by isspace rest) as [|k kept]; simpl in *; rewrite Hc;
      [reflexivity|exact IH].
Qed.

(** Collapsing and trimming white space a second time changes nothing. *)
Lemma strip_sub_whitespace_fixed s :
  let t := strip (sub_whitespace false s) in
  strip (sub_whitespace false t) = t.
Proof.
  intros t. subst t. unfold strip.
  rewrite (sub_whitespace_fixed false (strip_by isspace _)).
  - apply strip_by_fixed.
  - unfold strip_by. apply rstrip_single_spaced, lstrip_single_spaced.
    apply sub_whitespace_single_spaced.
Qed.

Lemma normalize_text_stable text : Forall stable (normalize_text text).
Proof.
  unfold normalize_text, strip, lower.
  apply strip_by_Forall, sub_whitespace_stable, lower_from_stable.
  apply decomposed_starters.
Qed.

Lemma normalize_text_idem text :
  normalize_text (normalize_text text) = normalize_text text.
Proof.
  pose proof (normalize_text_stable text) as Hst.
  unfold normalize_text at 1. unfold nfkd, lower.
  rewrite flat_map_decomposition_stable, canonical_order_stable,
    filter_starters_stable, lower_from_stable_id by exact Hst.
  unfold normalize_text. apply strip_sub_whitespace_fixed.
Qed.

End Laws.
End NormalizeFacts.

Section AccentFolding.
Context {U : UnicodeData} {L : UnicodeLaws}.

Lemma lowercase_ascii_stable s :
  Forall (fun c => 97 <= c <= 122) s -> Forall stable s.
Proof.
  intros Hs. eapply Forall_impl; [exact Hs|]. intros c Hc. simpl in Hc.
  destruct (ascii_lower c Hc) as (Hd & Hst & Hl & _).
  unfold stable, CAPITAL_SIGMA. repeat split; try assumption. lia.
Qed.

Lemma lowercase_ascii_no_space in_run s :
  Forall (fun c => 97 <= c <= 122) s -> sub_whitespace in_run s = s.
Proof.
  intros Hs. revert in_run.
  induction Hs as [|c s Hc Hs IH]; intros in_run; simpl; [reflexivity|].
  destruct (ascii_lower c Hc) as (_ & _ & _ & ->). f_equal. apply IH.
Qed.

Lemma lowercase_ascii_strip s :
  Forall (fun c => 97 <= c <= 122) s -> strip s = s.
Proof.
  intros Hs. unfold strip, strip_by.
  assert (Hl : lstrip_by isspace s = s).
  { destruct Hs as [|c s Hc Hs]; simpl; [reflexivity|].
    destruct (ascii_lower c Hc) as (_ & _ & _ & ->). reflexivity. }
  rewrite Hl. clear Hl.
  induction Hs as [|c s Hc Hs IH]; simpl; [reflexivity|].
  rewrite IH. destruct (ascii_lower c Hc) as (_ & _ & _ & ->).
  destruct s; reflexivity.
Qed.

(** A string of lowercase ASCII letters is its own normal form. *)
Lemma normalize_text_lowercase_ascii s :
  Forall (fun c => 97 <= c <= 122) s -> normalize_text s = s.
Proof.
  intros Hs. pose proof (lowercase_ascii_stable s Hs) as Hst.
  unfold normalize_text, nfkd, lower.
  rewrite flat_map_decomposition_stable, canonical_order_stable,
    filter_starters_stable, lower_from_stable_id by exact Hst.
  rewrite lowercase_ascii_no_space by exact Hs.
  apply lowercase_ascii_strip, Hs.
Qed.

Lemma decomposition_upper c : 65 <= c <= 90 -> decomposition c = [c].
Proof. intros H. apply ascii_upper, H. Qed.

Lemma combining_upper c : 65 <= c <= 90 -> combining c = 0.
Proof. intros H. apply ascii_upper, H. Qed.

Lemma tolower_upper c : 65 <= c <= 90 -> tolower_full c = [c + 32].
Proof. intros H. apply ascii_upper, H. Qed.

Ltac ascii_letters lem :=
  rewrite ?(lem 65), ?(lem 67), ?(lem 69), ?(lem 70), ?(lem 73), ?(lem 78),
    ?(lem 82) by lia.

Lemma lower_starters_FINANCIERE :
  lower (filter (fun ch => combining ch = 0) (nfkd FINANCIERE_UPPER))
  = lit "financiere".
Proof.
  unfold nfkd, FINANCIERE_UPPER. cbn [flat_map app].
  ascii_letters decomposition_upper. rewrite (proj1 e_grave). cbn [app].
  rewrite canonical_order_starters.
  assert (Hgrave : combining 0x300 <> 0) by (rewrite (proj2 e_grave); discriminate).
  repeat first
    [ rewrite filter_cons_True by (apply combining_upper; lia)
    | rewrite filter_cons_False by exact Hgrave ].
  rewrite filter_nil.
  unfold lower. cbn [lower_from].
  ascii_letters tolower_upper. reflexivity.
Qed.

(** Upper case and the grave accent fold away. *)
Lemma normalize_text_FINANCIERE :
  normalize_text FINANCIERE_UPPER = lit "financiere"
  /\ normalize_text (lit "financiere") = lit "financiere".
Proof.
  assert (Hlow : Forall (fun c => 97 <= c <= 122) (lit "financiere")).
  { repeat constructor; simpl; lia. }
  split; [|apply normalize_text_lowercase_ascii, Hlow].
  unfold normalize_text. rewrite lower_starters_FINANCIERE.
  rewrite lowercase_ascii_no_space by exact Hlow.
  apply lowercase_ascii_strip, Hlow.
Qed.

End AccentFolding.

(** ** The Latin-1 fragment satisfies the laws *)

Lemma all_below_spec P n :
  all_below P n = true -> forall c, c < N.of_nat n -> P c = true.
Proof.
  induction n as [|k IH]; simpl; intros Hall c Hc; [lia|].
  apply andb_true_iff in Hall as [Hk Hall].
  destruct (N.eq_dec c (N.of_nat k)) as [->|Hne]; [exact Hk|].
  apply IH; [exact Hall|lia].
Qed.

Lemma assoc_Some_key {A} c (table : list (N * A)) v :
  assoc c table = Some v -> c ∈ table.*1.
Proof.
  induction table as [|[k w] rest IH]; simpl; [discriminate|].
  destruct (N.eqb_spec k c) as [->|Hne].
  - intros _. apply elem_of_cons. left. reflexivity.
  - intros H. apply elem_of_cons. right. apply IH, H.
Qed.

Lemma latin1_decomposition_outside c : 256 <= c -> latin1_decomposition c = [c].
Proof.
  intros Hc. unfold latin1_decomposition.
  destruct (assoc c LATIN1_DECOMPOSITIONS) as [v|] eqn:Hv; [|reflexivity].
  apply assoc_Some_key in Hv. exfalso.
  assert (Hkeys : Forall (fun k => k < 256) LATIN1_DECOMPOSITIONS.*1).
  { apply (bool_decide_unpack _). vm_compute. exact I. }
  rewrite Forall_forall in Hkeys. specialize (Hkeys c Hv). lia.
Qed.

Lemma latin1_stable_b_spec c :
  latin1_stable_b c = true -> @stable latin1_ucd c.
Proof.
  unfold latin1_stable_b, stable. simpl.
  rewrite !andb_true_iff, !bool_decide_eq_true, N.eqb_eq, negb_true_iff, N.eqb_neq.
  tauto.
Qed.

Lemma latin1_stable_outside c :
  1024 <= c -> @stable latin1_ucd c.
Proof.
  intros Hc. unfold stable, CAPITAL_SIGMA. simpl. repeat split.
  - apply latin1_decomposition_outside. lia.
  - unfold latin1_combining.
    destruct (N.ltb_spec c 0x370); [lia|]. rewrite andb_false_r. reflexivity.
  - unfold latin1_tolower, latin1_upper.
    destruct (N.leb_spec c 90); [lia|]. destruct (N.leb_spec c 0xDE); [lia|].
    rewrite !andb_false_r. reflexivity.
  - lia.
Qed.

Lemma latin1_decomposition_full c d :
  d ∈ latin1_decomposition c -> latin1_decomposition d = [d].
Proof.
  destruct (N.lt_ge_cases c 256) as [Hc|Hc].
  - assert (Hcheck : all_below
      (fun c => forallb (fun d => bool_decide (latin1_decomposition d = [d]))
                        (latin1_decomposition c)) 256 = true)
      by (vm_compute; reflexivity).
    pose proof (all_below_spec _ _ Hcheck c Hc) as Hall.
    rewrite forallb_forall in Hall. intros Hd.
    apply list_elem_of_In, Hall, bool_decide_eq_true in Hd. exact Hd.
  - rewrite (latin1_decomposition_outside c Hc).
    intros Hd. apply list_elem_of_singleton in Hd as ->.
    apply latin1_decomposition_outside, Hc.
Qed.

Lemma latin1_lower_closed c :
  latin1_combining c = 0 -> latin1_decomposition c = [c] -> c <> CAPITAL_SIGMA ->
  Forall (@stable latin1_ucd) (latin1_tolower c).
Proof.
  intros Hstarter Hdec Hsigma.
  destruct (N.lt_ge_cases c 1024) as [Hc|Hc].
  - assert (Hcheck : all_below
      (fun c => implb ((latin1_combining c =? 0)
                       && bool_decide (latin1_decomposition c = [c])
                       && negb (c =? CAPITAL_SIGMA))
                      (forallb latin1_stable_b (latin1_tolower c))) 1024 = true)
      by (vm_compute; reflexivity).
    pose proof (all_below_spec _ _ Hcheck c Hc) as Hall. simpl in Hall.
    rewrite (proj2 (N.eqb_eq _ _) Hstarter) in Hall.
    rewrite (bool_decide_eq_true_2 _ Hdec) in Hall.
    rewrite (proj2 (N.eqb_neq _ _) Hsigma) in Hall. simpl in Hall.
    rewrite forallb_forall in Hall.
    apply Forall_forall. intros d Hd.
    apply latin1_stable_b_spec, Hall, list_elem_of_In, Hd.
  - assert (Hlow : latin1_tolower c = [c]) by apply (latin1_stable_outside c Hc).
    rewrite Hlow. constructor; [|constructor]. apply latin1_stable_outside, Hc.
Qed.

Lemma latin1_laws : @UnicodeLaws latin1_ucd.
Proof.
  split.
  - exact latin1_decomposition_full.
  - exact latin1_lower_closed.
  - split; apply latin1_stable_b_spec; vm_compute; reflexivity.
  - split; [apply latin1_stable_b_spec|]; vm_compute; reflexivity.
  - intros c Hc.
    assert (Hcheck : all_below
      (fun c => implb ((65 <=? c) && (c <=? 90))
                  (bool_decide (latin1_decomposition c = [c])
                   && (latin1_combining c =? 0)
                   && bool_decide (latin1_tolower c = [c + 32]))) 128 = true)
      by (vm_compute; reflexivity).
    pose proof (all_below_spec _ _ Hcheck c ltac:(lia)) as Hall. simpl in Hall.
    rewrite (proj2 (N.leb_le 65 c)), (proj2 (N.leb_le c 90)) in Hall by lia.
    simpl in Hall.
    rewrite !andb_true_iff, !bool_decide_eq_true, N.eqb_eq in Hall. simpl. tauto.
  - intros c Hc.
    assert (Hcheck : all_below
      (fun c => implb ((97 <=? c) && (c <=? 122))
                  (bool_decide (latin1_decomposition c = [c])
                   && (latin1_combining c =? 0)
                   && bool_decide (latin1_tolower c = [c])
                   && negb (existsb (N.eqb c) WHITESPACE))) 128 = true)
      by (vm_compute; reflexivity).
    pose proof (all_below_spec _ _ Hcheck c ltac:(lia)) as Hall. simpl in Hall.
    rewrite (proj2 (N.leb_le 97 c)), (proj2 (N.leb_le c 122)) in Hall by lia.
    simpl in Hall.
    rewrite !andb_true_iff, !bool_decide_eq_true, N.eqb_eq, negb_true_iff in Hall.
    simpl. tauto.
  - split; vm_compute; reflexivity.
Qed.

(** C7.  Over any character database that satisfies [UnicodeLaws],
    [normalize_text], a total function on code-point sequences, is
    idempotent, and it folds case and accents: ["FINANCIÈRE"] and
    ["financiere"] have the same normal form. *)
Theorem normalize_text_idempotent {U : UnicodeData} (L : UnicodeLaws) :
  (forall text, normalize_text (normalize_text text) = normalize_text text)
  /\ normalize_text FINANCIERE_UPPER = normalize_text (lit "financiere").
Proof.
  split.
  - apply normalize_text_idem.
  - destruct normalize_text_FINANCIERE as [-> ->]. reflexivity.
Qed.

Lemma normalize_text_idempotent_witness :
  (forall text,
      @normalize_text latin1_ucd (@normalize_text latin1_ucd text)
      = @normalize_text latin1_ucd text)
  /\ @normalize_text latin1_ucd FINANCIERE_UPPER
     = @normalize_text latin1_ucd (lit "financiere").
Proof. exact (@normalize_text_idempotent latin1_ucd latin1_laws). Defined.

Example normalize_text_bnp :
  @normalize_text latin1_ucd (lit " BNP   PARIBAS ") = lit "bnp paribas".
Proof. vm_compute. reflexivity. Qed.

(** ** The cross-keyword merge *)

Lemma dict_get_Some_key key d :
  is_Some (dict_get key d) <-> key ∈ d.*1.
Proof.
  induction d as [|[k v] d IH]; simpl.
  - split; [intros [? [=]]|intros H; inversion H].
  - destruct (decide (k = key)) as [->|Hne].
    + split; [intros _; apply elem_of_cons; auto|eauto].
    + rewrite IH, elem_of_cons. split; [auto|]. intros [Heq|H]; [congruence|exact H].
Qed.

Lemma setdefault_keys key default f d url :
  url ∈ (dict_setdefault_then key default f d).*1 <-> url = key \/ url ∈ d.*1.
Proof.
  induction d as [|[k v] d IH]; simpl.
  - rewrite list_elem_of_singleton. split; [auto|]. intros [H|H]; [exact H|inversion H].
  - destruct (decide (k = key)) as [->|Hne]; simpl.
    + rewrite elem_of_cons. tauto.
    + rewrite !elem_of_cons, IH. tauto.
Qed.

Lemma setdefault_NoDup key default f d :
  NoDup d.*1 -> NoDup (dict_setdefault_then key default f d).*1.
Proof.
  induction d as [|[k v] d IH]; simpl; intros Hd.
  - apply NoDup_singleton.
  - apply NoDup_cons in Hd as [Hk Hd].
    destruct (decide (k = key)) as [->|Hne]; simpl.
    + apply NoDup_cons. auto.
    + apply NoDup_cons. split; [|auto].
      rewrite setdefault_keys. intros [Heq|H]; [congruence|contradiction].
Qed.

Lemma setdefault_get key default f d url :
  dict_get url (dict_setdefault_then key default f d)
  = if decide (url = key)
    then Some (f (match dict_get key d with Some v => v | None => default end))
    else dict_get url d.
Proof.
  induction d as [|[k v] d IH]; simpl.
  - destruct (decide (key = url)), (decide (url = key)); congruence.
  - destruct (decide (k = key)) as [->|Hne]; simpl.
    + destruct (decide (key = url)), (decide (url = key)); congruence.
    + destruct (decide (k = url)) as [->|Hne'].
      * destruct (decide (url = key)); congruence.
      * exact IH.
Qed.

Lemma update_payload_keywords keyword hit payload :
  p_keywords (update_payload keyword hit payload) = {[keyword]} ∪ p_keywords payload.
Proof.
  unfold update_payload. simpl.
  destruct (hit_snippet hit) as [s|]; [destruct (truthy s)|]; simpl;
    destruct (_ && _); simpl;
    destruct (hit_published_at hit); simpl;
    try destruct (p_published_at payload); reflexivity.
Qed.

Lemma merge_hit_keywords keyword d hit url kw :
  kw ∈ keywords_of url (merge_hit keyword d hit)
  <-> (kw = keyword /\ hit_url hit = url) \/ kw ∈ keywords_of url d.
Proof.
  unfold keywords_of, merge_hit. rewrite setdefault_get.
  destruct (decide (url = hit_url hit)) as [->|Hne].
  - rewrite update_payload_keywords.
    destruct (dict_get (hit_url hit) d); simpl;
      rewrite elem_of_union, elem_of_singleton; tauto.
  - split; [auto|]. intros [[_ Heq]|H]; [congruence|exact H].
Qed.

Lemma merge_hit_keys keyword d hit url :
  url ∈ (merge_hit keyword d hit).*1 <-> hit_url hit = url \/ url ∈ d.*1.
Proof.
  unfold merge_hit. rewrite setdefault_keys. intuition congruence.
Qed.

Lemma merge_keyword_hits_keywords keyword hits d url kw :
  kw ∈ keywords_of url (merge_keyword_hits keyword hits d)
  <-> (kw = keyword /\ exists hit, hit ∈ hits /\ hit_url hit = url)
      \/ kw ∈ keywords_of url d.
Proof.
  unfold merge_keyword_hits. revert d.
  induction hits as [|hit hits IH]; intros d; simpl.
  - split; [auto|]. intros [(_ & hit & Hin & _)|H]; [inversion Hin|exact H].
  - rewrite IH, merge_hit_keywords. split.
    + intros [(-> & h & Hh & Hu)|[[-> Hu]|H]].
      * left. split; [reflexivity|]. exists h. rewrite elem_of_cons. auto.
      * left. split; [reflexivity|]. exists hit. rewrite elem_of_cons. auto.
      * auto.
    + intros [(-> & h & Hh & Hu)|H]; [|auto].
      apply elem_of_cons in Hh as [->|Hh]; [auto|].
      left. eauto.
Qed.

Lemma merge_keyword_hits_keys keyword hits d url :
  url ∈ (merge_keyword_hits keyword hits d).*1
  <-> (exists hit, hit ∈ hits /\ hit_url hit = url) \/ url ∈ d.*1.
Proof.
  unfold merge_keyword_hits. revert d.
  induction hits as [|hit hits IH]; intros d; simpl.
  - split; [auto|]. intros [(hit & Hin & _)|H]; [inversion Hin|exact H].
  - rewrite IH, merge_hit_keys. split.
    + intros [(h & Hh & Hu)|[Hu|H]].
      * left. exists h. rewrite elem_of_cons. auto.
      * left. exists hit. rewrite elem_of_cons. auto.
      * auto.
    + intros [(h & Hh & Hu)|H]; [|auto].
      apply elem_of_cons in Hh as [->|Hh]; [auto|]. left. eauto.
Qed.

Lemma merge_keyword_hits_NoDup keyword hits d :
  NoDup d.*1 -> NoDup (merge_keyword_hits keyword hits d).*1.
Proof.
  unfold merge_keyword_hits. revert d.
  induction hits as [|hit hits IH]; intros d Hd; simpl; [exact Hd|].
  apply IH. unfold merge_hit. apply setdefault_NoDup, Hd.
Qed.

Lemma merge_from_keywords rounds d url kw :
  kw ∈ keywords_of url (merge_from d rounds)
  <-> (exists hits hit, (kw, hits) ∈ rounds /\ hit ∈ hits /\ hit_url hit = url)
      \/ kw ∈ keywords_of url d.
Proof.
  unfold merge_from. revert d.
  induction rounds as [|[k hs] rounds IH]; intros d; simpl.
  - split; [auto|]. intros [(hits & hit & Hin & _)|H]; [inversion Hin|exact H].
  - rewrite IH, merge_keyword_hits_keywords. split.
    + intros [(hits & hit & Hin & Hh)|[(-> & hit & Hh)|H]].
      * left. exists hits, hit. rewrite elem_of_cons. tauto.
      * left. exists hs, hit. rewrite elem_of_cons. tauto.
      * auto.
    + intros [(hits & hit & Hin & Hh)|H]; [|auto].
      apply elem_of_cons in Hin as [[= -> ->]|Hin]; [eauto 6|].
      left. eauto.
Qed.

Lemma merge_from_keys rounds d url :
  url ∈ (merge_from d rounds).*1
  <-> (exists kw hits hit, (kw, hits) ∈ rounds /\ hit ∈ hits /\ hit_url hit = url)
      \/ url ∈ d.*1.
Proof.
  unfold merge_from. revert d.
  induction rounds as [|[k hs] rounds IH]; intros d; simpl.
  - split; [auto|]. intros [(kw & hits & hit & Hin & _)|H]; [inversion Hin|exact H].
  - rewrite IH, merge_keyword_hits_keys. split.
    + intros [(kw & hits & hit & Hin & Hh)|[(hit & Hh)|H]].
      * left. exists kw, hits, hit. rewrite elem_of_cons. tauto.
      * left. exists k, hs, hit. rewrite elem_of_cons. tauto.
      * auto.
    + intros [(kw & hits & hit & Hin & Hh)|H]; [|auto].
      apply elem_of_cons in Hin as [[= -> ->]|Hin]; [eauto 6|].
      left. eauto 6.
Qed.

Lemma merge_from_NoDup rounds d : NoDup d.*1 -> NoDup (merge_from d rounds).*1.
Proof.
  unfold merge_from. revert d.
  induction rounds as [|[k hs] rounds IH]; intros d Hd; simpl; [exact Hd|].
  apply IH, merge_keyword_hits_NoDup, Hd.
Qed.

Lemma dedup_snippets_keys d : (dedup_snippets d).*1 = d.*1.
Proof.
  unfold dedup_snippets. induction d as [|[k v] d IH]; simpl; [reflexivity|].
  f_equal. exact IH.
Qed.

Lemma dedup_snippets_keywords url d :
  keywords_of url (dedup_snippets d) = keywords_of url d.
Proof.
  unfold keywords_of, dedup_snippets.
  induction d as [|[k v] d IH]; simpl; [reflexivity|].
  destruct (decide (k = url)); [reflexivity|exact IH].
Qed.

Lemma keywords_of_get url d payload :
  dict_get url d = Some payload -> keywords_of url d = p_keywords payload.
Proof. unfold keywords_of. intros ->. reflexivity. Qed.

Lemma round_urls_spec rounds url :
  url ∈ round_urls rounds
  <-> exists kw hits hit, (kw, hits) ∈ rounds /\ hit ∈ hits /\ hit_url hit = url.
Proof.
  unfold round_urls. rewrite list_elem_of_In, in_flat_map. split.
  - intros ([kw hits] & Hround & Hurl). simpl in Hurl.
    apply in_map_iff in Hurl as (hit & Hu & Hh).
    exists kw, hits, hit. rewrite !list_elem_of_In. auto.
  - intros (kw & hits & hit & Hround & Hh & Hu).
    exists (kw, hits). rewrite <- list_elem_of_In. split; [exact Hround|].
    simpl. apply in_map_iff. exists hit. rewrite <- list_elem_of_In. auto.
Qed.

(** The merge over any sequence of keyword rounds: unique keys, which are
    the URLs of the hits; keyword sets as unions; independence of the order
    of the rounds. *)
Lemma merge_rounds_spec (rounds : list (str * list SearchHit)) :
  NoDup (merge_rounds rounds).*1
  /\ (forall url, url ∈ (merge_rounds rounds).*1 <-> url ∈ round_urls rounds)
  /\ length (merge_rounds rounds)
     = size (list_to_set (round_urls rounds) : gset str)
  /\ (forall url payload,
        dict_get url (merge_rounds rounds) = Some payload ->
        forall kw, kw ∈ p_keywords payload
                   <-> exists hits hit,
                         (kw, hits) ∈ rounds /\ hit ∈ hits /\ hit_url hit = url)
  /\ (forall rounds' url,
        rounds ≡ₚ rounds' ->
        p_keywords <$> dict_get url (merge_rounds rounds)
        = p_keywords <$> dict_get url (merge_rounds rounds')).
Proof.
  assert (Hkeys : forall rs url, url ∈ (merge_rounds rs).*1 <-> url ∈ round_urls rs).
  { intros rs url. unfold merge_rounds. rewrite dedup_snippets_keys.
    change (foldl _ [] rs) with (merge_from [] rs).
    rewrite merge_from_keys, round_urls_spec. split; [|auto].
    intros [H|H]; [exact H|inversion H]. }
  assert (Hnodup : forall rs, NoDup (merge_rounds rs).*1).
  { intros rs. unfold merge_rounds. rewrite dedup_snippets_keys.
    apply (merge_from_NoDup rs []). constructor. }
  assert (Hkw : forall rs url kw,
    kw ∈ keywords_of url (merge_rounds rs)
    <-> exists hits hit, (kw, hits) ∈ rs /\ hit ∈ hits /\ hit_url hit = url).
  { intros rs url kw. unfold merge_rounds. rewrite dedup_snippets_keywords.
    change (foldl _ [] rs) with (merge_from [] rs).
    rewrite merge_from_keywords. split; [|auto].
    intros [H|H]; [exact H|]. unfold keywords_of in H. simpl in H.
    apply elem_of_empty in H. contradiction. }
  split; [apply Hnodup|]. split; [apply Hkeys|]. split; [|split].
  - rewrite <- (length_fmap fst).
    rewrite <- (size_list_to_set (C := gset str)) by apply Hnodup.
    f_equal. apply set_eq. intros url.
    rewrite !elem_of_list_to_set. apply Hkeys.
  - intros url payload Hget kw.
    rewrite <- (keywords_of_get _ _ _ Hget). apply Hkw.
  - intros rounds' url Hperm.
    assert (Hsame : keywords_of url (merge_rounds rounds)
                    = keywords_of url (merge_rounds rounds')).
    { apply set_eq. intros kw. rewrite !Hkw.
      split; intros (hits & hit & Hin & Hh); exists hits, hit;
        (split; [|exact Hh]); [rewrite <- Hperm|rewrite Hperm]; exact Hin. }
    assert (Hdom : is_Some (dict_get url (merge_rounds rounds))
                   <-> is_Some (dict_get url (merge_rounds rounds'))).
    { rewrite !dict_get_Some_key, !Hkeys, !round_urls_spec.
      split; intros (kw & hits & hit & Hin & Hh); exists kw, hits, hit;
        (split; [|exact Hh]); [rewrite <- Hperm|rewrite Hperm]; exact Hin. }
    unfold keywords_of in Hsame.
    destruct (dict_get url (merge_rounds rounds)) as [p|] eqn:Hp,
             (dict_get url (merge_rounds rounds')) as [p'|] eqn:Hp'; simpl.
    + f_equal. exact Hsame.
    + destruct (proj1 Hdom) as [? [=]]. eauto.
    + destruct (proj2 Hdom) as [? [=]]. eauto.
    + reflexivity.
Qed.

(** ** Article records *)

Section RecordFacts.
Context {W : Type} {E : Env W} {LZ : LocalZone} {U : UnicodeData} {DP : DateParser}.
Variable config : RunConfig.
Variable MEDIA_REGISTRY : str -> option MediaDefinition.

Lemma article_failed_invariant media_id url run_id run_timestamp vars exc st r st' :
  article_failed config media_id url run_id run_timestamp vars exc st = (Ok r, st') ->
  record_invariant r.
Proof.
  unfold article_failed, bind.
  destruct ((if pause_on_error config then _pause else ret tt) st)
    as [[[]|e] st1]; [|discriminate].
  destruct (_format_error_artifacts _ _ _ st1) as [[artifacts|e] st2];
    [|discriminate].
  unfold ret. intros [= <- <-]. unfold record_invariant, record_of. simpl.
  split; [discriminate|reflexivity].
Qed.

Lemma guarded_invariant {A} media_id url run_id run_timestamp vars
    (m : M W A) (k : A -> M W ArticleRecord) st r st' :
  (forall a st1, k a st1 = (Ok r, st') -> record_invariant r) ->
  guarded config media_id url run_id run_timestamp vars m k st = (Ok r, st') ->
  record_invariant r.
Proof.
  intros Hk. unfold guarded. destruct (m st) as [[a|e] st1].
  - apply Hk.
  - destruct (is_Exception e); [|discriminate].
    apply article_failed_invariant.
Qed.

(** C2.  Every record that [_process_article] returns satisfies the
    invariant: with status ok the PDF path is present and some keyword
    matched (and there is no error); with status skipped no keyword is
    recorded and the error list is the single message "No keyword match found
    in visible text." (and there is no PDF path); with status failed the
    error list is not empty (and no keyword is recorded). *)
Theorem process_article_invariant
    (media_id url : str) (kws : list str) (search_title : option str)
    (search_date : option datetime) (pdf_dir run_id run_timestamp : str)
    (snippets : list str) (st st' : state W) (r : ArticleRecord) :
  _process_article config MEDIA_REGISTRY media_id url kws search_title
    search_date pdf_dir run_id run_timestamp snippets st = (Ok r, st') ->
  (status r = StatusOk ->
     is_Some (per_article_pdf_path r) /\ matched_keywords r <> [])
  /\ (status r = StatusSkipped ->
        matched_keywords r = [] /\ length (errors r) = 1%nat)
  /\ (status r = StatusFailed -> errors r <> [])
  /\ record_invariant r.
Proof.
  intros Hrun.
  assert (Hinv : record_invariant r).
  { revert Hrun. unfold _process_article.
    repeat (apply guarded_invariant; intros ? ?).
    destruct (match_keywords kws _) as [|kw matched] eqn:Hmatch.
    - unfold ret. intros [= <- <-]. unfold record_invariant, record_of. simpl.
      split; [reflexivity|]. split; [reflexivity|].
      repeat case_match; reflexivity.
    - apply guarded_invariant. intros ? ?.
      unfold ret. intros [= <- <-]. unfold record_invariant, record_of. simpl.
      split; [eauto|]. split; [discriminate|reflexivity]. }
  split; [|split; [|split]]; [| | |exact Hinv];
    unfold record_invariant in Hinv; intros Hst; rewrite Hst in Hinv.
  - tauto.
  - destruct Hinv as (Hm & -> & _). auto.
  - tauto.
Qed.

End RecordFacts.

Lemma process_article_invariant_witness :
  exists r st',
    sample_article_run = (Ok r, st')
    /\ status r = StatusOk
    /\ is_Some (per_article_pdf_path r) /\ matched_keywords r <> [].
Proof.
  destruct sample_article_run as [[r|e] st'] eqn:Hrun;
    [|vm_compute in Hrun; discriminate].
  exists r, st'. split; [reflexivity|].
  pose proof Hrun as Hrun'. unfold sample_article_run in Hrun'.
  destruct (@process_article_invariant unit offline_env utc_zone latin1_ucd
              toy_date_parser sample_config sample_registry _ _ _ _ _ _ _ _ _
              _ _ _ Hrun') as (Hok & _).
  assert (Hst : status r = StatusOk).
  { vm_compute in Hrun. injection Hrun as <- _. reflexivity. }
  split; [exact Hst|]. apply Hok, Hst.
Defined.

(** ** Traces *)

Lemma page_fetches_app tr tr' :
  page_fetches (tr ++ tr') = (page_fetches tr + page_fetches tr')%nat.
Proof. unfold page_fetches. rewrite filter_app, length_app. reflexivity. Qed.

Lemma page_fetches_snoc tr e :
  page_fetches (tr ++ [e])
  = (page_fetches tr + if is_search_page e then 1 else 0)%nat.
Proof.
  rewrite page_fetches_app. f_equal. unfold page_fetches.
  destruct (is_search_page e) eqn:He.
  - rewrite filter_cons_True by exact He. reflexivity.
  - rewrite filter_cons_False by congruence. reflexivity.
Qed.

Section Silent.
Context {W : Type}.

Lemma silent_ret {A} (a : A) : silent (ret (W := W) a).
Proof. intros st. reflexivity. Qed.

Lemma silent_raise {A} e : silent (raise (W := W) (A := A) e).
Proof. intros st. reflexivity. Qed.

Lemma silent_call {A} (op : W -> result A * W) : silent (call op).
Proof. intros st. unfold call. destruct (op (world st)). reflexivity. Qed.

Lemma silent_read {A} (f : W -> A) : silent (read f).
Proof. intros st. reflexivity. Qed.

Lemma silent_emit e : is_search_page e = false -> silent (emit (W := W) e).
Proof.
  intros He st. unfold emit. simpl. rewrite page_fetches_snoc, He. lia.
Qed.

Lemma silent_bind {A B} (m : M W A) (k : A -> M W B) :
  silent m -> (forall a, silent (k a)) -> silent (bind m k).
Proof.
  intros Hm Hk st. unfold bind. specialize (Hm st).
  destruct (m st) as [[a|e] st1]; simpl in *.
  - rewrite (Hk a st1). exact Hm.
  - exact Hm.
Qed.

Lemma silent_try_except {A} (body : M W A) catches handler :
  silent body -> (forall e, silent (handler e)) ->
  silent (try_except body catches handler).
Proof.
  intros Hb Hh st. unfold try_except. specialize (Hb st).
  destruct (body st) as [[a|e] st1]; simpl in *; [exact Hb|].
  destruct (catches e); simpl; [|exact Hb].
  rewrite (Hh e st1). exact Hb.
Qed.

End Silent.

Ltac silent_step :=
  first [ apply silent_bind; [|intros ?]
        | apply silent_try_except; [|intros ?]
        | apply silent_ret | apply silent_raise | apply silent_call
        | apply silent_read
        | apply silent_emit; reflexivity ].

(** ** The search loop *)

Section LoopFacts.
Context {W : Type} {E : Env W} {LZ : LocalZone}.
Variable config : RunConfig.
Variable definition : MediaDefinition.

Lemma silent_filter_hits_by_date hits days :
  silent (filter_hits_by_date (W := W) hits days).
Proof.
  unfold filter_hits_by_date. silent_step; [silent_step|].
  destruct (filter_hits_from _ _ _ _); silent_step.
Qed.

Lemma silent_fetch_search_page url : silent (fetch_search_page config url).
Proof.
  unfold fetch_search_page. generalize (seqZ 1 3).
  intros attempts. induction attempts as [|attempt rest IH]; simpl.
  - silent_step.
  - silent_step.
    + unfold fetch_attempt. repeat silent_step.
    + destruct a; [silent_step|exact IH].
Qed.

Section GenericLoop.
Variable fetch : str -> M W str.
Variable after_new_hits : M W unit.
Variable days : Z.
Hypothesis fetch_silent : forall url, silent (fetch url).
Hypothesis after_new_hits_silent : silent after_new_hits.

Abbreviation loop_body := (search_page config definition fetch after_new_hits days).
Abbreviation loop := (search_loop config definition fetch after_new_hits days).

(** Each pass through the loop body requests exactly one page, however it
    ends. *)
Lemma search_page_one_fetch url urls pages_seen seen_urls hits st :
  page_fetches (trace (loop_body url urls pages_seen seen_urls hits st).2)
  = S (page_fetches (trace st)).
Proof.
  unfold search_page.
  set (k := fun html : str => _).
  assert (Hk : forall html, silent (k html)).
  { intros html. subst k. cbv beta. silent_step; [apply silent_filter_hits_by_date|].
    destruct (bool_decide _); [silent_step|].
    silent_step; [exact after_new_hits_silent|].
    destruct (_ <=? _)%Z; [silent_step|].
    destruct (negb _).
    - destruct (_ <=? _)%Z; [silent_step|].
      destruct (detect_next_page _ _); [|silent_step].
      destruct (_ && _); repeat silent_step.
    - repeat silent_step. }
  unfold bind at 1. unfold emit at 1. cbv beta iota.
  set (st1 := {| world := world st; trace := trace st ++ [EvSearchPage url] |}).
  assert (Hrest : silent (bind (fetch url) k)).
  { apply silent_bind; [apply fetch_silent|exact Hk]. }
  rewrite (Hrest st1). subst st1. simpl. rewrite page_fetches_snoc. simpl. lia.
Qed.

(** What a pass that lets the loop go on has established. *)
Lemma search_page_continue url urls pages_seen seen_urls hits st
    urls' pages_seen' seen_urls' hits' st' :
  loop_body url urls pages_seen seen_urls hits st
    = (Ok (Continue urls' pages_seen' seen_urls' hits'), st') ->
  pages_seen' = {[url]} ∪ pages_seen
  /\ (Z.of_nat (length hits') < max_results config)%Z
  /\ ((has_page_placeholder definition = true /\ urls' = urls)
      \/ (has_page_placeholder definition = false
          /\ (Z.of_nat (size pages_seen') < max_pages config)%Z
          /\ exists next_url, urls' = urls ++ [next_url]
                              /\ next_url ∉ pages_seen')).
Proof.
  unfold search_page, bind, emit, ret.
  destruct (fetch url _) as [[html|e] st1]; [|discriminate].
  destruct (filter_hits_by_date _ _ st1) as [[page_hits|e] st2]; [|discriminate].
  destruct (bool_decide _); [discriminate|].
  destruct (after_new_hits st2) as [[[]|e] st3]; [|discriminate].
  destruct (_ <=? _)%Z eqn:Hmax; [discriminate|]. apply Z.leb_gt in Hmax.
  destruct (has_page_placeholder definition) eqn:Hph; simpl.
  - intros [= <- <- <- <- <-]. auto.
  - destruct (_ <=? _)%Z eqn:Hpages; [discriminate|]. apply Z.leb_gt in Hpages.
    destruct (detect_next_page html url) as [next_url|]; [|discriminate].
    destruct (truthy next_url); simpl; [|discriminate].
    destruct (bool_decide (next_url ∈ _)) eqn:Hseen; simpl; [discriminate|].
    apply bool_decide_eq_false in Hseen.
    intros [= <- <- <- <- <-]. split; [reflexivity|]. split; [exact Hmax|].
    right. split; [reflexivity|]. split; [exact Hpages|]. eauto.
Qed.

Ltac one_fetch :=
  match goal with
  | Hp : search_page _ _ _ _ _ ?u ?us ?ps ?su ?hs ?s = _ |- _ =>
      pose proof (search_page_one_fetch u us ps su hs s) as Hone;
      rewrite Hp in Hone; cbn [snd] in Hone
  end.

Lemma search_loop_fetches urls pages_seen seen_urls hits st :
  (page_fetches (trace (loop urls pages_seen seen_urls hits st).2)
   <= page_fetches (trace st) + page_budget config definition urls pages_seen)%nat.
Proof.
  funelim (loop urls pages_seen seen_urls hits st).
  - simpl. lia.
  - etransitivity; [eassumption|].
    apply Nat.add_le_mono_l. unfold page_budget.
    destruct (has_page_placeholder definition); simpl; [lia|].
    destruct urls; lia.
  - one_fetch. cbn [snd]. rewrite Hone. unfold page_budget.
    destruct (has_page_placeholder definition); cbn [length]; lia.
  - one_fetch. etransitivity; [eassumption|]. rewrite Hone.
    match goal with
    | Hp : search_page _ _ _ _ _ _ _ _ _ _ _ = _ |- _ =>
        destruct (search_page_continue _ _ _ _ _ _ _ _ _ _ _ Hp)
          as (Hseen & _ & Hmode)
    end.
    rewrite Hseen in *.
    match goal with
    | |- context [page_budget _ _ (?u :: _) ?ps] =>
        assert (Hsize : size ({[u]} ∪ ps) = S (size ps))
          by (rewrite size_union by (apply disjoint_singleton_l; assumption);
              rewrite size_singleton; reflexivity)
    end.
    unfold page_budget.
    destruct Hmode as [[-> ->]|(-> & Hpages & next_url & -> & _)].
    + simpl. lia.
    + rewrite Hsize in *. destruct (urls ++ [next_url]) eqn:Hq.
      * destruct urls; discriminate.
      * lia.
  - one_fetch. cbn [snd]. rewrite Hone. unfold page_budget.
    destruct (has_page_placeholder definition); cbn [length]; lia.
Qed.

End GenericLoop.
End LoopFacts.

Section StopConditions.
Context {W : Type} {E : Env W} {LZ : LocalZone}.
Variable config : RunConfig.
Variable definition : MediaDefinition.
Variable fetch : str -> M W str.
Variable after_new_hits : M W unit.
Variable days : Z.

Abbreviation loop_body' := (search_page config definition fetch after_new_hits days).
Abbreviation loop' := (search_loop config definition fetch after_new_hits days).

(** After a page has been fetched and filtered, the loop body applies the
    stop conditions in that order. *)
Lemma search_page_stop_conditions url urls pages_seen seen_urls hits st
    html st1 page_hits st2 :
  fetch url {| world := world st; trace := trace st ++ [EvSearchPage url] |}
    = (Ok html, st1) ->
  filter_hits_by_date (parse_search_results definition html url) days st1
    = (Ok page_hits, st2) ->
  let new_hits := filter (fun hit => hit_url hit ∉ seen_urls) page_hits in
  let seen_urls' :=
    foldl (fun seen hit => {[hit_url hit]} ∪ seen) seen_urls new_hits in
  let hits' := hits ++ new_hits in
  let pages_seen' := {[url]} ∪ pages_seen in
  (new_hits = [] ->
     loop_body' url urls pages_seen seen_urls hits st = (Ok (Break hits'), st2))
  /\ (new_hits <> [] -> forall st3, after_new_hits st2 = (Ok tt, st3) ->
        loop_body' url urls pages_seen seen_urls hits st
        = if spec_stops config definition new_hits hits' pages_seen'
               (detect_next_page html url)
          then (Ok (Break hits'), st3)
          else (Ok (Continue
                      (if has_page_placeholder definition then urls
                       else urls ++ option_list (detect_next_page html url))
                      pages_seen' seen_urls' hits'),
                {| world := world st3; trace := trace st3 ++ [EvRateLimit] |})).
Proof.
  intros Hfetch Hfilter new_hits seen_urls' hits' pages_seen'.
  unfold search_page, spec_stops, bind, emit, ret. cbv beta iota.
  rewrite Hfetch. cbv beta iota. rewrite Hfilter. cbv beta iota.
  fold new_hits. fold hits'. fold pages_seen'. fold seen_urls'.
  split.
  - intros Hnone. rewrite bool_decide_eq_true_2 by exact Hnone. reflexivity.
  - intros Hsome st3 Hhook. rewrite bool_decide_eq_false_2 by exact Hsome.
    cbv beta iota. rewrite Hhook. cbv beta iota.
    destruct (_ <=? _)%Z; [reflexivity|].
    destruct (has_page_placeholder definition); simpl; [reflexivity|].
    destruct (_ <=? _)%Z; [reflexivity|].
    destruct (detect_next_page html url) as [next_url|]; [|reflexivity].
    destruct (truthy next_url); simpl; [|reflexivity].
    destruct (bool_decide (next_url ∈ pages_seen')); reflexivity.
Qed.

(** The loop skips a URL already visited, ends with the hits of a pass that
    stops, and goes on after a pass that does not. *)
Lemma search_loop_steps url urls pages_seen seen_urls hits st :
  (url ∈ pages_seen ->
     loop' (url :: urls) pages_seen seen_urls hits st
     = loop' urls pages_seen seen_urls hits st)
  /\ (url ∉ pages_seen ->
      loop' (url :: urls) pages_seen seen_urls hits st
      = match loop_body' url urls pages_seen seen_urls hits st with
        | (Raise e, st') => (Raise e, st')
        | (Ok (Break hits'), st') => (Ok hits', st')
        | (Ok (Continue urls' pages_seen' seen_urls' hits'), st') =>
            loop' urls' pages_seen' seen_urls' hits' st'
        end).
Proof.
  split; intros Hseen; simp search_loop;
    destruct (decide (url ∈ pages_seen)) as [Hin|Hout]; try contradiction;
    simpl.
  - reflexivity.
  - generalize (inspect (loop_body' url urls pages_seen seen_urls hits st)).
    intros [[[[h|us ps su h]|e] st'] Heq]; simpl; rewrite Heq; reflexivity.
Qed.

End StopConditions.

Section SearchBound.
Context {W : Type} {E : Env W} {LZ : LocalZone}.
Variable config : RunConfig.
Variable definition : MediaDefinition.

Lemma silent_pause : silent (_pause (W := W)).
Proof. unfold _pause. repeat silent_step. Qed.

Lemma silent_selenium_fetch url : silent (selenium_fetch config definition url).
Proof.
  unfold selenium_fetch, try_accept_cookies, dump_page.
  repeat silent_step. destruct (debug config); silent_step.
Qed.

Lemma page_budget_initial keyword :
  (page_budget config definition (build_search_urls config definition keyword) ∅
   <= Nat.max 1 (Z.to_nat (max_pages config)))%nat.
Proof.
  unfold page_budget, build_search_urls.
  destruct (has_page_placeholder definition).
  - rewrite length_map, length_seqZ. lia.
  - rewrite size_empty, Z.sub_0_r. reflexivity.
Qed.

Lemma search_with_fetches fetch after_new_hits days keyword st :
  (forall url, silent (fetch url)) -> silent after_new_hits ->
  (page_fetches
     (trace (search_with config definition fetch after_new_hits days keyword st).2)
   <= page_fetches (trace st) + Nat.max 1 (Z.to_nat (max_pages config)))%nat.
Proof.
  intros Hfetch Hhook. unfold search_with.
  etransitivity; [apply search_loop_fetches; assumption|].
  apply Nat.add_le_mono_l, page_budget_initial.
Qed.

(** C3.  The search for one keyword, through [requests] ([search]) or
    through the browser ([_search_with_selenium]), is a total function (its
    loop recurses on a measure that every pass decreases) and requests at
    most [max(1, max_pages)] pages, hence at most [max_pages + 1] for a
    bound that is not negative, whatever the pages contain and however the
    run ends.  After each page the stop conditions apply in order: no new
    hit stops the loop; then [max_results] accumulated hits stop it; then,
    for a template without page placeholder, [max_pages] visited pages, a
    missing next page or an already visited next page stop it; otherwise the
    loop goes on, with the next page queued in that case. *)
Theorem search_halts_within_max_pages (keyword : str) (days : Z) (st : state W) :
  ((page_fetches (trace (search config definition keyword days st).2)
    <= page_fetches (trace st) + Nat.max 1 (Z.to_nat (max_pages config)))%nat
   /\ (page_fetches
         (trace (_search_with_selenium config definition keyword days st).2)
       <= page_fetches (trace st) + Nat.max 1 (Z.to_nat (max_pages config)))%nat)
  /\ ((0 <= max_pages config)%Z ->
      (Z.of_nat (page_fetches (trace (search config definition keyword days st).2))
       <= Z.of_nat (page_fetches (trace st)) + (max_pages config + 1))%Z
      /\ (Z.of_nat (page_fetches
            (trace (_search_with_selenium config definition keyword days st).2))
          <= Z.of_nat (page_fetches (trace st)) + (max_pages config + 1))%Z)
  /\ (forall fetch after_new_hits url urls pages_seen seen_urls hits st0
             html st1 page_hits st2,
        fetch url {| world := world st0; trace := trace st0 ++ [EvSearchPage url] |}
          = (Ok html, st1) ->
        filter_hits_by_date (parse_search_results definition html url) days st1
          = (Ok page_hits, st2) ->
        let new_hits := filter (fun hit => hit_url hit ∉ seen_urls) page_hits in
        let seen_urls' :=
          foldl (fun seen hit => {[hit_url hit]} ∪ seen) seen_urls new_hits in
        let hits' := hits ++ new_hits in
        let pages_seen' := {[url]} ∪ pages_seen in
        (new_hits = [] ->
           search_page config definition fetch after_new_hits days
             url urls pages_seen seen_urls hits st0 = (Ok (Break hits'), st2))
        /\ (new_hits <> [] -> forall st3, after_new_hits st2 = (Ok tt, st3) ->
              search_page config definition fetch after_new_hits days
                url urls pages_seen seen_urls hits st0
              = if spec_stops config definition new_hits hits' pages_seen'
                     (detect_next_page html url)
                then (Ok (Break hits'), st3)
                else (Ok (Continue
                            (if has_page_placeholder definition then urls
                             else urls ++ option_list (detect_next_page html url))
                            pages_seen' seen_urls' hits'),
                      {| world := world st3;
                         trace := trace st3 ++ [EvRateLimit] |})))
  /\ (forall fetch after_new_hits url urls pages_seen seen_urls hits st0,
        url ∉ pages_seen ->
        search_loop config definition fetch after_new_hits days
          (url :: urls) pages_seen seen_urls hits st0
        = match search_page config definition fetch after_new_hits days
                  url urls pages_seen seen_urls hits st0 with
          | (Raise e, st') => (Raise e, st')
          | (Ok (Break hits'), st') => (Ok hits', st')
          | (Ok (Continue urls' pages_seen' seen_urls' hits'), st') =>
              search_loop config definition fetch after_new_hits days
                urls' pages_seen' seen_urls' hits' st'
          end).
Proof.
  assert (Hsearch :
    (page_fetches (trace (search config definition keyword days st).2)
     <= page_fetches (trace st) + Nat.max 1 (Z.to_nat (max_pages config)))%nat).
  { unfold search. apply search_with_fetches.
    - apply silent_fetch_search_page.
    - apply silent_ret. }
  assert (Hselenium :
    (page_fetches
       (trace (_search_with_selenium config definition keyword days st).2)
     <= page_fetches (trace st) + Nat.max 1 (Z.to_nat (max_pages config)))%nat).
  { unfold _search_with_selenium. apply search_with_fetches.
    - apply silent_selenium_fetch.
    - destruct (pause config); [apply silent_pause|apply silent_ret]. }
  split; [split; assumption|]. split; [intros Hpages; split; lia|]. split.
  - intros fetch after_new_hits url urls pages_seen seen_urls hits st0
      html st1 page_hits st2 Hfetch Hfilter.
    exact (search_page_stop_conditions config definition fetch after_new_hits
             days url urls pages_seen seen_urls hits st0 html st1 page_hits st2
             Hfetch Hfilter).
  - intros fetch after_new_hits url urls pages_seen seen_urls hits st0.
    apply search_loop_steps.
Qed.

End SearchBound.

Lemma search_halts_within_max_pages_witness :
  (Z.of_nat (page_fetches (trace
     (@search nat paged_env utc_zone (paged_config 2) linked_source
        (lit "BCL") 2 {| world := 0%nat; trace := [] |}).2))
   <= 0 + (2 + 1))%Z.
Proof.
  apply (@search_halts_within_max_pages nat paged_env utc_zone (paged_config 2)
           linked_source (lit "BCL") 2 {| world := 0%nat; trace := [] |}).
  simpl. lia.
Defined.

(** Without page placeholder the loop follows next-page links for
    [max_pages] pages, and fetches one page even when [max_pages] is [0];
    with a placeholder it fetches the [max_pages] numbered pages. *)
Example paged_search_runs :
  paged_search 0 linked_source = (1, 1)%nat
  /\ paged_search 3 linked_source = (3, 3)%nat
  /\ paged_search 0 numbered_source = (0, 0)%nat
  /\ paged_search 3 numbered_source = (3, 3)%nat.
Proof. vm_compute. auto. Qed.

(** [RunConfig.max_pages] is an [int]: below zero the loop still fetches
    the first page of a template without placeholder. *)
Example paged_search_negative_bound :
  paged_search (-2) linked_source = (1, 1)%nat.
Proof. vm_compute. reflexivity. Qed.

(** ** Fetch retries and source-level failures *)

Lemma http_gets_snoc tr e :
  http_gets (tr ++ [e]) = (http_gets tr + if is_http_get e then 1 else 0)%nat.
Proof.
  unfold http_gets. rewrite filter_app, length_app. f_equal.
  destruct (is_http_get e) eqn:He.
  - rewrite filter_cons_True by exact He. reflexivity.
  - rewrite filter_cons_False by congruence. reflexivity.
Qed.

Section FetchFacts.
Context {W : Type} {E : Env W} {LZ : LocalZone}.
Variable config : RunConfig.

Lemma fetch_attempt_failure url attempt st msg w' :
  requests_get url (_user_agent config) (world st)
    = (Raise (RequestException msg), w') ->
  fetch_attempt config url attempt st
  = (Ok None, {| world := w';
                 trace := trace st ++ [EvHttpGet url; EvSleep (2 ^ attempt)] |}).
Proof.
  intros Hget. unfold fetch_attempt, try_except, bind, emit, call, ret. simpl.
  rewrite Hget. simpl. rewrite <- app_assoc. reflexivity.
Qed.

(** One attempt, by what the request does. *)
Lemma fetch_attempt_outcome url attempt st :
  fetch_attempt config url attempt st
  = match requests_get url (_user_agent config) (world st) with
    | (Ok text, w') =>
        (Ok (Some text), {| world := w'; trace := trace st ++ [EvHttpGet url] |})
    | (Raise exc, w') =>
        if is_RequestException exc
        then (Ok None,
              {| world := w';
                 trace := trace st ++ [EvHttpGet url; EvSleep (2 ^ attempt)] |})
        else (Raise exc,
              {| world := w'; trace := trace st ++ [EvHttpGet url] |})
    end.
Proof.
  unfold fetch_attempt, try_except, bind, emit, call, ret. simpl.
  destruct (requests_get url (_user_agent config) (world st)) as [[text|exc] w'];
    simpl; [reflexivity|].
  destruct (is_RequestException exc); simpl; [|reflexivity].
  rewrite <- app_assoc. reflexivity.
Qed.

Lemma fetch_attempt_gets url attempt st :
  http_gets (trace (fetch_attempt config url attempt st).2)
  = S (http_gets (trace st)).
Proof.
  unfold fetch_attempt, try_except, bind, emit, call, ret. simpl.
  destruct (requests_get _ _ _) as [[text|e] w']; simpl.
  - rewrite http_gets_snoc. simpl. lia.
  - destruct (is_RequestException e); simpl;
      rewrite ?http_gets_snoc; simpl; rewrite ?http_gets_snoc; simpl; lia.
Qed.

Lemma fetch_attempts_gets url attempts st :
  (http_gets (trace (fetch_attempts config url attempts st).2)
   <= http_gets (trace st) + length attempts)%nat.
Proof.
  revert st. induction attempts as [|attempt rest IH]; intros st; simpl.
  - lia.
  - unfold bind. pose proof (fetch_attempt_gets url attempt st) as Hone.
    destruct (fetch_attempt config url attempt st) as [[[text|]|e] st1];
      simpl in *; try lia.
    specialize (IH st1). lia.
Qed.

Lemma fetch_search_page_failure url st w3 :
  three_failures config url (world st) w3 ->
  fetch_search_page config url st
  = (Raise (FETCH_FAILED url),
     {| world := w3; trace := trace st ++ three_attempts url |}).
Proof.
  intros (m1 & w1 & m2 & w2 & m3 & H1 & H2 & H3).
  unfold fetch_search_page. change (seqZ 1 3) with [1; 2; 3]%Z.
  cbn [fetch_attempts]. unfold bind at 1.
  rewrite (fetch_attempt_failure url 1 st m1 w1 H1).
  unfold bind at 1.
  rewrite (fetch_attempt_failure url 2 {| world := w1; trace := _ |} m2 w2 H2).
  unfold bind at 1.
  rewrite (fetch_attempt_failure url 3 {| world := w2; trace := _ |} m3 w3 H3).
  unfold raise, FETCH_FAILED, three_attempts. simpl.
  rewrite <- !app_assoc. reflexivity.
Qed.

End FetchFacts.

(** *** A third failure ends the run where it happens *)

Section Loud.
Context {W : Type}.

Lemma fails_loudly_at_refl {A} (st : state W) (r : result A) :
  fails_loudly_at st (r, st).
Proof.
  exists []. split; [symmetry; apply app_nil_r|]. intros Hin. inversion Hin.
Qed.

Lemma fails_loudly_at_trans {A B} (st st1 : state W) (a : A)
    (run : result B * state W) :
  fails_loudly_at st (Ok a, st1) -> fails_loudly_at st1 run ->
  fails_loudly_at st run.
Proof.
  intros (new1 & Htrace1 & Hquiet) (new2 & Htrace2 & Hloud).
  cbn [fst snd] in *.
  exists (new1 ++ new2). split; [rewrite Htrace2, Htrace1, app_assoc; reflexivity|].
  intros Hin. apply elem_of_app in Hin as [Hin|Hin].
  - destruct (Hquiet Hin) as (url & before & Hraise & _). discriminate.
  - destruct (Hloud Hin) as (url & before & Hraise & ->).
    exists url, (new1 ++ before). split; [exact Hraise|].
    rewrite app_assoc. reflexivity.
Qed.

Lemma fails_loudly_at_raised {A B} (st st1 : state W) (exc : exn) :
  fails_loudly_at (A := A) st (Raise exc, st1) ->
  fails_loudly_at (A := B) st (Raise exc, st1).
Proof.
  intros (new & Htrace & Hloud). exists new. split; [exact Htrace|].
  intros Hin. destruct (Hloud Hin) as (url & before & [= ->] & ->). eauto.
Qed.

Lemma fails_loudly_ret {A} (a : A) : fails_loudly (ret (W := W) a).
Proof. intros st. apply fails_loudly_at_refl. Qed.

Lemma fails_loudly_raise {A} exc : fails_loudly (raise (W := W) (A := A) exc).
Proof. intros st. apply fails_loudly_at_refl. Qed.

Lemma fails_loudly_read {A} (f : W -> A) : fails_loudly (read f).
Proof. intros st. apply fails_loudly_at_refl. Qed.

Lemma fails_loudly_emit e : e <> THIRD_BACKOFF -> fails_loudly (emit (W := W) e).
Proof.
  intros He st. exists [e]. split; [reflexivity|].
  intros Hin. apply list_elem_of_singleton in Hin. congruence.
Qed.

Lemma fails_loudly_bind {A B} (m : M W A) (k : A -> M W B) :
  fails_loudly m -> (forall a, fails_loudly (k a)) -> fails_loudly (bind m k).
Proof.
  intros Hm Hk st. unfold bind. specialize (Hm st).
  destruct (m st) as [[a|exc] st1].
  - exact (fails_loudly_at_trans st st1 a _ Hm (Hk a st1)).
  - apply (fails_loudly_at_raised (A := A)). exact Hm.
Qed.

End Loud.

Ltac loud_step :=
  first [ apply fails_loudly_bind; [|intros ?]
        | apply fails_loudly_ret | apply fails_loudly_raise
        | apply fails_loudly_read
        | apply fails_loudly_emit; discriminate ].

Section LoudSearch.
Context {W : Type} {E : Env W} {LZ : LocalZone}.
Variable config : RunConfig.
Variable definition : MediaDefinition.

Lemma fails_loudly_fetch_search_page url :
  fails_loudly (fetch_search_page config url).
Proof.
  intros st. unfold fetch_search_page. change (seqZ 1 3) with [1; 2; 3]%Z.
  assert (Hquiet : forall tail : list event,
             THIRD_BACKOFF ∈ tail ->
             Forall (fun e => e = EvHttpGet url \/ e = EvSleep 2 \/ e = EvSleep 4)
                    tail -> False).
  { intros tail Hin Hall. rewrite Forall_forall in Hall.
    destruct (Hall _ Hin) as [H|[H|H]]; discriminate H. }
  assert (Hshort : forall (r : result str) w tail,
             Forall (fun e => e = EvHttpGet url \/ e = EvSleep 2 \/ e = EvSleep 4)
                    tail ->
             fails_loudly_at st (r, {| world := w; trace := trace st ++ tail |})).
  { intros r w tail Hall. exists tail. split; [reflexivity|].
    intros Hin. exfalso. exact (Hquiet tail Hin Hall). }
  cbn [fetch_attempts]. unfold bind at 1. rewrite fetch_attempt_outcome.
  destruct (requests_get url (_user_agent config) (world st)) as [[text|e1] w1].
  { apply Hshort. repeat (apply List.Forall_cons; [vm_compute; auto|]). constructor. }
  destruct (is_RequestException e1); [|apply Hshort; repeat (apply List.Forall_cons; [vm_compute; auto|]); constructor].
  unfold bind at 1. rewrite fetch_attempt_outcome. cbn [world trace].
  destruct (requests_get url (_user_agent config) w1) as [[text|e2] w2].
  { unfold ret. rewrite <- app_assoc. apply Hshort. simpl. repeat (apply List.Forall_cons; [vm_compute; auto|]). constructor. }
  destruct (is_RequestException e2);
    [|rewrite <- app_assoc; apply Hshort; simpl;
     repeat (apply List.Forall_cons; [vm_compute; auto|]); constructor].
  unfold bind at 1. rewrite fetch_attempt_outcome. cbn [world trace].
  destruct (requests_get url (_user_agent config) w2) as [[text|e3] w3].
  { unfold ret. rewrite <- !app_assoc. apply Hshort. simpl. repeat (apply List.Forall_cons; [vm_compute; auto|]). constructor. }
  destruct (is_RequestException e3);
    [|rewrite <- !app_assoc; apply Hshort; simpl;
     repeat (apply List.Forall_cons; [vm_compute; auto|]); constructor].
  unfold raise. rewrite <- !app_assoc.
  exists (three_attempts url). split; [reflexivity|].
  intros _. exists url, []. split; reflexivity.
Qed.

Lemma fails_loudly_filter_hits_by_date hits days :
  fails_loudly (filter_hits_by_date (W := W) hits days).
Proof.
  unfold filter_hits_by_date. loud_step; [loud_step|].
  destruct (filter_hits_from _ _ _ _); loud_step.
Qed.

Lemma fails_loudly_search_page days url urls pages_seen seen_urls hits :
  fails_loudly
    (search_page config definition (fetch_search_page config) (ret tt) days
       url urls pages_seen seen_urls hits).
Proof.
  unfold search_page.
  loud_step; [loud_step|].
  loud_step; [apply fails_loudly_fetch_search_page|].
  loud_step; [apply fails_loudly_filter_hits_by_date|].
  destruct (bool_decide _); [loud_step|].
  loud_step; [loud_step|].
  destruct (_ <=? _)%Z; [loud_step|].
  destruct (negb _).
  - destruct (_ <=? _)%Z; [loud_step|].
    destruct (detect_next_page _ _); [|loud_step].
    destruct (_ && _); repeat loud_step.
  - repeat loud_step.
Qed.

Ltac page_loud :=
  match goal with
  | Hp : search_page _ _ _ _ ?d ?u ?us ?ps ?su ?hs ?s = _ |- _ =>
      pose proof (fails_loudly_search_page d u us ps su hs s) as Hone;
      rewrite Hp in Hone
  end.

Lemma fails_loudly_search_loop days urls pages_seen seen_urls hits :
  fails_loudly
    (search_loop config definition (fetch_search_page config) (ret tt) days
       urls pages_seen seen_urls hits).
Proof.
  intros st.
  funelim (search_loop config definition (fetch_search_page config) (ret tt)
             days urls pages_seen seen_urls hits st).
  - apply fails_loudly_at_refl.
  - assumption.
  - page_loud. eapply fails_loudly_at_trans; [exact Hone|].
    apply fails_loudly_at_refl.
  - page_loud. eapply fails_loudly_at_trans; [exact Hone|]. assumption.
  - page_loud. apply (fails_loudly_at_raised (A := loop_step)). exact Hone.
Qed.

Lemma fails_loudly_search keyword days :
  fails_loudly (search config definition keyword days).
Proof. unfold search, search_with. apply fails_loudly_search_loop. Qed.

Lemma fails_loudly_collect_search_hits days :
  search_use_selenium config = false -> debug config = false ->
  fails_loudly (_collect_search_hits config definition days).
Proof.
  intros Hselenium Hdebug. unfold _collect_search_hits.
  loud_step; [|loud_step].
  generalize (@nil (str * Payload)).
  induction (keywords config) as [|keyword rest IH]; intros d;
    cbn [collect_keywords]; [loud_step|].
  rewrite Hselenium, Hdebug. cbn [orb].
  loud_step; [apply fails_loudly_search|apply IH].
Qed.

End LoudSearch.

Section SourceFailure.
Context {W : Type} {E : Env W} {LZ : LocalZone} {U : UnicodeData} {DP : DateParser}.
Variable config : RunConfig.
Variable MEDIA_REGISTRY : str -> option MediaDefinition.

(** Wherever the loop over the result pages stands, three failed requests
    for the page it turns to make it raise. *)
Lemma search_loop_fetch_failure definition days url urls pages_seen seen_urls
    hits st w3 :
  url ∉ pages_seen ->
  three_failures config url (world st) w3 ->
  search_loop config definition (fetch_search_page config) (ret tt) days
    (url :: urls) pages_seen seen_urls hits st
  = (Raise (FETCH_FAILED url),
     {| world := w3; trace := trace st ++ EvSearchPage url :: three_attempts url |}).
Proof.
  intros Hfresh Hfail.
  rewrite (proj2 (search_loop_steps config definition (fetch_search_page config)
                    (ret tt) days url urls pages_seen seen_urls hits st))
    by exact Hfresh.
  unfold search_page. unfold bind at 1. unfold emit at 1. cbv beta iota.
  unfold bind at 1.
  rewrite (fetch_search_page_failure config url
             {| world := world st; trace := trace st ++ [EvSearchPage url] |}
             w3 Hfail).
  cbn [trace]. rewrite <- app_assoc. reflexivity.
Qed.

(** A search that raises after the searches of the keywords before it have
    returned makes the loop over the keywords raise. *)
Lemma collect_keywords_failure definition days done kw rest d rounds st st1
    exc st2 :
  search_rounds config definition days done st = (Ok rounds, st1) ->
  keyword_search config definition days kw st1 = (Raise exc, st2) ->
  collect_keywords config definition days (done ++ kw :: rest) d st
  = (Raise exc, st2).
Proof.
  revert d rounds st. induction done as [|keyword done IH]; intros d rounds st;
    cbn [search_rounds collect_keywords app].
  - unfold ret. intros [= _ <-] Hfail. unfold bind.
    fold (keyword_search config definition days kw). rewrite Hfail. reflexivity.
  - unfold bind at 1. intros Hrounds Hfail. unfold bind at 1.
    fold (keyword_search config definition days keyword).
    destruct (keyword_search config definition days keyword st)
      as [[keyword_hits|e] st0]; [|discriminate].
    unfold bind in Hrounds.
    destruct (search_rounds config definition days done st0)
      as [[done_rounds|e] st0'] eqn:Hdone; [|discriminate].
    unfold ret in Hrounds. injection Hrounds as _ <-.
    exact (IH _ _ _ Hdone Hfail).
Qed.

(** In the non-interactive path, three failed requests for the first result
    page of the first keyword make [_collect_search_hits] raise. *)
Lemma collect_search_hits_fetch_failure definition days kw kws first_url urls st w3 :
  search_use_selenium config = false -> debug config = false ->
  keywords config = kw :: kws ->
  build_search_urls config definition kw = first_url :: urls ->
  three_failures config first_url (world st) w3 ->
  _collect_search_hits config definition days st
  = (Raise (FETCH_FAILED first_url),
     {| world := w3;
        trace := trace st ++ EvSearchPage first_url :: three_attempts first_url |}).
Proof.
  intros Hselenium Hdebug Hkws Hurls Hfail.
  unfold _collect_search_hits. rewrite Hkws. cbn [collect_keywords].
  rewrite Hselenium, Hdebug. cbn [orb].
  unfold search, search_with. rewrite Hurls.
  unfold bind.
  rewrite (search_loop_fetch_failure definition days first_url urls ∅ ∅ [] st w3)
    by (try apply not_elem_of_empty; exact Hfail).
  reflexivity.
Qed.

(** A search that raises marks the media failed; nothing propagates. *)
Lemma run_media_search_failure pdf_dir run_id run_timestamp media_id definition
    exc st st1 st2 st3 :
  _notify (lit "media_start") media_id None st = (Ok tt, st1) ->
  MEDIA_REGISTRY media_id = Some definition ->
  _collect_search_hits config definition (last_days config) st1 = (Raise exc, st2) ->
  is_Exception exc = true ->
  _notify (lit "media_error") media_id
    (Some (search_failed_status media_id exc)) st2 = (Ok tt, st3) ->
  run_media config MEDIA_REGISTRY pdf_dir run_id run_timestamp media_id st
  = (Ok {| o_status := search_failed_status media_id exc;
           o_records := []; o_pdf_paths := [] |}, st3).
Proof.
  intros Hstart Hreg Hcollect Hexc Herror.
  unfold run_media, _get_scraper. unfold bind at 1. rewrite Hstart, Hreg.
  unfold bind at 1. unfold try_except. unfold bind at 1. rewrite Hcollect, Hexc.
  unfold ret at 1. cbv beta iota.
  fold (search_failed_status media_id exc).
  unfold bind. rewrite Herror. reflexivity.
Qed.

Lemma process_results_media media_id pdf_dir run_id run_timestamp results acc st o st' :
  process_results config MEDIA_REGISTRY media_id pdf_dir run_id run_timestamp
    results acc st = (Ok o, st') ->
  ms_media (o_status o) = ms_media (o_status acc).
Proof.
  revert acc st. induction results as [|[u payload] rest IH]; intros acc st; simpl.
  - unfold ret. intros [= <- _]. reflexivity.
  - unfold bind, emit.
    destruct (_process_article _ _ _ _ _ _ _ _ _ _ _ st) as [[record|e] st1];
      [|discriminate].
    intros Hrest. apply IH in Hrest. rewrite Hrest. simpl.
    destruct (status record); reflexivity.
Qed.

Lemma run_media_media pdf_dir run_id run_timestamp media_id st o st' :
  run_media config MEDIA_REGISTRY pdf_dir run_id run_timestamp media_id st
    = (Ok o, st') ->
  ms_media (o_status o) = media_id.
Proof.
  unfold run_media, bind.
  destruct (_notify _ _ _ st) as [[[]|e] st1]; [|discriminate].
  destruct (_get_scraper _ _) as [definition|exc].
  - destruct (try_except _ _ _ st1) as [[[results|exc]|e] st2]; [| |discriminate].
    + destruct (process_results _ _ _ _ _ _ _ _ st2) as [[outcome|e] st3] eqn:Hp;
        [|discriminate].
      apply process_results_media in Hp. simpl in Hp.
      destruct (_notify _ _ _ st3) as [[[]|e] st4]; [|discriminate].
      unfold ret. intros [= <- _]. exact Hp.
    + destruct (_notify _ _ _ st2) as [[[]|e] st3]; [|discriminate].
      unfold ret. intros [= <- _]. reflexivity.
  - destruct (is_KeyError exc); [|discriminate].
    destruct (_notify _ _ _ st1) as [[[]|e] st2]; [|discriminate].
    unfold ret. intros [= <- _]. reflexivity.
Qed.

(** A run over the media that returns has recorded one status per media, in
    the order of the configuration. *)
Lemma run_medias_statuses pdf_dir run_id run_timestamp media_ids
    records statuses pdfs st records' statuses' pdfs' st' :
  run_medias config MEDIA_REGISTRY pdf_dir run_id run_timestamp media_ids
    records statuses pdfs st = (Ok (records', statuses', pdfs'), st') ->
  map ms_media statuses' = map ms_media statuses ++ media_ids.
Proof.
  revert records statuses pdfs st.
  induction media_ids as [|media_id rest IH]; intros records statuses pdfs st; simpl.
  - unfold ret. intros [= <- <- <- _]. rewrite app_nil_r. reflexivity.
  - unfold bind.
    destruct (run_media _ _ _ _ _ _ st) as [[outcome|e] st1] eqn:Hmedia;
      [|discriminate].
    intros Hrest. apply IH in Hrest. rewrite Hrest, map_app. simpl.
    rewrite (run_media_media _ _ _ _ _ _ _ Hmedia), <- app_assoc. reflexivity.
Qed.

(** C8.  In the non-interactive path a page fetch makes at most three
    HTTP requests, sleeping 2, 4 and 8 seconds after the failed ones; when
    all three fail with a [RequestException] the fetch raises.  So does the
    collection of hits for the media, for whichever result page of whichever
    keyword this happens: wherever the loop over the result pages stands,
    three failed requests for the page it turns to make it raise; a search
    that raises after the searches of the keywords before it have returned
    makes the collection raise; and a collection only adds to the trace, and
    when what it added shows the sleep after a third failure, it ended with
    these three attempts and raised the failure of that page.  A collection that
    raises is recorded as a failed status with the message "Search failed
    for ..." and the loop over the media goes on with the remaining ones: a
    run that returns has one status per configured media. *)
Theorem fetch_failure_marks_source_failed
    (pdf_dir run_id run_timestamp : str) :
  (forall url st,
      (http_gets (trace (fetch_search_page config url st).2)
       <= http_gets (trace st) + 3)%nat)
  /\ (forall url st w3,
        three_failures config url (world st) w3 ->
        fetch_search_page config url st
        = (Raise (FETCH_FAILED url),
           {| world := w3; trace := trace st ++ three_attempts url |}))
  /\ (forall definition days kw kws first_url urls st w3,
        search_use_selenium config = false -> debug config = false ->
        keywords config = kw :: kws ->
        build_search_urls config definition kw = first_url :: urls ->
        three_failures config first_url (world st) w3 ->
        exists st', _collect_search_hits config definition days st
                    = (Raise (FETCH_FAILED first_url), st'))
  /\ (forall definition days url urls pages_seen seen_urls hits st w3,
        url ∉ pages_seen ->
        three_failures config url (world st) w3 ->
        search_loop config definition (fetch_search_page config) (ret tt) days
          (url :: urls) pages_seen seen_urls hits st
        = (Raise (FETCH_FAILED url),
           {| world := w3;
              trace := trace st ++ EvSearchPage url :: three_attempts url |}))
  /\ (forall definition days done kw rest rounds st st1 exc st2,
        keywords config = done ++ kw :: rest ->
        search_rounds config definition days done st = (Ok rounds, st1) ->
        keyword_search config definition days kw st1 = (Raise exc, st2) ->
        _collect_search_hits config definition days st = (Raise exc, st2))
  /\ (forall definition days st,
        search_use_selenium config = false -> debug config = false ->
        exists new,
          trace (_collect_search_hits config definition days st).2
          = trace st ++ new
          /\ (EvSleep 8 ∈ new ->
              exists url before,
                (_collect_search_hits config definition days st).1
                = Raise (FETCH_FAILED url)
                /\ new = before ++ three_attempts url))
  /\ (forall media_id rest definition exc records statuses pdfs st st1 st2 st3,
        _notify (lit "media_start") media_id None st = (Ok tt, st1) ->
        MEDIA_REGISTRY media_id = Some definition ->
        _collect_search_hits config definition (last_days config) st1
          = (Raise exc, st2) ->
        is_Exception exc = true ->
        _notify (lit "media_error") media_id
          (Some (search_failed_status media_id exc)) st2 = (Ok tt, st3) ->
        run_medias config MEDIA_REGISTRY pdf_dir run_id run_timestamp
          (media_id :: rest) records statuses pdfs st
        = run_medias config MEDIA_REGISTRY pdf_dir run_id run_timestamp
            rest records (statuses ++ [search_failed_status media_id exc]) pdfs st3)
  /\ (forall media_ids st records statuses pdfs st',
        run_medias config MEDIA_REGISTRY pdf_dir run_id run_timestamp
          media_ids [] [] [] st = (Ok (records, statuses, pdfs), st') ->
        map ms_media statuses = media_ids).
Proof.
  split; [|split; [|split; [|split; [|split; [|split; [|split]]]]]].
  - intros url st. unfold fetch_search_page.
    pose proof (fetch_attempts_gets config url (seqZ 1 3) st) as H.
    rewrite length_seqZ in H. exact H.
  - apply fetch_search_page_failure.
  - intros definition days kw kws first_url urls st w3 Hs Hd Hk Hu Hf.
    eexists. eapply collect_search_hits_fetch_failure; eassumption.
  - intros definition days url urls pages_seen seen_urls hits st w3 Hfresh Hfail.
    exact (search_loop_fetch_failure definition days url urls pages_seen
             seen_urls hits st w3 Hfresh Hfail).
  - intros definition days done kw rest rounds st st1 exc st2 Hkws Hrounds Hfail.
    unfold _collect_search_hits. rewrite Hkws. unfold bind.
    rewrite (collect_keywords_failure definition days done kw rest []
               rounds st st1 exc st2 Hrounds Hfail).
    reflexivity.
  - intros definition days st Hs Hd.
    exact (fails_loudly_collect_search_hits config definition days Hs Hd st).
  - intros media_id rest definition exc records statuses pdfs st st1 st2 st3
      Hstart Hreg Hcollect Hexc Herror.
    cbn [run_medias]. unfold bind at 1.
    rewrite (run_media_search_failure pdf_dir run_id run_timestamp media_id
               definition exc st st1 st2 st3 Hstart Hreg Hcollect Hexc Herror).
    cbn [o_status o_records o_pdf_paths]. rewrite !app_nil_r. reflexivity.
  - intros media_ids st records statuses pdfs st' Hrun.
    apply run_medias_statuses in Hrun. exact Hrun.
Qed.

End SourceFailure.

Lemma fetch_failure_marks_source_failed_witness :
  (exists st',
      @_collect_search_hits unit offline_env utc_zone sample_config
        numbered_source 2 initial_state
      = (Raise (FETCH_FAILED
                  (lit "https://rtl.lu/search?q={query}&p={page}" ++ lit "BCL")),
         st'))
  /\ exists url,
       (@_collect_search_hits nat flaky_env utc_zone (paged_config 2)
          numbered_source 2 {| world := 0%nat; trace := [] |}).1
       = Raise (FETCH_FAILED url).
Proof.
  split.
  - apply (proj1 (proj2 (proj2
      (@fetch_failure_marks_source_failed unit offline_env utc_zone latin1_ucd
         toy_date_parser sample_config sample_registry [] [] [])))
      numbered_source 2%Z (lit "BCL") [lit "CSSF"]
      (lit "https://rtl.lu/search?q={query}&p={page}" ++ lit "BCL") []
      initial_state tt); try reflexivity.
    exists (lit "offline"), tt, (lit "offline"), tt, (lit "offline").
    repeat split.
  - destruct (proj1 (proj2 (proj2 (proj2 (proj2 (proj2
      (@fetch_failure_marks_source_failed nat flaky_env utc_zone latin1_ucd
         toy_date_parser (paged_config 2) sample_registry [] [] []))))))
      numbered_source 2%Z {| world := 0%nat; trace := [] |} eq_refl eq_refl)
      as (new & Htrace & Hloud).
    assert (Hin : bool_decide
                    (EvSleep 8
                     ∈ trace (@_collect_search_hits nat flaky_env utc_zone
                                (paged_config 2) numbered_source 2
                                {| world := 0%nat; trace := [] |}).2) = true)
      by (vm_compute; reflexivity).
    apply bool_decide_eq_true in Hin. rewrite Htrace in Hin.
    destruct (Hloud Hin) as (url & before & Hraise & _).
    exists url. exact Hraise.
Defined.

(** The collection in the world whose network goes down after the first
    page: the first page is fetched, the second fails three times, and the
    collection raises the failure of the second page. *)
Example flaky_collection :
  @_collect_search_hits nat flaky_env utc_zone (paged_config 2)
    numbered_source 2 {| world := 0%nat; trace := [] |}
  = (Raise (FETCH_FAILED (lit "https://rtl.lu/search?q={query}&p={page}BCL" ++ [2])),
     {| world := 1%nat;
        trace :=
          [EvSearchPage (lit "https://rtl.lu/search?q={query}&p={page}BCL" ++ [1]);
           EvHttpGet (lit "https://rtl.lu/search?q={query}&p={page}BCL" ++ [1]);
           EvRateLimit;
           EvSearchPage (lit "https://rtl.lu/search?q={query}&p={page}BCL" ++ [2])]
          ++ three_attempts (lit "https://rtl.lu/search?q={query}&p={page}BCL" ++ [2]) |}).
Proof. vm_compute. reflexivity. Qed.

Example offline_job_statuses :
  (match offline_job.1 with
   | Ok r => map (fun s => (ms_media s, ms_status s)) (rr_media_statuses r)
   | Raise _ => []
   end) = [(lit "rtl.lu", MediaFailed); (lit "nowhere.lu", MediaFailed)]
  /\ http_gets (trace offline_job.2) = 3%nat.
Proof. vm_compute. auto. Qed.

(** ** The merge inside [_collect_search_hits] *)

Section CollectFacts.
Context {W : Type} {E : Env W} {LZ : LocalZone}.
Variable config : RunConfig.
Variable definition : MediaDefinition.

Lemma search_rounds_keywords days kws st rounds st' :
  search_rounds config definition days kws st = (Ok rounds, st') ->
  rounds.*1 = kws.
Proof.
  revert st rounds st'. induction kws as [|keyword rest IH];
    intros st rounds st'; cbn [search_rounds].
  - unfold ret. intros [= <- _]. reflexivity.
  - unfold bind.
    destruct (keyword_search config definition days keyword st)
      as [[keyword_hits|e] st1]; [|discriminate].
    destruct (search_rounds config definition days rest st1)
      as [[rest_rounds|e] st2] eqn:Hrest; [|discriminate].
    unfold ret. intros [= <- _]. rewrite fmap_cons. f_equal.
    exact (IH _ _ _ Hrest).
Qed.

(** The loop over the keywords merges, round after round, what the
    searches returned. *)
Lemma collect_keywords_rounds days kws d st :
  collect_keywords config definition days kws d st
  = (rounds <- search_rounds config definition days kws ;;
     ret (merge_from d rounds)) st.
Proof.
  revert d st. induction kws as [|keyword rest IH]; intros d st;
    cbn [collect_keywords search_rounds].
  - reflexivity.
  - unfold bind at 1 2 3. fold (keyword_search config definition days keyword).
    destruct (keyword_search config definition days keyword st)
      as [[keyword_hits|e] st1]; [|reflexivity].
    rewrite IH. unfold bind.
    destruct (search_rounds config definition days rest st1)
      as [[rounds|e] st2]; reflexivity.
Qed.

(** C1.  What [_collect_search_hits] does is to run the searches of the
    configured keywords one after the other and to return the merge of the
    rounds so obtained, one round per keyword in order, each with the hits
    its search returned; it raises when one of the searches does.  For
    every sequence of rounds that merge has exactly one entry per distinct
    URL that a round produced: its keys are without repetition, they are the
    URLs of the hits, and there are as many entries as distinct URLs.  The
    keywords stored for a URL are those whose round has a hit with that URL.
    Processing the rounds in another order leaves the keyword set of every
    URL the same. *)
Theorem collect_search_hits_merge (days : Z) :
  (forall st,
      _collect_search_hits config definition days st
      = match search_rounds config definition days (keywords config) st with
        | (Ok rounds, st') => (Ok (merge_rounds rounds), st')
        | (Raise exc, st') => (Raise exc, st')
        end)
  /\ (forall st rounds st',
        search_rounds config definition days (keywords config) st
          = (Ok rounds, st') ->
        rounds.*1 = keywords config)
  /\ forall rounds : list (str * list SearchHit),
      NoDup (merge_rounds rounds).*1
      /\ (forall url, url ∈ (merge_rounds rounds).*1 <-> url ∈ round_urls rounds)
      /\ length (merge_rounds rounds)
         = size (list_to_set (round_urls rounds) : gset str)
      /\ (forall url payload,
            dict_get url (merge_rounds rounds) = Some payload ->
            forall kw, kw ∈ p_keywords payload
                       <-> exists hits hit,
                             (kw, hits) ∈ rounds /\ hit ∈ hits
                             /\ hit_url hit = url)
      /\ (forall rounds' url,
            rounds ≡ₚ rounds' ->
            p_keywords <$> dict_get url (merge_rounds rounds)
            = p_keywords <$> dict_get url (merge_rounds rounds')).
Proof.
  split; [|split; [|apply merge_rounds_spec]].
  - intros st. unfold _collect_search_hits. unfold bind at 1.
    rewrite collect_keywords_rounds. unfold bind.
    destruct (search_rounds config definition days (keywords config) st)
      as [[rounds|e] st']; reflexivity.
  - intros st rounds st'. apply search_rounds_keywords.
Qed.

End CollectFacts.

Lemma collect_search_hits_merge_witness :
  (forall kw,
      kw ∈ keywords_of (hit_url undated_hit) (merge_rounds sample_rounds)
      <-> exists hits hit, (kw, hits) ∈ sample_rounds /\ hit ∈ hits
                           /\ hit_url hit = hit_url undated_hit)
  /\ p_keywords <$> dict_get (hit_url old_hit) (merge_rounds sample_rounds)
     = p_keywords <$> dict_get (hit_url old_hit) (merge_rounds (reverse sample_rounds)).
Proof.
  destruct (proj2 (proj2 (@collect_search_hits_merge unit offline_env utc_zone
                            sample_config numbered_source 2)) sample_rounds)
    as (_ & _ & _ & Hkw & Hperm).
  split.
  - destruct (dict_get (hit_url undated_hit) (merge_rounds sample_rounds))
      as [payload|] eqn:Hget; [|discriminate].
    rewrite (keywords_of_get _ _ _ Hget). apply (Hkw _ _ Hget).
  - apply Hperm. apply perm_swap.
Defined.

(** Two rounds that share a URL: one entry per URL, both keywords on the
    shared one. *)
Example sample_rounds_merged :
  (merge_rounds sample_rounds).*1 = [hit_url undated_hit; hit_url old_hit]
  /\ keywords_of (hit_url undated_hit) (merge_rounds sample_rounds)
     = {[lit "BCL"; lit "CSSF"]}
  /\ keywords_of (hit_url old_hit) (merge_rounds sample_rounds) = {[lit "BCL"]}.
Proof.
  split; [reflexivity|]. split; apply set_eq; intros kw; vm_compute; set_solver.
Qed.

(** ** Matched keywords of a processed article *)

Section MatchFacts.
Context {W : Type} {E : Env W} {LZ : LocalZone} {U : UnicodeData} {DP : DateParser}.
Variable config : RunConfig.
Variable MEDIA_REGISTRY : str -> option MediaDefinition.

Lemma article_failed_status media_id url run_id run_timestamp vars exc st r st' :
  article_failed config media_id url run_id run_timestamp vars exc st = (Ok r, st') ->
  status r = StatusFailed.
Proof.
  unfold article_failed, bind.
  destruct ((if pause_on_error config then _pause else ret tt) st)
    as [[[]|e] st1]; [|discriminate].
  destruct (_format_error_artifacts _ _ _ st1) as [[artifacts|e] st2];
    [|discriminate].
  unfold ret. intros [= <- _]. reflexivity.
Qed.

(** A record that is not failed went through every statement of the [try]
    block. *)
Lemma guarded_not_failed {A} media_id url run_id run_timestamp vars
    (m : M W A) (k : A -> M W ArticleRecord) st r st' :
  guarded config media_id url run_id run_timestamp vars m k st = (Ok r, st') ->
  status r <> StatusFailed ->
  exists a st1, m st = (Ok a, st1) /\ k a st1 = (Ok r, st').
Proof.
  unfold guarded. destruct (m st) as [[a|e] st1]; [eauto|].
  destruct (is_Exception e); [|discriminate].
  intros Hfail Hst. apply article_failed_status in Hfail. contradiction.
Qed.

Lemma process_article_matched media_id url kws search_title search_date
    pdf_dir run_id run_timestamp snippets st r st' :
  _process_article config MEDIA_REGISTRY media_id url kws search_title
    search_date pdf_dir run_id run_timestamp snippets st = (Ok r, st') ->
  status r <> StatusFailed ->
  exists st1 visible_text st2,
    extract_visible_text st1 = (Ok visible_text, st2)
    /\ matched_keywords r = match_keywords kws visible_text.
Proof.
  unfold _process_article. intros Hrun Hst.
  do 8 (apply guarded_not_failed in Hrun as (? & ? & _ & Hrun); [|exact Hst]).
  apply guarded_not_failed in Hrun as (visible_text & st2 & Htext & Hrun);
    [|exact Hst].
  eexists _, visible_text, st2. split; [exact Htext|].
  destruct (match_keywords kws visible_text) as [|kw matched] eqn:Hmatch.
  - unfold ret in Hrun. injection Hrun as <- _. reflexivity.
  - apply guarded_not_failed in Hrun as (? & ? & _ & Hrun); [|exact Hst].
    unfold ret in Hrun. injection Hrun as <- _. reflexivity.
Qed.

(** C6.  A keyword is among the matched keywords of an article exactly
    when it is a configured keyword and its normal form occurs as a
    contiguous block of the normal form of the body: a substring test, which
    also finds a keyword inside a longer word.  A record with status ok or
    skipped carries the keywords so matched against the visible text of the
    page (a failed record carries none). *)
Theorem matched_keywords_iff_substring (kws : list str) :
  (forall body kw,
      kw ∈ match_keywords kws body
      <-> kw ∈ kws
          /\ exists before after,
               normalize_text body = before ++ normalize_text kw ++ after)
  /\ (forall media_id url search_title search_date pdf_dir run_id
             run_timestamp snippets st r st',
        _process_article config MEDIA_REGISTRY media_id url kws search_title
          search_date pdf_dir run_id run_timestamp snippets st = (Ok r, st') ->
        status r <> StatusFailed ->
        exists st1 body st2,
          extract_visible_text st1 = (Ok body, st2)
          /\ forall kw,
               kw ∈ matched_keywords r
               <-> kw ∈ kws
                   /\ exists before after,
                        normalize_text body = before ++ normalize_text kw ++ after).
Proof.
  split; [intros body kw; apply match_keywords_spec|].
  intros media_id url search_title search_date pdf_dir run_id run_timestamp
    snippets st r st' Hrun Hst.
  destruct (process_article_matched _ _ _ _ _ _ _ _ _ _ _ _ Hrun Hst)
    as (st1 & body & st2 & Htext & Hmatched).
  exists st1, body, st2. split; [exact Htext|].
  intros kw. rewrite Hmatched. apply match_keywords_spec.
Qed.

End MatchFacts.

Lemma matched_keywords_iff_substring_witness :
  exists r st' body,
    sample_article_run = (Ok r, st')
    /\ forall kw,
         kw ∈ matched_keywords r
         <-> kw ∈ keywords sample_config
             /\ exists before after,
                  @normalize_text latin1_ucd body
                  = before ++ @normalize_text latin1_ucd kw ++ after.
Proof.
  destruct sample_article_run as [[r|e] st'] eqn:Hrun;
    [|vm_compute in Hrun; discriminate].
  pose proof Hrun as Hrun'. unfold sample_article_run in Hrun'.
  assert (Hst : status r <> StatusFailed).
  { vm_compute in Hrun. injection Hrun as <- _. discriminate. }
  destruct (proj2 (@matched_keywords_iff_substring unit offline_env utc_zone
                     latin1_ucd toy_date_parser sample_config sample_registry
                     (keywords sample_config))
              _ _ _ _ _ _ _ _ _ _ _ Hrun' Hst)
    as (st1 & body & st2 & _ & Hiff).
  exists r, st', body. split; [reflexivity|exact Hiff].
Defined.

(** * Further properties of the code *)

(** ** [utils.unique_preserve_order] *)

Lemma unique_from_elem seen items x :
  x ∈ unique_from seen items <-> x ∈ items /\ x ∉ seen.
Proof.
  revert seen. induction items as [|item rest IH]; intros seen; simpl.
  - split; [intros H; inversion H|intros [H _]; inversion H].
  - destruct (decide (item ∈ seen)) as [Hin|Hout].
    + rewrite IH, elem_of_cons. split; [tauto|].
      intros [[->|H] Hx]; [contradiction|auto].
    + rewrite !elem_of_cons, IH, elem_of_union, elem_of_singleton. split.
      * intros [->|[H Hx]]; [auto|]. split; [auto|]. tauto.
      * intros [[->|H] Hx]; [auto|].
        destruct (decide (x = item)) as [->|Hne]; [auto|]. right. tauto.
Qed.

Lemma unique_from_NoDup seen items : NoDup (unique_from seen items).
Proof.
  revert seen. induction items as [|item rest IH]; intros seen; simpl.
  - constructor.
  - destruct (decide (item ∈ seen)); [apply IH|].
    apply NoDup_cons. split; [|apply IH].
    rewrite unique_from_elem, elem_of_union, elem_of_singleton. tauto.
Qed.

Lemma unique_from_filter seen skipped items :
  unique_from (skipped ∪ seen) items
  = filter (fun x => x ∉ skipped) (unique_from seen items).
Proof.
  revert seen. induction items as [|item rest IH]; intros seen; simpl.
  - reflexivity.
  - destruct (decide (item ∈ seen)) as [Hin|Hout].
    + rewrite decide_True by (apply elem_of_union; auto). apply IH.
    + destruct (decide (item ∈ skipped)) as [Hs|Hs].
      * rewrite decide_True by (apply elem_of_union; auto).
        rewrite filter_cons_False by tauto. rewrite <- IH. f_equal.
        apply set_eq. intros y.
        rewrite !elem_of_union, elem_of_singleton. split; [tauto|].
        intros [H|[->|H]]; auto.
      * rewrite decide_False by (rewrite elem_of_union; tauto).
        rewrite filter_cons_True by exact Hs. f_equal. rewrite <- IH. f_equal.
        apply set_eq. intros y. rewrite !elem_of_union, elem_of_singleton. tauto.
Qed.

Lemma unique_from_app seen l1 l2 :
  unique_from seen (l1 ++ l2)
  = unique_from seen l1 ++ unique_from (list_to_set l1 ∪ seen) l2.
Proof.
  revert seen. induction l1 as [|item rest IH]; intros seen; simpl.
  - f_equal. apply set_eq. intros y. rewrite elem_of_union, elem_of_empty. tauto.
  - destruct (decide (item ∈ seen)) as [Hin|Hout].
    + rewrite IH. do 2 f_equal. apply set_eq. intros y.
      rewrite !elem_of_union, elem_of_singleton. split; [tauto|].
      intros [[->|H]|H]; auto.
    + simpl. rewrite IH. do 3 f_equal. apply set_eq. intros y.
      rewrite !elem_of_union, elem_of_singleton. tauto.
Qed.

(** X1.  [unique_preserve_order] returns the distinct items of its input in
    the order of their first occurrence: the result has no repetition and
    the same members as the input; the result for a list extended at the end
    is the result for the list followed by what is new in the extension; a
    list without repetition is returned as it is, so the function is
    idempotent. *)
Theorem unique_preserve_order_first_occurrences (items : list str) :
  NoDup (unique_preserve_order items)
  /\ (forall x, x ∈ unique_preserve_order items <-> x ∈ items)
  /\ (forall more,
        unique_preserve_order (items ++ more)
        = unique_preserve_order items
          ++ filter (fun x => x ∉ items) (unique_preserve_order more))
  /\ (NoDup items -> unique_preserve_order items = items)
  /\ unique_preserve_order (unique_preserve_order items)
     = unique_preserve_order items.
Proof.
  assert (Hfixed : forall l : list str, NoDup l -> unique_preserve_order l = l).
  { unfold unique_preserve_order. intros l Hl.
    assert (Hgen : forall seen : gset str,
              (forall x, x ∈ l -> x ∉ seen) -> unique_from seen l = l).
    { induction Hl as [|x l Hx Hl IH]; intros seen Hseen; simpl; [reflexivity|].
      rewrite decide_False by (apply Hseen, elem_of_cons; auto).
      f_equal. apply IH. intros y Hy.
      rewrite elem_of_union, elem_of_singleton. intros [->|Hs]; [contradiction|].
      apply (Hseen y); [apply elem_of_cons; auto|exact Hs]. }
    apply Hgen. intros x _. apply not_elem_of_empty. }
  unfold unique_preserve_order in *. repeat split.
  - apply unique_from_NoDup.
  - rewrite unique_from_elem. tauto.
  - rewrite unique_from_elem. intros H. split; [exact H|apply not_elem_of_empty].
  - intros more. rewrite unique_from_app. f_equal.
    rewrite unique_from_filter. apply list_filter_iff. intros x.
    rewrite elem_of_list_to_set. reflexivity.
  - apply Hfixed.
  - apply Hfixed, unique_from_NoDup.
Qed.

Lemma unique_preserve_order_first_occurrences_witness :
  unique_preserve_order [lit "a"; lit "b"; lit "c"] = [lit "a"; lit "b"; lit "c"].
Proof.
  apply (proj1 (proj2 (proj2 (proj2
    (unique_preserve_order_first_occurrences [lit "a"; lit "b"; lit "c"]))))).
  apply (bool_decide_unpack _). vm_compute. exact I.
Defined.

(** The case of [tests/test_dedup.py]. *)
Example unique_preserve_order_test :
  unique_preserve_order [lit "a"; lit "b"; lit "a"; lit "c"; lit "b"]
  = [lit "a"; lit "b"; lit "c"].
Proof. vm_compute. reflexivity. Qed.

(** ** [utils.safe_filename] with any bound *)

Lemma lstrip_by_head_kept drop s c rest :
  lstrip_by drop s = c :: rest -> drop c = false.
Proof.
  induction s as [|d s IH]; simpl; [discriminate|].
  destruct (drop d) eqn:Hd; [exact IH|]. intros [= <- _]. exact Hd.
Qed.

Lemma rstrip_by_head drop s c rest :
  rstrip_by drop s = c :: rest -> exists rest', s = c :: rest'.
Proof.
  destruct s as [|d s]; simpl; [discriminate|].
  destruct (rstrip_by drop s); [destruct (drop d)|]; intros [= <- _]; eauto.
Qed.

Lemma rstrip_by_last_kept drop s c :
  last (rstrip_by drop s) = Some c -> drop c = false.
Proof.
  induction s as [|d s IH]; simpl; [discriminate|].
  destruct (rstrip_by drop s) as [|k kept] eqn:Hkept.
  - destruct (drop d) eqn:Hd; simpl; [discriminate|]. intros [= <-]. exact Hd.
  - rewrite last_cons. destruct (last (k :: kept)) eqn:Hl.
    + intros [= <-]. apply IH. reflexivity.
    + apply last_None in Hl. discriminate.
Qed.

Section FilenameBound.
Context {U : UnicodeData}.

(** X2.  For a bound [max_len] that is not negative, [safe_filename]
    returns at most [max_len] characters of the class [a-z0-9-_.]; the name
    never begins with a hyphen, and it ends with one only when it was cut at
    the bound; it is empty only for the bound [0]; the name for a smaller
    bound is a prefix of the name for a larger one. *)
Theorem safe_filename_bound (text : str) (max_len : Z) :
  (0 <= max_len)%Z ->
  let name := safe_filename text max_len in
  (length name <= Z.to_nat max_len)%nat
  /\ Forall filename_char name
  /\ head name <> Some HYPHEN
  /\ ((length name < Z.to_nat max_len)%nat -> last name <> Some HYPHEN)
  /\ (name = [] <-> max_len = 0%Z)
  /\ (forall larger, (max_len <= larger)%Z ->
        name = take (Z.to_nat max_len) (safe_filename text larger)).
Proof.
  intros Hbound name. subst name. unfold safe_filename, slice_to.
  destruct (Z.leb_spec 0 max_len) as [_|Hneg]; [|lia].
  set (kept := filter (fun c => filename_class c = true) (normalize_text text)).
  set (stripped := strip_by (fun c => c =? HYPHEN) (replace_char SPACE HYPHEN kept)).
  set (full := if truthy stripped then stripped else lit "item").
  assert (Hkept : Forall (fun c => filename_class c = true) kept).
  { apply Forall_forall. intros c Hc. apply list_elem_of_filter in Hc. tauto. }
  assert (Hchars : Forall filename_char full).
  { subst full. destruct (truthy stripped).
    - apply strip_by_Forall, replace_space_filename_char, Hkept.
    - unfold filename_char. repeat constructor; simpl; lia. }
  assert (Hfull : full <> []).
  { subst full. destruct stripped; simpl; discriminate. }
  assert (Hhead : head full <> Some HYPHEN).
  { subst full. destruct stripped as [|c rest] eqn:Hs; simpl; [discriminate|].
    intros [= ->]. unfold stripped, strip_by in Hs.
    destruct (rstrip_by_head _ _ _ _ Hs) as [rest' Hl].
    apply lstrip_by_head_kept in Hl. discriminate. }
  assert (Hlast : last full <> Some HYPHEN).
  { subst full. destruct stripped as [|c rest] eqn:Hs; [simpl; discriminate|].
    cbn [truthy]. rewrite <- Hs. intros Hl.
    apply rstrip_by_last_kept in Hl. discriminate. }
  split; [rewrite length_take; lia|].
  split; [apply Forall_take, Hchars|].
  split; [|split; [|split]].
  - destruct full as [|c rest]; [contradiction|].
    destruct (Z.to_nat max_len); simpl; [discriminate|exact Hhead].
  - intros Hshort. rewrite length_take in Hshort.
    rewrite take_ge by lia. exact Hlast.
  - split.
    + intros Hempty. destruct full as [|c rest]; [contradiction|].
      destruct (Z.to_nat max_len) eqn:Hn; simpl in Hempty; [lia|discriminate].
    + intros ->. reflexivity.
  - intros larger Hlarger.
    destruct (Z.leb_spec 0 larger) as [_|Hneg]; [|lia].
    rewrite take_take. f_equal. lia.
Qed.

End FilenameBound.

Lemma safe_filename_bound_witness :
  @safe_filename latin1_ucd (lit "Place financiere") 5
  = take 5 (@safe_filename latin1_ucd (lit "Place financiere") 120).
Proof.
  apply (@safe_filename_bound latin1_ucd (lit "Place financiere") 5); lia.
Defined.

Example safe_filename_cut :
  @safe_filename latin1_ucd (lit " Place  de l'Europe! ") 9 = lit "place-de-".
Proof. vm_compute. reflexivity. Qed.

(** ** The shape of a normal form *)

Section NormalFormShape.
Context {U : UnicodeData} {L : UnicodeLaws}.

Lemma single_spaced_spaces after_space s c :
  single_spaced after_space s = true -> c ∈ s -> isspace c = true -> c = SPACE.
Proof.
  revert after_space. induction s as [|d s IH]; intros after_space; simpl.
  - intros _ H. inversion H.
  - intros Hs Hin Hc. apply elem_of_cons in Hin as [->|Hin].
    + rewrite Hc in Hs. apply andb_true_iff in Hs as [Hs _].
      apply andb_true_iff in Hs as [Hs _]. apply N.eqb_eq, Hs.
    + destruct (isspace d).
      * apply andb_true_iff in Hs as [_ Hs]. exact (IH _ Hs Hin Hc).
      * exact (IH _ Hs Hin Hc).
Qed.

Lemma single_spaced_not_adjacent after_space s before a b after :
  single_spaced after_space s = true -> s = before ++ a :: b :: after ->
  isspace a = true -> isspace b = false.
Proof.
  revert after_space s. induction before as [|d before IH];
    intros after_space s Hs ->; simpl in Hs.
  - intros Ha. rewrite Ha in Hs. apply andb_true_iff in Hs as [_ Hs].
    destruct (isspace b); [|reflexivity].
    rewrite andb_false_r in Hs. discriminate.
  - destruct (isspace d).
    + apply andb_true_iff in Hs as [_ Hs]. exact (IH _ _ Hs eq_refl).
    + exact (IH _ _ Hs eq_refl).
Qed.

(** X3.  In the result of [normalize_text] white space occurs only as
    single spaces between other characters: every white-space character is
    U+0020, no two are adjacent, and the text neither begins nor ends with
    one. *)
Theorem normalize_text_spacing (text : str) :
  let t := normalize_text text in
  (forall c, c ∈ t -> isspace c = true -> c = SPACE)
  /\ (forall before a b after,
        t = before ++ a :: b :: after -> isspace a = true -> isspace b = false)
  /\ (forall c, head t = Some c -> isspace c = false)
  /\ (forall c, last t = Some c -> isspace c = false).
Proof.
  intros t. subst t. unfold normalize_text, strip, strip_by.
  set (lowered := lower _).
  assert (Hs : single_spaced false
                 (rstrip_by isspace (lstrip_by isspace (sub_whitespace false lowered)))
               = true).
  { apply rstrip_single_spaced, lstrip_single_spaced, sub_whitespace_single_spaced. }
  split; [|split; [|split]].
  - intros c. apply single_spaced_spaces with (after_space := false), Hs.
  - intros before a b after.
    apply single_spaced_not_adjacent with (after_space := false), Hs.
  - intros c Hhead.
    destruct (rstrip_by isspace _) as [|d rest] eqn:Hr; [discriminate|].
    injection Hhead as ->.
    destruct (rstrip_by_head _ _ _ _ Hr) as [rest' Hl].
    apply lstrip_by_head_kept in Hl. exact Hl.
  - intros c. apply rstrip_by_last_kept.
Qed.

(** X4.  No character of a normal form is a combining mark, and none
    decomposes or lowercases further. *)
Theorem normalize_text_characters (text : str) :
  Forall (fun c => combining c = 0 /\ decomposition c = [c]
                   /\ tolower_full c = [c] /\ c <> CAPITAL_SIGMA)
         (normalize_text text).
Proof.
  eapply Forall_impl; [apply normalize_text_stable|].
  intros c (Hd & Hc & Hl & Hs). auto.
Qed.

End NormalFormShape.

Lemma normalize_text_spacing_witness :
  head (@normalize_text latin1_ucd (lit "  BNP   Paribas ")) = Some 98
  /\ @isspace latin1_ucd 98 = false.
Proof.
  assert (Hhead : head (@normalize_text latin1_ucd (lit "  BNP   Paribas "))
                  = Some 98) by (vm_compute; reflexivity).
  split; [exact Hhead|].
  exact (proj1 (proj2 (proj2 (@normalize_text_spacing latin1_ucd latin1_laws
                                (lit "  BNP   Paribas ")))) 98 Hhead).
Defined.

Lemma normalize_text_characters_witness :
  Forall (fun c => @combining latin1_ucd c = 0 /\ @decomposition latin1_ucd c = [c]
                   /\ @tolower_full latin1_ucd c = [c] /\ c <> CAPITAL_SIGMA)
         (@normalize_text latin1_ucd FINANCIERE_UPPER).
Proof. exact (@normalize_text_characters latin1_ucd latin1_laws FINANCIERE_UPPER). Defined.

(** ** [utils.is_within_last_days]: awareness and monotonicity *)

Lemma is_within_last_days_in_calendar clock t now w :
  window_in_calendar now w ->
  is_within_last_days clock t w (Some now)
  = datetime_ge t {| wall := (wall now - days_us w)%Z; tzinfo := tzinfo now |}.
Proof.
  intros [Hw Hrange]. unfold is_within_last_days.
  rewrite (timedelta_days_ok w Hw), (datetime_sub_ok now _ Hrange). reflexivity.
Qed.

Lemma is_within_last_days_beyond clock t now w :
  ~ window_in_calendar now w ->
  exists msg, is_within_last_days clock t w (Some now) = Raise (OverflowError msg).
Proof.
  intros Hout. unfold is_within_last_days.
  destruct (decide (-999999999 <= w <= 999999999)%Z) as [Hw|Hw].
  - rewrite (timedelta_days_ok w Hw), datetime_sub_overflow; [eexists; reflexivity|].
    intros Hrange. apply Hout. split; assumption.
  - destruct (timedelta_days_overflow w Hw) as [msg ->]. eauto.
Qed.

(** X5.  When the cutoff is no date of the calendar, [is_within_last_days]
    raises [OverflowError], whatever the timestamps.  Otherwise it raises
    [TypeError] when exactly one of the timestamp and the reference instant
    is naive, and compares two naive values by their readings.  For aware
    values, when a timestamp is recent for a window, every later timestamp
    is recent for the same window, and for a longer window the call returns
    [True] or raises [OverflowError]: it never returns [False]. *)
Theorem is_within_last_days_edges (clock t now : datetime) (w : Z) :
  (~ window_in_calendar now w ->
     exists msg, is_within_last_days clock t w (Some now) = Raise (OverflowError msg))
  /\ (window_in_calendar now w -> is_Some (tzinfo t) -> tzinfo now = None ->
        exists msg, is_within_last_days clock t w (Some now) = Raise (TypeError msg))
  /\ (window_in_calendar now w -> tzinfo t = None -> is_Some (tzinfo now) ->
        exists msg, is_within_last_days clock t w (Some now) = Raise (TypeError msg))
  /\ (window_in_calendar now w -> tzinfo t = None -> tzinfo now = None ->
        is_within_last_days clock t w (Some now)
        = Ok (wall now - days_us w <=? wall t)%Z)
  /\ (is_Some (tzinfo t) -> is_Some (tzinfo now) ->
      is_within_last_days clock t w (Some now) = Ok true ->
      forall w' t',
        (w <= w')%Z -> is_Some (tzinfo t') -> (utc_instant t <= utc_instant t')%Z ->
        match is_within_last_days clock t' w' (Some now) with
        | Ok recent => recent = true
        | Raise exc => (w < w')%Z /\ exists msg, exc = OverflowError msg
        end).
Proof.
  split; [apply is_within_last_days_beyond|].
  split; [|split; [|split]].
  - intros Hin [o Ho] Hnow. rewrite (is_within_last_days_in_calendar _ _ _ _ Hin).
    unfold datetime_ge. cbn [tzinfo]. rewrite Ho, Hnow. eauto.
  - intros Hin Ht [o Ho]. rewrite (is_within_last_days_in_calendar _ _ _ _ Hin).
    unfold datetime_ge. cbn [tzinfo]. rewrite Ho, Ht. eauto.
  - intros Hin Ht Hnow. rewrite (is_within_last_days_in_calendar _ _ _ _ Hin).
    unfold datetime_ge. cbn [tzinfo wall]. rewrite Ht, Hnow. reflexivity.
  - intros [o Ho] [on Hon] Hrecent w' t' Hw [o' Ho'] Ht.
    assert (Hin : window_in_calendar now w).
    { destruct (decide (window_in_calendar now w)) as [Hin|Hout]; [exact Hin|].
      destruct (is_within_last_days_beyond clock t now w Hout) as [msg Hraise].
      rewrite Hraise in Hrecent. discriminate. }
    rewrite (is_within_last_days_in_calendar _ _ _ _ Hin) in Hrecent.
    unfold datetime_ge in Hrecent. cbn [tzinfo wall] in Hrecent.
    rewrite Ho, Hon in Hrecent. injection Hrecent as Hrecent.
    apply Z.leb_le in Hrecent.
    unfold utc_instant in Ht. rewrite Ho, Ho' in Ht. cbn [default] in Ht.
    destruct (decide (window_in_calendar now w')) as [Hin'|Hout'].
    + rewrite (is_within_last_days_in_calendar _ _ _ _ Hin').
      unfold datetime_ge. cbn [tzinfo wall]. rewrite Ho', Hon.
      apply Z.leb_le. unfold days_us, MICROSECONDS_PER_DAY, id in *. lia.
    + destruct (is_within_last_days_beyond clock t' now w' Hout') as [msg ->].
      split; [|eauto].
      destruct (decide (w = w')) as [<-|Hne]; [contradiction|lia].
Qed.

Lemma is_within_last_days_edges_witness :
  exists msg,
    is_within_last_days sample_now
      {| wall := SAMPLE_NOW; tzinfo := None |} 2 (Some sample_now)
    = Raise (TypeError msg).
Proof.
  apply (proj1 (proj2 (proj2 (is_within_last_days_edges sample_now
    {| wall := SAMPLE_NOW; tzinfo := None |} sample_now 2)))).
  - split; [lia|vm_compute; split; [discriminate|reflexivity]].
  - reflexivity.
  - eexists; reflexivity.
Defined.

(** ** [BaseMediaScraper.fetch_search_page]: the outcomes of the attempts *)

(** One more turn of the loop of [fetch_search_page]. *)
Ltac fetch_turn :=
  cbn [fetch_attempts]; unfold bind at 1; rewrite fetch_attempt_outcome;
  cbn [world trace].

Section FetchOutcomes.
Context {W : Type} {E : Env W} {LZ : LocalZone}.
Variable config : RunConfig.

Lemma fetch_attempt_success url attempt st text w' :
  requests_get url (_user_agent config) (world st) = (Ok text, w') ->
  fetch_attempt config url attempt st
  = (Ok (Some text), {| world := w'; trace := trace st ++ [EvHttpGet url] |}).
Proof.
  intros Hget. unfold fetch_attempt, try_except, bind, emit, call, ret. simpl.
  rewrite Hget. reflexivity.
Qed.

Lemma fetch_attempt_other url attempt st exc w' :
  requests_get url (_user_agent config) (world st) = (Raise exc, w') ->
  is_RequestException exc = false ->
  fetch_attempt config url attempt st
  = (Raise exc, {| world := w'; trace := trace st ++ [EvHttpGet url] |}).
Proof.
  intros Hget Hexc. unfold fetch_attempt, try_except, bind, emit, call, ret. simpl.
  rewrite Hget. simpl. rewrite Hexc. reflexivity.
Qed.

(** X6.  [fetch_search_page] makes at most three requests and sleeps 2,
    then 4, then 8 seconds after a request that fails with a
    [RequestException].  After [k] such failures in a row, for [k] of 0, 1
    or 2, the next request decides: its text is returned, and an exception
    of it that is not a [RequestException] leaves the function as it is,
    in both cases without any further sleep.  After three such failures
    the function raises the [RuntimeError] that names the page.  In every
    case the trace holds the requests and the sleeps made, and nothing
    else. *)
Theorem fetch_search_page_outcomes (url : str) (st : state W) :
  (forall k w,
      (k < 3)%nat ->
      requests_fail config url k (world st) w ->
      (forall text w',
          requests_get url (_user_agent config) w = (Ok text, w') ->
          fetch_search_page config url st
          = (Ok text,
             {| world := w';
                trace := trace st ++ failed_attempts url k ++ [EvHttpGet url] |}))
      /\ (forall exc w',
            requests_get url (_user_agent config) w = (Raise exc, w') ->
            is_RequestException exc = false ->
            fetch_search_page config url st
            = (Raise exc,
               {| world := w';
                  trace := trace st ++ failed_attempts url k
                           ++ [EvHttpGet url] |})))
  /\ (forall w,
        requests_fail config url 3 (world st) w ->
        fetch_search_page config url st
        = (Raise (RuntimeError (lit "Failed to fetch search page: " ++ url)),
           {| world := w; trace := trace st ++ failed_attempts url 3 |}))
  /\ failed_attempts url 0 = []
  /\ failed_attempts url 1 = [EvHttpGet url; EvSleep 2]
  /\ failed_attempts url 2 = [EvHttpGet url; EvSleep 2; EvHttpGet url; EvSleep 4]
  /\ failed_attempts url 3
     = [EvHttpGet url; EvSleep 2; EvHttpGet url; EvSleep 4;
        EvHttpGet url; EvSleep 8].
Proof.
  unfold fetch_search_page. change (seqZ 1 3) with [1; 2; 3]%Z.
  split; [|split; [|repeat split]].
  - intros k w Hk Hfail.
    destruct k as [|[|[|k]]]; [| | |lia]; cbn [requests_fail] in Hfail.
    + subst w. change (failed_attempts url 0) with (@nil event).
      split; [intros text w' Hget|intros exc w' Hget Hexc];
        fetch_turn; rewrite Hget; [|rewrite Hexc]; reflexivity.
    + destruct Hfail as (m1 & w1 & H1 & ->).
      change (failed_attempts url 1) with [EvHttpGet url; EvSleep 2].
      split; [intros text w' Hget|intros exc w' Hget Hexc];
        fetch_turn; rewrite H1; cbn [is_RequestException];
        fetch_turn; rewrite Hget; [|rewrite Hexc];
        cbn [trace]; rewrite <- !app_assoc; reflexivity.
    + destruct Hfail as (m1 & w1 & H1 & m2 & w2 & H2 & ->).
      change (failed_attempts url 2)
        with [EvHttpGet url; EvSleep 2; EvHttpGet url; EvSleep 4].
      split; [intros text w' Hget|intros exc w' Hget Hexc];
        fetch_turn; rewrite H1; cbn [is_RequestException];
        fetch_turn; rewrite H2; cbn [is_RequestException];
        fetch_turn; rewrite Hget; [|rewrite Hexc];
        cbn [trace]; rewrite <- !app_assoc; reflexivity.
  - intros w Hfail. cbn [requests_fail] in Hfail.
    destruct Hfail as (m1 & w1 & H1 & m2 & w2 & H2 & m3 & w3 & H3 & ->).
    change (failed_attempts url 3) with (three_attempts url).
    fetch_turn; rewrite H1; cbn [is_RequestException].
    fetch_turn; rewrite H2; cbn [is_RequestException].
    fetch_turn; rewrite H3; cbn [is_RequestException].
    cbn [fetch_attempts]. unfold raise, three_attempts. cbn [trace].
    rewrite <- !app_assoc. reflexivity.
Qed.

End FetchOutcomes.

Lemma fetch_search_page_outcomes_witness :
  @fetch_search_page nat paged_env (paged_config 1) (lit "u")
    {| world := 4%nat; trace := [] |}
  = (Ok [4], {| world := 5%nat; trace := [EvHttpGet (lit "u")] |}).
Proof.
  assert (Hk : (0 < 3)%nat) by lia.
  assert (Hfail : @requests_fail nat paged_env (paged_config 1) (lit "u") 0 4%nat 4%nat)
    by reflexivity.
  destruct (proj1 (@fetch_search_page_outcomes nat paged_env (paged_config 1)
                     (lit "u") {| world := 4%nat; trace := [] |})
              0%nat 4%nat Hk Hfail) as [Hok _].
  apply (Hok [4] 5%nat). reflexivity.
Defined.

(** ** [BaseMediaScraper.filter_hits_by_date] as a filter *)

Section FilterAsFilter.
Context {W : Type} {E : Env W} {LZ : LocalZone}.

Lemma filter_hits_from_filter now off days hits acc :
  tzinfo now = Some off ->
  window_in_calendar now days ->
  (forall hit d, hit ∈ hits -> hit_published_at hit = Some d -> is_Some (tzinfo d)) ->
  filter_hits_from now days hits acc
  = Ok (acc ++ filter (fun hit => within_window now days hit = true) hits).
Proof.
  intros Hnow Hin. revert acc.
  induction hits as [|hit rest IH]; intros acc Haware; simpl.
  - rewrite filter_nil, app_nil_r. reflexivity.
  - assert (Hrest : forall h d, h ∈ rest -> hit_published_at h = Some d ->
                                is_Some (tzinfo d)).
    { intros h d Hh. apply Haware, elem_of_cons. auto. }
    destruct (hit_published_at hit) as [published|] eqn:Hdate.
    + destruct (Haware hit published) as [o Ho];
        [apply elem_of_cons; auto|assumption|].
      rewrite (is_within_last_days_in_calendar _ _ _ _ Hin).
      unfold datetime_ge. cbn [tzinfo wall].
      rewrite Ho, Hnow.
      assert (Hw : within_window now days hit
                   = (wall now - days_us days - off <=? wall published - o)%Z).
      { unfold within_window, utc_instant. rewrite Hdate, Ho, Hnow. simpl.
        destruct (Z.leb_spec (wall now - off - days_us days) (wall published - o)),
                 (Z.leb_spec (wall now - days_us days - off) (wall published - o));
          try reflexivity; lia. }
      rewrite <- Hw. destruct (within_window now days hit) eqn:Hkeep.
      * rewrite IH by exact Hrest. rewrite filter_cons_True by exact Hkeep.
        rewrite <- app_assoc. reflexivity.
      * rewrite IH by exact Hrest. rewrite filter_cons_False by congruence.
        reflexivity.
    + rewrite IH by exact Hrest.
      rewrite filter_cons_True by (unfold within_window; rewrite Hdate; reflexivity).
      rewrite <- app_assoc. reflexivity.
Qed.

Lemma filter_hits_from_beyond now days hits acc :
  ~ window_in_calendar now days ->
  (exists hit, hit ∈ hits /\ hit_published_at hit <> None) ->
  exists msg, filter_hits_from now days hits acc = Raise (OverflowError msg).
Proof.
  intros Hout. revert acc.
  induction hits as [|hit rest IH]; intros acc (dated & Hin & Hdated).
  - inversion Hin.
  - cbn [filter_hits_from].
    destruct (hit_published_at hit) as [published|] eqn:Hdate.
    + destruct (is_within_last_days_beyond now published now days Hout)
        as [msg ->]. eauto.
    + apply IH. exists dated. split; [|exact Hdated].
      apply elem_of_cons in Hin as [->|Hin]; [contradiction|exact Hin].
Qed.

(** X7.  When the dated hits carry aware dates and the cutoff is a date
    of the calendar, [filter_hits_by_date] returns, without any effect, the
    hits that have no date or whose date is not earlier than the current
    instant minus the window, in their original order; applying it again to
    its result changes nothing.  When the cutoff is no date of the calendar
    and some hit has a date, it raises [OverflowError]. *)
Theorem filter_hits_by_date_filter (hits : list SearchHit) (last_days : Z)
    (st : state W) :
  let now := local_now (world st) in
  let kept :=
    filter (fun hit => within_window now last_days hit = true) hits in
  ((forall hit d, hit ∈ hits -> hit_published_at hit = Some d ->
                  is_Some (tzinfo d)) ->
   window_in_calendar now last_days ->
   filter_hits_by_date hits last_days st = (Ok kept, st)
   /\ filter_hits_by_date kept last_days st = (Ok kept, st))
  /\ (~ window_in_calendar now last_days ->
      (exists hit, hit ∈ hits /\ hit_published_at hit <> None) ->
      exists msg,
        filter_hits_by_date hits last_days st = (Raise (OverflowError msg), st)).
Proof.
  intros now kept. split.
  - intros Haware Hin. unfold filter_hits_by_date, bind, read, ret.
    rewrite (filter_hits_from_filter (local_now (world st)) local_utcoffset
               last_days hits [] eq_refl Hin Haware).
    split; [reflexivity|].
    rewrite (filter_hits_from_filter (local_now (world st)) local_utcoffset
               last_days kept [] eq_refl Hin).
    + simpl. f_equal. f_equal. subst kept. rewrite list_filter_filter.
      apply list_filter_iff. intros hit. tauto.
    + intros hit d Hhit. apply Haware. subst kept.
      apply list_elem_of_filter in Hhit. tauto.
  - intros Hout Hdated. unfold filter_hits_by_date, bind, read, raise.
    destruct (filter_hits_from_beyond (local_now (world st)) last_days hits []
                Hout Hdated) as [msg ->].
    eauto.
Qed.

End FilterAsFilter.

Lemma filter_hits_by_date_filter_witness :
  @filter_hits_by_date unit offline_env utc_zone [old_hit; undated_hit] 2
    initial_state = (Ok [undated_hit], initial_state).
Proof.
  apply (proj1 (@filter_hits_by_date_filter unit offline_env utc_zone
                  [old_hit; undated_hit] 2 initial_state)).
  - intros hit d Hin Hd.
    apply elem_of_cons in Hin as [->|Hin].
    + injection Hd as <-. eexists; reflexivity.
    + apply list_elem_of_singleton in Hin as ->. discriminate.
  - split; [lia|vm_compute; split; [discriminate|reflexivity]].
Defined.

(** ** The search loop: pages asked for *)

Lemma page_urls_snoc tr e :
  page_urls (tr ++ [e])
  = page_urls tr ++ match e with EvSearchPage u => [u] | _ => [] end.
Proof.
  unfold page_urls. rewrite omap_app. f_equal. destruct e; reflexivity.
Qed.

Section Quiet.
Context {W : Type}.

Lemma quiet_ret {A} (a : A) : quiet (ret (W := W) a).
Proof. intros st. reflexivity. Qed.

Lemma quiet_raise {A} e : quiet (raise (W := W) (A := A) e).
Proof. intros st. reflexivity. Qed.

Lemma quiet_call {A} (op : W -> result A * W) : quiet (call op).
Proof. intros st. unfold call. destruct (op (world st)). reflexivity. Qed.

Lemma quiet_read {A} (f : W -> A) : quiet (read f).
Proof. intros st. reflexivity. Qed.

Lemma quiet_emit e : is_search_page e = false -> quiet (emit (W := W) e).
Proof.
  intros He st. unfold emit. simpl. rewrite page_urls_snoc.
  destruct e; try discriminate; apply app_nil_r.
Qed.

Lemma quiet_bind {A B} (m : M W A) (k : A -> M W B) :
  quiet m -> (forall a, quiet (k a)) -> quiet (bind m k).
Proof.
  intros Hm Hk st. unfold bind. specialize (Hm st).
  destruct (m st) as [[a|e] st1]; simpl in *.
  - rewrite (Hk a st1). exact Hm.
  - exact Hm.
Qed.

Lemma quiet_try_except {A} (body : M W A) catches handler :
  quiet body -> (forall e, quiet (handler e)) ->
  quiet (try_except body catches handler).
Proof.
  intros Hb Hh st. unfold try_except. specialize (Hb st).
  destruct (body st) as [[a|e] st1]; simpl in *; [exact Hb|].
  destruct (catches e); simpl; [|exact Hb].
  rewrite (Hh e st1). exact Hb.
Qed.

End Quiet.

Ltac quiet_step :=
  first [ apply quiet_bind; [|intros ?]
        | apply quiet_try_except; [|intros ?]
        | apply quiet_ret | apply quiet_raise | apply quiet_call
        | apply quiet_read
        | apply quiet_emit; reflexivity ].

Section PagesAsked.
Context {W : Type} {E : Env W} {LZ : LocalZone}.
Variable config : RunConfig.
Variable definition : MediaDefinition.

Lemma quiet_filter_hits_by_date hits days :
  quiet (filter_hits_by_date (W := W) hits days).
Proof.
  unfold filter_hits_by_date. quiet_step; [quiet_step|].
  destruct (filter_hits_from _ _ _ _); quiet_step.
Qed.

Lemma quiet_fetch_search_page url : quiet (fetch_search_page config url).
Proof.
  unfold fetch_search_page. generalize (seqZ 1 3).
  intros attempts. induction attempts as [|attempt rest IH]; simpl.
  - quiet_step.
  - quiet_step.
    + unfold fetch_attempt. repeat quiet_step.
    + destruct a; [quiet_step|exact IH].
Qed.

Lemma quiet_pause : quiet (_pause (W := W)).
Proof. unfold _pause. repeat quiet_step. Qed.

Lemma quiet_selenium_fetch url : quiet (selenium_fetch config definition url).
Proof.
  unfold selenium_fetch, try_accept_cookies, dump_page.
  repeat quiet_step. destruct (debug config); quiet_step.
Qed.

Section AnyFetch.
Variable fetch : str -> M W str.
Variable after_new_hits : M W unit.
Variable days : Z.
Hypothesis fetch_quiet : forall url, quiet (fetch url).
Hypothesis after_new_hits_quiet : quiet after_new_hits.

Lemma search_page_asks_once url urls pages_seen seen_urls hits st :
  page_urls (trace (search_page config definition fetch after_new_hits days
                      url urls pages_seen seen_urls hits st).2)
  = page_urls (trace st) ++ [url].
Proof.
  unfold search_page.
  set (k := fun html : str => _).
  assert (Hk : forall html, quiet (k html)).
  { intros html. subst k. cbv beta. quiet_step; [apply quiet_filter_hits_by_date|].
    destruct (bool_decide _); [quiet_step|].
    quiet_step; [exact after_new_hits_quiet|].
    destruct (_ <=? _)%Z; [quiet_step|].
    destruct (negb _).
    - destruct (_ <=? _)%Z; [quiet_step|].
      destruct (detect_next_page _ _); [|quiet_step].
      destruct (_ && _); repeat quiet_step.
    - repeat quiet_step. }
  unfold bind at 1. unfold emit at 1. cbv beta iota.
  set (st1 := {| world := world st; trace := trace st ++ [EvSearchPage url] |}).
  assert (Hrest : quiet (bind (fetch url) k)).
  { apply quiet_bind; [apply fetch_quiet|exact Hk]. }
  rewrite (Hrest st1). subst st1. simpl. apply page_urls_snoc.
Qed.

Ltac asks_once :=
  match goal with
  | Hp : search_page _ _ _ _ _ ?u ?us ?ps ?su ?hs ?s = _ |- _ =>
      pose proof (search_page_asks_once u us ps su hs s) as Hone;
      rewrite Hp in Hone; cbn [snd] in Hone
  end.

Lemma search_loop_pages urls pages_seen seen_urls hits st :
  exists asked,
    page_urls (trace (search_loop config definition fetch after_new_hits days
                        urls pages_seen seen_urls hits st).2)
    = page_urls (trace st) ++ asked
    /\ NoDup asked
    /\ forall u, u ∈ asked -> u ∉ pages_seen.
Proof.
  funelim (search_loop config definition fetch after_new_hits days
             urls pages_seen seen_urls hits st).
  - exists []. simpl. rewrite app_nil_r. split; [reflexivity|].
    split; [constructor|]. intros u Hu. inversion Hu.
  - assumption.
  - asks_once. cbn [snd]. eexists [_]. split; [exact Hone|].
    split; [apply NoDup_singleton|].
    intros u Hu. apply list_elem_of_singleton in Hu as ->. assumption.
  - asks_once.
    match goal with
    | Hp : search_page _ _ _ _ _ _ _ _ _ _ _ = _ |- _ =>
        pose proof (proj1 (search_page_continue _ _ _ _ _ _ _ _ _ _ _
                             _ _ _ _ _ Hp)) as Hseen
    end.
    match goal with
    | IH : exists asked, _ |- _ =>
        destruct IH as (asked & Hasked & Hnodup & Hfresh)
    end.
    rewrite Hseen in Hfresh. rewrite Hone, <- app_assoc in Hasked.
    eexists. split; [exact Hasked|]. split.
    + simpl. apply NoDup_cons. split; [|exact Hnodup].
      intros Hin. apply Hfresh in Hin. apply Hin, elem_of_union. left.
      apply elem_of_singleton. reflexivity.
    + intros u Hu. simpl in Hu. apply elem_of_cons in Hu as [->|Hu]; [assumption|].
      intros Hps. apply (Hfresh u Hu), elem_of_union. auto.
  - asks_once. cbn [snd]. eexists [_]. split; [exact Hone|].
    split; [apply NoDup_singleton|].
    intros u Hu. apply list_elem_of_singleton in Hu as ->. assumption.
Qed.

End AnyFetch.

(** X8.  A search for one keyword, through [requests] or through the
    browser, never asks for the same result page twice: the pages it asks
    for are pairwise distinct. *)
Theorem search_asks_each_page_once (keyword : str) (days : Z) (st : state W) :
  (exists asked,
      page_urls (trace (search config definition keyword days st).2)
      = page_urls (trace st) ++ asked /\ NoDup asked)
  /\ (exists asked,
        page_urls (trace (_search_with_selenium config definition keyword days st).2)
        = page_urls (trace st) ++ asked /\ NoDup asked).
Proof.
  split.
  - unfold search, search_with.
    destruct (search_loop_pages (fetch_search_page config) (ret tt) days
                quiet_fetch_search_page (quiet_ret tt)
                (build_search_urls config definition keyword) ∅ ∅ [] st)
      as (asked & Heq & Hnodup & _).
    eauto.
  - unfold _search_with_selenium, search_with.
    destruct (search_loop_pages (selenium_fetch config definition)
                (if pause config then _pause else ret tt) days
                quiet_selenium_fetch
                ltac:(destruct (pause config); [apply quiet_pause|apply quiet_ret])
                (build_search_urls config definition keyword) ∅ ∅ [] st)
      as (asked & Heq & Hnodup & _).
    eauto.
Qed.

(** X9.  A template with a page placeholder and a page bound of zero or
    less gives no URL: the search returns no hit and does nothing.  Whatever
    the page bound, a first page without any recent hit ends the search after
    that one page, with no hit.  The number of URLs a search starts from is
    the page bound for a template with placeholder and one otherwise. *)
Theorem search_without_pages (keyword : str) (days : Z) (st : state W) :
  (has_page_placeholder definition = true -> (max_pages config <= 0)%Z ->
     search config definition keyword days st = (Ok [], st))
  /\ (forall first_url urls html st1 st2,
        build_search_urls config definition keyword = first_url :: urls ->
        fetch_search_page config first_url
          {| world := world st; trace := trace st ++ [EvSearchPage first_url] |}
          = (Ok html, st1) ->
        filter_hits_by_date (parse_search_results definition html first_url)
          days st1 = (Ok [], st2) ->
        search config definition keyword days st = (Ok [], st2))
  /\ length (build_search_urls config definition keyword)
     = if has_page_placeholder definition then Z.to_nat (max_pages config) else 1%nat.
Proof.
  split; [|split].
  - intros Hph Hpages. unfold search, search_with, build_search_urls.
    rewrite Hph. replace (seqZ 1 (max_pages config)) with (@nil Z).
    + simpl. simp search_loop. reflexivity.
    + symmetry. apply length_zero_iff_nil. rewrite length_seqZ. lia.
  - intros first_url urls html st1 st2 Hurls Hfetch Hfilter.
    unfold search, search_with. rewrite Hurls.
    rewrite (proj2 (search_loop_steps config definition (fetch_search_page config)
                      (ret tt) days first_url urls ∅ ∅ [] st))
      by apply not_elem_of_empty.
    rewrite (proj1 (search_page_stop_conditions config definition
                      (fetch_search_page config) (ret tt) days first_url urls
                      ∅ ∅ [] st html st1 [] st2 Hfetch Hfilter)); reflexivity.
  - unfold build_search_urls. destruct (has_page_placeholder definition).
    + rewrite length_map, length_seqZ. reflexivity.
    + reflexivity.
Qed.

End PagesAsked.

Lemma search_without_pages_witness :
  @search nat paged_env utc_zone (paged_config 0) numbered_source (lit "BCL") 2
    {| world := 0%nat; trace := [] |}
  = (Ok [], {| world := 0%nat; trace := [] |}).
Proof.
  apply (proj1 (@search_without_pages nat paged_env utc_zone (paged_config 0)
                  numbered_source (lit "BCL") 2 {| world := 0%nat; trace := [] |})).
  - reflexivity.
  - simpl. lia.
Defined.

(** ** The merged entries: order, title, date and snippets *)

Lemma merge_from_pairs d rounds :
  merge_from d rounds
  = foldl (fun d pair => merge_hit pair.1 d pair.2) d (round_pairs rounds).
Proof.
  unfold merge_from, round_pairs. revert d.
  induction rounds as [|[kw hits] rounds IH]; intros d; simpl; [reflexivity|].
  rewrite foldl_app, IH. f_equal. unfold merge_keyword_hits.
  generalize d. induction hits as [|hit hits IHh]; intros d0; simpl;
    [reflexivity|apply IHh].
Qed.

Lemma round_pairs_hits rounds : map snd (round_pairs rounds) = flat_map snd rounds.
Proof.
  unfold round_pairs. induction rounds as [|[kw hits] rounds IH]; simpl;
    [reflexivity|].
  rewrite map_app, IH. f_equal. rewrite map_map. simpl. apply map_id.
Qed.

Lemma round_pairs_urls rounds :
  map (fun pair => hit_url pair.2) (round_pairs rounds) = round_urls rounds.
Proof.
  unfold round_pairs, round_urls.
  induction rounds as [|[kw hits] rounds IH]; simpl; [reflexivity|].
  rewrite map_app, IH. f_equal. rewrite map_map. reflexivity.
Qed.

Lemma setdefault_keys_order key default f d :
  (dict_setdefault_then key default f d).*1
  = if decide (key ∈ d.*1) then d.*1 else d.*1 ++ [key].
Proof.
  induction d as [|[k v] d IH].
  - destruct (decide (key ∈ ([] : list (str * Payload)).*1)) as [Hin|_];
      [inversion Hin|reflexivity].
  - cbn [dict_setdefault_then].
    destruct (decide (k = key)) as [->|Hne].
    + destruct (decide (key ∈ ((key, v) :: d).*1)) as [_|Hout];
        [reflexivity|].
      exfalso. apply Hout. apply elem_of_cons. auto.
    + change (k :: (dict_setdefault_then key default f d).*1
              = if decide (key ∈ k :: d.*1) then k :: d.*1
                else (k :: d.*1) ++ [key]).
      rewrite IH.
      destruct (decide (key ∈ d.*1)) as [Hin|Hout],
               (decide (key ∈ k :: d.*1)) as [Hin'|Hout']; try reflexivity.
      * exfalso. apply Hout'. apply elem_of_cons. auto.
      * apply elem_of_cons in Hin' as [Heq|Hin']; [congruence|contradiction].
Qed.

Lemma unique_preserve_order_snoc (l : list str) x :
  unique_preserve_order (l ++ [x])
  = if decide (x ∈ unique_preserve_order l)
    then unique_preserve_order l else unique_preserve_order l ++ [x].
Proof.
  unfold unique_preserve_order. rewrite unique_from_app. simpl.
  assert (Hmem : x ∈ unique_from ∅ l <-> x ∈ (list_to_set l ∪ ∅ : gset str)).
  { rewrite unique_from_elem, elem_of_union, elem_of_list_to_set.
    split; [tauto|]. intros [H|H]; [|apply elem_of_empty in H; contradiction].
    split; [exact H|apply not_elem_of_empty]. }
  destruct (decide (x ∈ unique_from ∅ l)) as [Hin|Hout].
  - rewrite decide_True by (apply Hmem, Hin). apply app_nil_r.
  - rewrite decide_False by (rewrite <- Hmem; exact Hout). reflexivity.
Qed.

Lemma merge_pairs_keys pairs :
  (foldl (fun d pair => merge_hit pair.1 d pair.2) [] pairs).*1
  = unique_preserve_order (map (fun pair => hit_url pair.2) pairs).
Proof.
  induction pairs as [|[kw hit] pairs IH] using rev_ind; [reflexivity|].
  rewrite foldl_app, map_app. simpl. rewrite unique_preserve_order_snoc.
  unfold merge_hit at 1. rewrite setdefault_keys_order, IH. reflexivity.
Qed.

(** X10.  The entries of the merge come in the order in which their URLs
    were first met: the keys are the URLs of the hits, each once, by first
    occurrence. *)
Theorem merge_rounds_first_seen_order (rounds : list (str * list SearchHit)) :
  (merge_rounds rounds).*1 = unique_preserve_order (round_urls rounds).
Proof.
  unfold merge_rounds. rewrite dedup_snippets_keys.
  change (foldl _ [] rounds) with (merge_from [] rounds).
  rewrite merge_from_pairs, merge_pairs_keys, round_pairs_urls. reflexivity.
Qed.

Lemma first_title_snoc hits hit :
  first_title (hits ++ [hit])
  = match hits with
    | [] => hit_title hit
    | _ :: _ =>
        if truthy_opt (hit_title hit) && negb (truthy_opt (first_title hits))
        then hit_title hit else first_title hits
    end.
Proof.
  unfold first_title. rewrite map_app, filter_app. simpl.
  destruct hits as [|h hits]; simpl.
  - destruct (decide (truthy_opt (hit_title hit) = true)) as [Ht|Ht].
    + rewrite filter_cons_True by exact Ht. reflexivity.
    + rewrite filter_cons_False by exact Ht. reflexivity.
  - destruct (filter _ (hit_title h :: map hit_title hits)) as [|t ts] eqn:Hf; simpl.
    + destruct (decide (truthy_opt (hit_title hit) = true)) as [Ht|Ht].
      * rewrite filter_cons_True by exact Ht. rewrite Ht.
        assert (Hh : truthy_opt (hit_title h) <> true).
        { intros Hh. rewrite filter_cons_True in Hf by exact Hh. discriminate. }
        destruct (truthy_opt (hit_title h)); [congruence|reflexivity].
      * rewrite filter_cons_False by exact Ht.
        destruct (truthy_opt (hit_title hit)); [congruence|reflexivity].
    + assert (Ht : truthy_opt t = true).
      { assert (Hin : t ∈ filter (fun t => truthy_opt t = true)
                              (hit_title h :: map hit_title hits))
          by (rewrite Hf; apply elem_of_cons; auto).
        apply list_elem_of_filter in Hin. tauto. }
      rewrite Ht, andb_false_r. reflexivity.
Qed.

Lemma first_published_at_snoc hits hit :
  first_published_at (hits ++ [hit])
  = match first_published_at hits with
    | Some d => Some d
    | None => hit_published_at hit
    end.
Proof.
  unfold first_published_at. rewrite omap_app. simpl.
  destruct (omap hit_published_at hits); simpl;
    destruct (hit_published_at hit); reflexivity.
Qed.

Lemma truthy_snippets_snoc hits hit :
  truthy_snippets (hits ++ [hit])
  = truthy_snippets hits
    ++ match hit_snippet hit with
       | Some s => if truthy s then [s] else []
       | None => []
       end.
Proof.
  unfold truthy_snippets. rewrite omap_app. f_equal. simpl.
  destruct (hit_snippet hit) as [s|]; [destruct (truthy s)|]; reflexivity.
Qed.

Lemma update_payload_fields keyword hit payload :
  p_title (update_payload keyword hit payload)
  = (if truthy_opt (hit_title hit) && negb (truthy_opt (p_title payload))
     then hit_title hit else p_title payload)
  /\ p_published_at (update_payload keyword hit payload)
     = match p_published_at payload with
       | Some d => Some d
       | None => hit_published_at hit
       end
  /\ p_snippets (update_payload keyword hit payload)
     = p_snippets payload
       ++ match hit_snippet hit with
          | Some s => if truthy s then [s] else []
          | None => []
          end.
Proof.
  unfold update_payload. simpl.
  destruct (hit_snippet hit) as [s|]; [destruct (truthy s)|]; simpl;
    destruct (_ && _); simpl;
    destruct (hit_published_at hit); simpl;
    destruct (p_published_at payload); simpl;
    rewrite ?app_nil_r; auto.
Qed.

Lemma merge_pairs_summarises url pairs :
  summarises (filter (fun hit => hit_url hit = url) (map snd pairs))
             (dict_get url (foldl (fun d pair => merge_hit pair.1 d pair.2) [] pairs)).
Proof.
  induction pairs as [|[kw hit] pairs IH] using rev_ind; [reflexivity|].
  rewrite foldl_app, map_app, filter_app. simpl.
  unfold merge_hit at 1. rewrite setdefault_get.
  destruct (decide (url = hit_url hit)) as [->|Hne].
  - rewrite filter_cons_True by reflexivity. rewrite filter_nil.
    set (hs := filter _ (map snd pairs)) in *.
    set (entry := dict_get _ _) in *.
    destruct (update_payload_fields kw hit
                match entry with
                | Some v => v
                | None => {| p_keywords := ∅; p_snippets := [];
                             p_title := hit_title hit;
                             p_published_at := hit_published_at hit |}
                end) as (Ht & Hd & Hs).
    assert (Hform : exists h rest, hs ++ [hit] = h :: rest).
    { destruct hs; simpl; eauto. }
    destruct Hform as (h & rest & Hform). unfold summarises. rewrite Hform.
    rewrite <- Hform. eexists. split; [reflexivity|].
    rewrite Ht, Hd, Hs, first_title_snoc, first_published_at_snoc,
      truthy_snippets_snoc.
    destruct hs as [|h0 hs0].
    + simpl in IH. rewrite IH. simpl.
      split; [|split].
      * destruct (truthy_opt (hit_title hit)); reflexivity.
      * destruct (hit_published_at hit); reflexivity.
      * reflexivity.
    + simpl in IH. destruct IH as (p & -> & Hpt & Hpd & Hps).
      rewrite Hpt, Hpd, Hps. auto.
  - rewrite filter_cons_False by congruence. rewrite filter_nil, app_nil_r.
    exact IH.
Qed.

Lemma dedup_snippets_get url d :
  dict_get url (dedup_snippets d)
  = (fun payload =>
       {| p_keywords := p_keywords payload;
          p_snippets := unique_preserve_order (p_snippets payload);
          p_title := p_title payload;
          p_published_at := p_published_at payload |}) <$> dict_get url d.
Proof.
  unfold dedup_snippets. induction d as [|[k v] d IH]; simpl; [reflexivity|].
  destruct (decide (k = url)); [reflexivity|exact IH].
Qed.

(** X11.  The entry of the merge for a URL carries the first non-empty
    title among the hits with that URL (or the title of the first of them
    when none has one), the first publication date among them, and their
    non-empty snippets, each once, in the order of first occurrence. *)
Theorem merge_rounds_first_seen_fields (rounds : list (str * list SearchHit))
    (url : str) (payload : Payload) :
  dict_get url (merge_rounds rounds) = Some payload ->
  p_title payload = first_title (hits_of url rounds)
  /\ p_published_at payload = first_published_at (hits_of url rounds)
  /\ p_snippets payload
     = unique_preserve_order (truthy_snippets (hits_of url rounds))
  /\ NoDup (p_snippets payload)
  /\ hits_of url rounds <> [].
Proof.
  unfold merge_rounds. rewrite dedup_snippets_get.
  change (foldl _ [] rounds) with (merge_from [] rounds).
  rewrite merge_from_pairs.
  pose proof (merge_pairs_summarises url (round_pairs rounds)) as Hsum.
  rewrite round_pairs_hits in Hsum. fold (hits_of url rounds) in Hsum.
  destruct (hits_of url rounds) as [|h hs] eqn:Hhits; simpl in Hsum.
  - rewrite Hsum. discriminate.
  - destruct Hsum as (p & -> & Ht & Hd & Hs). simpl. intros [= <-]. simpl.
    rewrite Ht, Hd, Hs. repeat split; try reflexivity.
    + apply unique_from_NoDup.
    + discriminate.
Qed.

Lemma merge_rounds_first_seen_fields_witness :
  exists payload,
    dict_get (hit_url undated_hit) (merge_rounds sample_rounds) = Some payload
    /\ NoDup (p_snippets payload).
Proof.
  destruct (dict_get (hit_url undated_hit) (merge_rounds sample_rounds))
    as [payload|] eqn:Hget; [|discriminate].
  exists payload. split; [reflexivity|].
  apply (merge_rounds_first_seen_fields sample_rounds (hit_url undated_hit)
           payload Hget).
Defined.

(** ** Article records *)

Section ArticleFacts.
Context {W : Type} {E : Env W} {LZ : LocalZone} {U : UnicodeData} {DP : DateParser}.
Variable config : RunConfig.
Variable MEDIA_REGISTRY : str -> option MediaDefinition.

Lemma format_error_artifacts_cases (media_id0 url0 run_id0 : str) (st : state W) :
  match (_format_error_artifacts media_id0 url0 run_id0 st).1 with
  | Ok messages =>
      (exists exc,
          is_Exception exc = true
          /\ messages = [lit "Artifact capture failed: " ++ exn_str exc])
      \/ (exists html,
             messages = [lit "URL: " ++ url0; lit "HTML: " ++ html])
      \/ (exists shot html,
             messages = [lit "URL: " ++ url0; lit "Screenshot: " ++ shot;
                         lit "HTML: " ++ html])
  | Raise exc => is_Exception exc = false
  end.
Proof.
  unfold _format_error_artifacts, try_except, bind, call, ret.
  destruct (write_error_html media_id0 run_id0 (world st)) as [[paths|e] w];
    cbn [fst snd world trace].
  - destruct (driver_save_screenshot paths.2 w) as [[[]|e] w'];
      cbn [fst snd world trace].
    + right. right. eauto.
    + destruct (is_WebDriverException e) eqn:Hwd; cbn [fst snd].
      * right. left. eauto.
      * destruct (is_Exception e) eqn:He; cbn [fst snd]; [left; eauto|exact He].
  - destruct (is_Exception e) eqn:He; cbn [fst snd]; [left; eauto|exact He].
Qed.

(** X12.  [_format_error_artifacts] lets no exception of the class
    [Exception] out.  What it returns is either the single line "Artifact
    capture failed: ..." or the line "URL: ..." followed, when the screenshot
    could be taken, by "Screenshot: ...", and then by "HTML: ...". *)
Theorem format_error_artifacts_contained (media_id0 url0 run_id0 : str) :
  no_Exception_escapes (_format_error_artifacts media_id0 url0 run_id0)
  /\ forall st messages st',
       _format_error_artifacts media_id0 url0 run_id0 st = (Ok messages, st') ->
       (1 <= length messages <= 3)%nat
       /\ ((exists exc,
               messages = [lit "Artifact capture failed: " ++ exn_str exc])
           \/ (head messages = Some (lit "URL: " ++ url0)
               /\ exists html, last messages = Some (lit "HTML: " ++ html))).
Proof.
  split.
  - intros st.
    pose proof (format_error_artifacts_cases media_id0 url0 run_id0 st) as H.
    destruct (_ st).1; [exact I|exact H].
  - intros st messages st' Hrun.
    pose proof (format_error_artifacts_cases media_id0 url0 run_id0 st) as H.
    rewrite Hrun in H. cbn [fst] in H.
    destruct H as [(exc & _ & ->)|[(html & ->)|(shot & html & ->)]];
      (split; [simpl; lia|]); eauto.
Qed.

Lemma article_failed_contained media_id0 url0 run_id0 run_timestamp0 vars exc :
  pause_on_error config = false ->
  no_Exception_escapes
    (article_failed config media_id0 url0 run_id0 run_timestamp0 vars exc).
Proof.
  intros Hpause st. unfold article_failed, bind. rewrite Hpause.
  cbn [ret].
  pose proof (format_error_artifacts_cases media_id0 url0 run_id0 st) as Hfmt.
  destruct (_format_error_artifacts media_id0 url0 run_id0 st) as [[msgs|e] st1];
    [exact I|exact Hfmt].
Qed.

Lemma guarded_contained {A} media_id0 url0 run_id0 run_timestamp0 vars
    (m : M W A) (k : A -> M W ArticleRecord) :
  pause_on_error config = false ->
  (forall a, no_Exception_escapes (k a)) ->
  no_Exception_escapes
    (guarded config media_id0 url0 run_id0 run_timestamp0 vars m k).
Proof.
  intros Hpause Hk st. unfold guarded.
  destruct (m st) as [[a|e] st1]; [apply Hk|].
  destruct (is_Exception e) eqn:He; [|exact He].
  apply article_failed_contained, Hpause.
Qed.

(** X13.  Unless the run is set to pause on errors, no exception of the
    class [Exception] leaves [_process_article]: whatever the browser and the
    page do, the call returns a record or is interrupted. *)
Theorem process_article_contains_exceptions
    (media_id0 url0 : str) (kws : list str) (search_title : option str)
    (search_date : option datetime) (pdf_dir0 run_id0 run_timestamp0 : str)
    (search_snippets : list str) :
  pause_on_error config = false ->
  no_Exception_escapes
    (_process_article config MEDIA_REGISTRY media_id0 url0 kws search_title
       search_date pdf_dir0 run_id0 run_timestamp0 search_snippets).
Proof.
  intros Hpause. unfold _process_article.
  repeat (apply guarded_contained; [exact Hpause|intros ?]).
  destruct (match_keywords kws _) as [|kw matched]; [intros st; exact I|].
  apply guarded_contained; [exact Hpause|intros ?]. intros st. exact I.
Qed.

Lemma guarded_cases {A} media_id0 url0 run_id0 run_timestamp0 vars
    (m : M W A) (k : A -> M W ArticleRecord) st r st' :
  guarded config media_id0 url0 run_id0 run_timestamp0 vars m k st = (Ok r, st') ->
  (exists a st1, m st = (Ok a, st1) /\ k a st1 = (Ok r, st'))
  \/ (exists errs,
         r = record_of media_id0 url0 run_id0 run_timestamp0 vars []
               StatusFailed errs).
Proof.
  unfold guarded. destruct (m st) as [[a|e] st1]; [eauto|].
  destruct (is_Exception e); [|discriminate].
  unfold article_failed, bind.
  destruct ((if pause_on_error config then _pause else ret tt) st1)
    as [[[]|e'] st2]; [|discriminate].
  destruct (_format_error_artifacts _ _ _ st2) as [[artifacts|e'] st3];
    [|discriminate].
  unfold ret. intros [= <- <-]. eauto.
Qed.

Lemma truthy_pdf_path media_id0 pdf_dir0 safe_title :
  truthy (pdf_path_of media_id0 pdf_dir0 safe_title) = true.
Proof. unfold pdf_path_of. destruct pdf_dir0; reflexivity. Qed.

Lemma snippet_text_of_length text : (length (snippet_text_of text) <= 200)%nat.
Proof.
  unfold snippet_text_of, slice_to. simpl. rewrite length_take. lia.
Qed.

Lemma locals_initial search_title search_snippets :
  locals_invariant search_title search_snippets
    {| l_title := search_title; l_published_at := None;
       l_date_unknown := true; l_snippets := search_snippets;
       l_pdf_path := None |}.
Proof.
  unfold locals_invariant. simpl. repeat split; auto.
  destruct search_snippets; auto.
Qed.

Lemma locals_title search_title search_snippets vars detected_title :
  locals_invariant search_title search_snippets vars ->
  locals_invariant search_title search_snippets
    (if truthy_opt detected_title
     then {| l_title := detected_title; l_published_at := l_published_at vars;
             l_date_unknown := l_date_unknown vars;
             l_snippets := l_snippets vars; l_pdf_path := l_pdf_path vars |}
     else vars).
Proof.
  intros Hinv. destruct (truthy_opt detected_title) eqn:Ht; [|exact Hinv].
  destruct Hinv as (Hd & Hp & _ & Hs). unfold locals_invariant. simpl. auto.
Qed.

Lemma locals_published_at search_title search_snippets vars text :
  locals_invariant search_title search_snippets vars ->
  locals_invariant search_title search_snippets
    (with_published_at vars (Some text)).
Proof.
  intros (Hd & Hp & Ht & Hs). unfold locals_invariant, with_published_at.
  simpl. repeat split; auto; discriminate.
Qed.

(** The locals after [if detected_date: ... elif search_date: ...]. *)
Lemma locals_date search_title search_snippets vars
    (detected_date : option str) (search_date : option datetime)
    (s s1 : state W) (vars' : article_locals) :
  locals_invariant search_title search_snippets vars ->
  (if truthy_opt detected_date
   then ret (with_published_at vars detected_date)
   else
     match search_date with
     | Some d =>
         utc <- lift_result (astimezone_utc d) ;;
         ret (with_published_at vars (Some (isoformat utc)))
     | None => ret vars
     end) s = (Ok vars', s1) ->
  locals_invariant search_title search_snippets vars'.
Proof.
  intros Hinv. destruct detected_date as [text|]; cbn [truthy_opt].
  - destruct (truthy text).
    + unfold ret. intros [= <- _]. apply locals_published_at, Hinv.
    + destruct search_date as [d|]; [|unfold ret; intros [= <- _]; exact Hinv].
      unfold bind, lift_result.
      destruct (astimezone_utc d) as [utc|e]; [|discriminate].
      unfold ret. intros [= <- _]. apply locals_published_at, Hinv.
  - destruct search_date as [d|]; [|unfold ret; intros [= <- _]; exact Hinv].
    unfold bind, lift_result.
    destruct (astimezone_utc d) as [utc|e]; [|discriminate].
    unfold ret. intros [= <- _]. apply locals_published_at, Hinv.
Qed.

Lemma locals_snippet search_title search_snippets vars visible_text :
  locals_invariant search_title search_snippets vars ->
  locals_invariant search_title search_snippets
    (match l_snippets vars with
     | [] =>
         if truthy visible_text && truthy (snippet_text_of visible_text)
         then {| l_title := l_title vars; l_published_at := l_published_at vars;
                 l_date_unknown := l_date_unknown vars;
                 l_snippets := [snippet_text_of visible_text];
                 l_pdf_path := l_pdf_path vars |}
         else vars
     | _ :: _ => vars
     end).
Proof.
  intros Hinv. pose proof Hinv as (Hd & Hp & Ht & Hs).
  destruct (l_snippets vars) as [|s rest] eqn:Hsn; [|exact Hinv].
  destruct (truthy visible_text && truthy (snippet_text_of visible_text))
    eqn:Htext; [|exact Hinv].
  unfold locals_invariant. cbn [l_title l_published_at l_date_unknown
                                 l_snippets l_pdf_path].
  repeat split; auto; try tauto.
  destruct search_snippets as [|s0 rest0]; [|discriminate].
  right. exists (snippet_text_of visible_text). split; [reflexivity|].
  split; [|apply snippet_text_of_length].
  apply andb_true_iff in Htext as [_ Htext].
  intros Hnil. rewrite Hnil in Htext. discriminate.
Qed.

Lemma locals_pdf_none search_title search_snippets vars :
  locals_invariant search_title search_snippets vars ->
  locals_invariant search_title search_snippets (with_pdf_path vars None).
Proof. intros (Hd & Hp & Ht & Hs). unfold locals_invariant. simpl. auto. Qed.

Lemma record_of_not_ok media_id0 url0 search_title pdf_dir0 run_id0 run_timestamp0
    search_snippets vars matched s errs :
  locals_invariant search_title search_snippets vars ->
  s <> StatusOk ->
  record_fields media_id0 url0 search_title pdf_dir0 run_id0 run_timestamp0
    search_snippets
    (record_of media_id0 url0 run_id0 run_timestamp0 vars matched s errs).
Proof.
  intros (Hd & Hp & Ht & Hs) Hstatus. unfold record_fields, record_of.
  cbn [run_id run_timestamp media url title published_at date_unknown
       matched_keywords snippets per_article_pdf_path status errors].
  repeat split; auto; try tauto.
  destruct s; [contradiction|exact Hp|exact Hp].
Qed.

(** A statement of the [try] block whose result has the property [P]. *)
Lemma guarded_record {A} media_id0 url0 search_title pdf_dir0 run_id0
    run_timestamp0 search_snippets vars
    (m : M W A) (k : A -> M W ArticleRecord) (P : A -> Prop) st r st' :
  locals_invariant search_title search_snippets vars ->
  (forall s a s1, m s = (Ok a, s1) -> P a) ->
  (forall a, P a -> forall st1,
      k a st1 = (Ok r, st') ->
      record_fields media_id0 url0 search_title pdf_dir0 run_id0 run_timestamp0
        search_snippets r) ->
  guarded config media_id0 url0 run_id0 run_timestamp0 vars m k st = (Ok r, st') ->
  record_fields media_id0 url0 search_title pdf_dir0 run_id0 run_timestamp0
    search_snippets r.
Proof.
  intros Hinv Hm Hk Hrun.
  apply guarded_cases in Hrun as [(a & st1 & Hstep & Hrun)|(errs & ->)].
  - exact (Hk a (Hm _ _ _ Hstep) st1 Hrun).
  - apply record_of_not_ok; [exact Hinv|discriminate].
Qed.

Ltac locals :=
  repeat match goal with
    | H : locals_invariant _ _ ?v |- locals_invariant _ _ ?v => exact H
    | |- locals_invariant _ _ (with_pdf_path ?v None) =>
        apply (locals_pdf_none _ _ v)
    | |- locals_invariant _ _ (match l_snippets ?v with _ => _ end) =>
        apply (locals_snippet _ _ v)
    | |- locals_invariant _ _ (if truthy_opt ?d then _ else ?v) =>
        apply (locals_title _ _ v d)
    | |- locals_invariant _ _ {| l_title := _; l_published_at := None;
                                 l_date_unknown := _; l_snippets := _;
                                 l_pdf_path := _ |} => apply locals_initial
    end.

Ltac guarded_step search_title search_snippets pdf_dir0 :=
  apply guarded_record with (pdf_dir0 := pdf_dir0) (search_title := search_title)
                            (search_snippets := search_snippets)
                            (P := fun _ => True);
  [locals|intros ? ? ? _; exact I|intros ? _].

Lemma process_article_record
    (media_id0 url0 : str) (kws : list str) (search_title : option str)
    (search_date : option datetime) (pdf_dir0 run_id0 run_timestamp0 : str)
    (search_snippets : list str) (st st' : state W) (r : ArticleRecord) :
  _process_article config MEDIA_REGISTRY media_id0 url0 kws search_title
    search_date pdf_dir0 run_id0 run_timestamp0 search_snippets st = (Ok r, st') ->
  record_fields media_id0 url0 search_title pdf_dir0 run_id0 run_timestamp0
    search_snippets r.
Proof.
  revert st. unfold _process_article.
  do 5 (intros ?; guarded_step search_title search_snippets pdf_dir0).
  intros ?.
  apply guarded_record with (pdf_dir0 := pdf_dir0) (search_title := search_title)
                            (search_snippets := search_snippets)
                            (P := locals_invariant search_title search_snippets);
    [locals|intros s vars' s1; apply locals_date; locals|intros vars' Hvars'].
  do 3 (intros ?; guarded_step search_title search_snippets pdf_dir0).
  intros stk.
  destruct (match_keywords kws _) as [|kw matched] eqn:Hmatch.
  - unfold ret. intros [= <- <-].
    apply record_of_not_ok; [locals|discriminate].
  - guarded_step search_title search_snippets pdf_dir0.
    intros stp. unfold ret. intros [= <- <-].
    match goal with
    | |- context [record_of _ _ _ _ (with_pdf_path ?v _) _ _ _] =>
        assert (Hinv : locals_invariant search_title search_snippets v)
          by locals;
        destruct Hinv as (Hd & Hp & Ht & Hs)
    end.
    unfold record_fields, record_of, with_pdf_path.
    cbn [run_id run_timestamp media url title published_at date_unknown
         matched_keywords snippets per_article_pdf_path status errors
         l_title l_published_at l_date_unknown l_snippets l_pdf_path].
    repeat split; auto; tauto.
Qed.

(** X14.  The record [_process_article] returns carries the run id, the
    run timestamp, the media and the URL it was called with; its date is
    marked unknown exactly when no publication date is recorded; and it has a
    PDF path exactly when its status is ok, the path then being
    [pdf_dir/media_safetitle.pdf] for the safe file name of the title, or of
    the URL when there is no title. *)
Theorem process_article_record_fields
    (media_id0 url0 : str) (kws : list str) (search_title : option str)
    (search_date : option datetime) (pdf_dir0 run_id0 run_timestamp0 : str)
    (search_snippets : list str) (st st' : state W) (r : ArticleRecord) :
  _process_article config MEDIA_REGISTRY media_id0 url0 kws search_title
    search_date pdf_dir0 run_id0 run_timestamp0 search_snippets st = (Ok r, st') ->
  run_id r = run_id0 /\ run_timestamp r = run_timestamp0
  /\ media r = media_id0 /\ url r = url0
  /\ (date_unknown r = true <-> published_at r = None)
  /\ (is_Some (per_article_pdf_path r) <-> status r = StatusOk)
  /\ (status r = StatusOk ->
      per_article_pdf_path r
      = Some (pdf_dir0 ++ lit "/" ++ media_id0 ++ lit "_"
              ++ safe_filename (match title r with
                                | Some t => if truthy t then t else url0
                                | None => url0
                                end) 120
              ++ lit ".pdf")).
Proof.
  intros Hrun. apply process_article_record in Hrun.
  destruct Hrun as ((Hid & Hts & Hm & Hu) & Hdate & Hpdf & _).
  repeat split; try assumption; try tauto.
  - rewrite Hpdf. destruct (status r); [reflexivity| |];
      intros [? [=]].
  - intros Hst. rewrite Hpdf, Hst. eauto.
  - intros Hst. rewrite Hpdf, Hst. reflexivity.
Qed.

(** A statement of the [try] block, by what it does. *)
Lemma guarded_outcomes {A} media_id0 url0 run_id0 run_timestamp0 vars
    (m : M W A) (k : A -> M W ArticleRecord) st r st' :
  guarded config media_id0 url0 run_id0 run_timestamp0 vars m k st = (Ok r, st') ->
  (exists a st1, m st = (Ok a, st1) /\ k a st1 = (Ok r, st'))
  \/ (exists e st1 errs,
         m st = (Raise e, st1)
         /\ r = record_of media_id0 url0 run_id0 run_timestamp0 vars []
                   StatusFailed errs).
Proof.
  unfold guarded. destruct (m st) as [[a|e] st1]; [eauto|].
  destruct (is_Exception e); [|discriminate].
  unfold article_failed, bind.
  destruct ((if pause_on_error config then _pause else ret tt) st1)
    as [[[]|e'] st2]; [|discriminate].
  destruct (_format_error_artifacts _ _ _ st2) as [[artifacts|e'] st3];
    [|discriminate].
  unfold ret. intros [= <- <-]. eauto 6.
Qed.

(** A statement of the [try] block that leaves the local [title] as it
    is. *)
Lemma guarded_title {A} media_id0 url0 run_id0 run_timestamp0 vars
    (m : M W A) (k : A -> M W ArticleRecord) (P : A -> Prop)
    (shown : option str) st r st' :
  l_title vars = shown ->
  (forall s a s1, m s = (Ok a, s1) -> P a) ->
  (forall a, P a -> forall st1, k a st1 = (Ok r, st') -> title r = shown) ->
  guarded config media_id0 url0 run_id0 run_timestamp0 vars m k st = (Ok r, st') ->
  title r = shown.
Proof.
  intros Hvars Hm Hk Hrun.
  apply guarded_cases in Hrun as [(a & st1 & Hstep & Hrun)|(errs & ->)].
  - exact (Hk a (Hm _ _ _ Hstep) st1 Hrun).
  - exact Hvars.
Qed.

(** The local [title] after [if detected_date: ... elif search_date: ...]. *)
Lemma title_date vars (detected_date : option str)
    (search_date : option datetime) (s s1 : state W) (vars' : article_locals) :
  (if truthy_opt detected_date
   then ret (with_published_at vars detected_date)
   else
     match search_date with
     | Some d =>
         utc <- lift_result (astimezone_utc d) ;;
         ret (with_published_at vars (Some (isoformat utc)))
     | None => ret vars
     end) s = (Ok vars', s1) ->
  l_title vars' = l_title vars.
Proof.
  destruct (truthy_opt detected_date).
  - unfold ret. intros [= <- _]. reflexivity.
  - destruct search_date as [d|]; [|unfold ret; intros [= <- _]; reflexivity].
    unfold bind, lift_result.
    destruct (astimezone_utc d) as [utc|e]; [|discriminate].
    unfold ret. intros [= <- _]. reflexivity.
Qed.

Lemma title_snippet vars visible_text :
  l_title
    (match l_snippets vars with
     | [] =>
         if truthy visible_text && truthy (snippet_text_of visible_text)
         then {| l_title := l_title vars; l_published_at := l_published_at vars;
                 l_date_unknown := l_date_unknown vars;
                 l_snippets := [snippet_text_of visible_text];
                 l_pdf_path := l_pdf_path vars |}
         else vars
     | _ :: _ => vars
     end)
  = l_title vars.
Proof.
  destruct (l_snippets vars); [|reflexivity].
  destruct (truthy visible_text && truthy (snippet_text_of visible_text));
    reflexivity.
Qed.

Ltac title_step shown :=
  apply guarded_title with (shown := shown) (P := fun _ => True);
  [try assumption|intros ? ? ? _; exact I|intros ? _].

(** Once the title of the page has been looked at, the local [title] is
    the title of the record. *)
Lemma process_article_title_kept
    (media_id0 url0 : str) (kws : list str) (search_date : option datetime)
    (pdf_dir0 run_id0 run_timestamp0 : str) (vars : article_locals)
    (rest : article_locals -> M W ArticleRecord) :
  (rest = fun vars =>
     guarded config media_id0 url0 run_id0 run_timestamp0 vars
       (html <- call driver_page_source ;; lift_result (_extract_date html))
       (fun detected_date =>
     guarded config media_id0 url0 run_id0 run_timestamp0 vars
       (if truthy_opt detected_date
        then ret (with_published_at vars detected_date)
        else
          match search_date with
          | Some d =>
              utc <- lift_result (astimezone_utc d) ;;
              ret (with_published_at vars (Some (isoformat utc)))
          | None => ret vars
          end)
       (fun vars =>
     guarded config media_id0 url0 run_id0 run_timestamp0 vars
       (match MEDIA_REGISTRY media_id0 with
        | Some _ => dump_page config media_id0 (lit "article") url0
        | None => raise (KeyError media_id0)
        end) (fun _ =>
     guarded config media_id0 url0 run_id0 run_timestamp0 vars
       (if pause config then _pause else ret tt) (fun _ =>
     guarded config media_id0 url0 run_id0 run_timestamp0 vars
       extract_visible_text (fun visible_text =>
     let matched := match_keywords kws visible_text in
     let vars :=
       match l_snippets vars with
       | [] =>
           if truthy visible_text && truthy (snippet_text_of visible_text)
           then {| l_title := l_title vars;
                   l_published_at := l_published_at vars;
                   l_date_unknown := l_date_unknown vars;
                   l_snippets := [snippet_text_of visible_text];
                   l_pdf_path := l_pdf_path vars |}
           else vars
       | _ :: _ => vars
       end in
     match matched with
     | [] =>
         ret (record_of media_id0 url0 run_id0 run_timestamp0
                (with_pdf_path vars None) [] StatusSkipped [NO_MATCH_MESSAGE])
     | _ :: _ =>
         let safe_title :=
           safe_filename (title_or_url url0 (l_title vars)) DEFAULT_MAX_LEN in
         let pdf_path := pdf_path_of media_id0 pdf_dir0 safe_title in
         guarded config media_id0 url0 run_id0 run_timestamp0 vars
           (call (driver_print_pdf pdf_path)) (fun _ =>
         let vars := with_pdf_path vars (Some pdf_path) in
         ret (record_of media_id0 url0 run_id0 run_timestamp0 vars matched
                StatusOk []))
     end)))))) ->
  forall st r st', rest vars st = (Ok r, st') -> title r = l_title vars.
Proof.
  intros -> st r st'. set (shown := l_title vars).
  assert (Hshown : l_title vars = shown) by reflexivity. clearbody shown.
  revert st.
  intros ?. title_step shown.
  intros ?.
  apply guarded_title with (shown := shown)
                           (P := fun vars' => l_title vars' = shown);
    [exact Hshown
    |intros s vars' s1 Hdate; rewrite (title_date _ _ _ _ _ _ Hdate); exact Hshown
    |intros vars' Hvars'].
  do 3 (intros ?; title_step shown).
  intros stk.
  destruct (match_keywords kws _) as [|kw matched] eqn:Hmatch.
  - unfold ret. intros [= <- <-].
    unfold record_of, with_pdf_path. cbn [title l_title].
    rewrite title_snippet. exact Hvars'.
  - apply guarded_title with (shown := shown) (P := fun _ => True);
      [rewrite title_snippet; exact Hvars'|intros ? ? ? _; exact I|intros ? _].
    intros stp. unfold ret. intros [= <- <-].
    unfold record_of, with_pdf_path. cbn [title l_title].
    rewrite title_snippet. exact Hvars'.
Qed.

(** X15.  The title of the record is the title the page gave when that is
    not empty, and the title of the search hit otherwise, also when the
    page could not be loaded.  The record keeps the snippets of the search
    hits when there are any; when there are none it has at most one
    snippet, not empty and of at most 200 characters. *)
Theorem process_article_title_snippets
    (media_id0 url0 : str) (kws : list str) (search_title : option str)
    (search_date : option datetime) (pdf_dir0 run_id0 run_timestamp0 : str)
    (search_snippets : list str) (st st' : state W) (r : ArticleRecord) :
  _process_article config MEDIA_REGISTRY media_id0 url0 kws search_title
    search_date pdf_dir0 run_id0 run_timestamp0 search_snippets st = (Ok r, st') ->
  title r = match page_title url0 st with
            | Some detected_title =>
                if truthy detected_title then Some detected_title
                else search_title
            | None => search_title
            end
  /\ (search_snippets <> [] -> snippets r = search_snippets)
  /\ (search_snippets = [] ->
      snippets r = []
      \/ exists s, snippets r = [s] /\ s <> [] /\ (length s <= 200)%nat).
Proof.
  intros Hrun. split.
  - clear -Hrun. unfold _process_article in Hrun. unfold page_title.
    apply guarded_outcomes in Hrun
      as [(a1 & st1 & Hstep & Hrun)|(e & st1 & errs & Hstep & ->)];
      rewrite Hstep; [|reflexivity].
    apply guarded_outcomes in Hrun
      as [(a2 & st2 & Hstep2 & Hrun)|(e & st2 & errs & Hstep2 & ->)];
      rewrite Hstep2; [|reflexivity].
    apply guarded_outcomes in Hrun
      as [(a3 & st3 & Hstep3 & Hrun)|(e & st3 & errs & Hstep3 & ->)];
      rewrite Hstep3; [|reflexivity].
    apply guarded_outcomes in Hrun
      as [(detected & st4 & Hstep4 & Hrun)|(e & st4 & errs & Hstep4 & ->)];
      rewrite Hstep4; [|reflexivity].
    cbv zeta in Hrun.
    erewrite (process_article_title_kept media_id0 url0 kws search_date
                pdf_dir0 run_id0 run_timestamp0 _ _ eq_refl _ _ _ Hrun).
    destruct detected as [t|]; cbn [truthy_opt]; [|reflexivity].
    destruct (truthy t); reflexivity.
  - apply process_article_record in Hrun.
    destruct Hrun as (_ & _ & _ & _ & Hsn).
    split.
    + intros Hne. destruct search_snippets; [contradiction|exact Hsn].
    + intros ->. exact Hsn.
Qed.

End ArticleFacts.

Lemma format_error_artifacts_contained_witness :
  exists messages st',
    @_format_error_artifacts unit offline_env (lit "rtl.lu")
      (lit "https://rtl.lu/news/article-1") (lit "run") initial_state
    = (Ok messages, st')
    /\ (1 <= length messages <= 3)%nat.
Proof.
  match goal with
  | |- exists messages st', ?run = _ /\ _ =>
      assert (Hok : returned run = true) by (vm_compute; reflexivity);
      destruct run as [[messages|e] st'] eqn:Hrun; [|discriminate Hok]
  end.
  exists messages, st'. split; [reflexivity|].
  apply (proj2 (@format_error_artifacts_contained unit offline_env
                  (lit "rtl.lu") (lit "https://rtl.lu/news/article-1")
                  (lit "run")) _ _ _ Hrun).
Defined.

Lemma process_article_contains_exceptions_witness :
  no_Exception_escapes
    (@_process_article unit offline_env utc_zone latin1_ucd toy_date_parser
       sample_config sample_registry (lit "rtl.lu")
       (lit "https://rtl.lu/news/article-1") (keywords sample_config)
       None None (lit "out/pdfs") (lit "run") (lit "now") []).
Proof.
  apply (@process_article_contains_exceptions unit offline_env utc_zone
           latin1_ucd toy_date_parser sample_config sample_registry).
  reflexivity.
Defined.

Lemma process_article_record_fields_witness :
  exists r st',
    sample_article_run = (Ok r, st')
    /\ (is_Some (per_article_pdf_path r) <-> status r = StatusOk)
    /\ media r = lit "rtl.lu".
Proof.
  destruct sample_article_run as [[r|e] st'] eqn:Hrun;
    [|vm_compute in Hrun; discriminate].
  exists r, st'. split; [reflexivity|].
  pose proof Hrun as Hrun'. unfold sample_article_run in Hrun'.
  destruct (@process_article_record_fields unit offline_env utc_zone latin1_ucd
              toy_date_parser sample_config sample_registry _ _ _ _ _ _ _ _ _
              _ _ _ Hrun') as (_ & _ & Hmedia & _ & _ & Hpdf & _).
  split; [exact Hpdf|exact Hmedia].
Defined.

Lemma process_article_title_snippets_witness :
  exists r st',
    sample_article_run = (Ok r, st')
    /\ title r = Some (lit "Place financiere")
    /\ (snippets r = []
        \/ exists s, snippets r = [s] /\ s <> [] /\ (length s <= 200)%nat).
Proof.
  destruct sample_article_run as [[r|e] st'] eqn:Hrun;
    [|vm_compute in Hrun; discriminate].
  exists r, st'. split; [reflexivity|].
  pose proof Hrun as Hrun'. unfold sample_article_run in Hrun'.
  destruct (@process_article_title_snippets unit offline_env utc_zone latin1_ucd
              toy_date_parser sample_config sample_registry _ _ _ _ _ _ _ _ _
              _ _ _ Hrun') as (Htitle & _ & Hsn).
  split; [exact Htitle|apply Hsn; reflexivity].
Defined.

(** ** The loop over the results of a media *)

Section RunFacts.
Context {W : Type} {E : Env W} {LZ : LocalZone} {U : UnicodeData} {DP : DateParser}.
Variable config : RunConfig.
Variable MEDIA_REGISTRY : str -> option MediaDefinition.

Lemma failed_errors_app records records' :
  failed_errors (records ++ records')
  = failed_errors records ++ failed_errors records'.
Proof. unfold failed_errors. apply flat_map_app. Qed.

Lemma process_results_outcome media_id0 pdf_dir0 run_id0 run_timestamp0
    results acc st o st' :
  process_results config MEDIA_REGISTRY media_id0 pdf_dir0 run_id0
    run_timestamp0 results acc st = (Ok o, st') ->
  exists records,
    o_records o = o_records acc ++ records
    /\ map url records = results.*1
    /\ Forall (fun r => media r = media_id0 /\ run_id r = run_id0
                        /\ run_timestamp r = run_timestamp0) records
    /\ o_pdf_paths o = o_pdf_paths acc ++ omap per_article_pdf_path records
    /\ ms_media (o_status o) = ms_media (o_status acc)
    /\ ms_errors (o_status o) = ms_errors (o_status acc) ++ failed_errors records
    /\ ms_status (o_status o)
       = (if existsb is_failed records then MediaPartial
          else ms_status (o_status acc)).
Proof.
  revert acc st.
  induction results as [|[u payload] rest IH]; intros acc st;
    cbn [process_results].
  - unfold ret. intros [= <- <-]. exists [].
    rewrite !app_nil_r. repeat split; auto.
  - unfold bind, emit.
    destruct (_process_article _ _ _ _ _ _ _ _ _ _ _ st)
      as [[record|e] st1] eqn:Harticle; [|discriminate].
    intros Hrest. apply IH in Hrest as (records & Hrec & Hurls & Hall & Hpdf
                                          & Hmedia & Herr & Hstatus).
    cbn [o_records o_pdf_paths o_status] in *.
    apply process_article_record in Harticle
      as ((Hid & Hts & Hm & Hu) & _ & Hpath & _).
    exists (record :: records).
    split; [rewrite Hrec, <- app_assoc; reflexivity|].
    split; [cbn; rewrite Hu, Hurls; reflexivity|].
    split; [constructor; auto|].
    split.
    { rewrite Hpdf. change (record :: records) with ([record] ++ records).
      rewrite omap_app, app_assoc. f_equal.
      assert (Hone : omap per_article_pdf_path [record]
                     = match per_article_pdf_path record with
                       | Some path => [path]
                       | None => []
                       end) by reflexivity.
      rewrite Hone, Hpath.
      destruct (status record); rewrite ?truthy_pdf_path, ?app_nil_r;
        reflexivity. }
    split; [rewrite Hmedia; destruct (status record); reflexivity|].
    split.
    { rewrite Herr. unfold failed_errors at 2. cbn [flat_map].
      fold (failed_errors records).
      destruct (status record); cbn [ms_errors app];
        rewrite <- ?app_assoc; reflexivity. }
    rewrite Hstatus. cbn [existsb]. unfold is_failed at 2.
    destruct (status record); cbn [ms_status orb];
      destruct (existsb is_failed records); reflexivity.
Qed.

Lemma run_media_cases pdf_dir0 run_id0 run_timestamp0 media_id0 st o st' :
  run_media config MEDIA_REGISTRY pdf_dir0 run_id0 run_timestamp0 media_id0 st
    = (Ok o, st') ->
  ms_media (o_status o) = media_id0
  /\ Forall (fun r => media r = media_id0 /\ run_id r = run_id0
                      /\ run_timestamp r = run_timestamp0) (o_records o)
  /\ o_pdf_paths o = omap per_article_pdf_path (o_records o)
  /\ (o_records o <> [] -> is_Some (MEDIA_REGISTRY media_id0))
  /\ (MEDIA_REGISTRY media_id0 = None ->
      ms_status (o_status o) = MediaFailed
      /\ ms_errors (o_status o) = [str_repr (lit "Unknown media: " ++ media_id0)])
  /\ match ms_status (o_status o) with
     | MediaFailed =>
         o_records o = [] /\ length (ms_errors (o_status o)) = 1%nat
     | MediaPartial =>
         existsb is_failed (o_records o) = true
         /\ ms_errors (o_status o) = failed_errors (o_records o)
     | MediaOk =>
         existsb is_failed (o_records o) = false
         /\ ms_errors (o_status o) = []
     end.
Proof.
  unfold run_media, bind.
  destruct (_notify _ _ _ st) as [[[]|e] st1]; [|discriminate].
  unfold _get_scraper.
  destruct (MEDIA_REGISTRY media_id0) as [definition|] eqn:Hreg.
  - destruct (try_except _ _ _ st1) as [[[results|exc]|e] st2]; [| |discriminate].
    + destruct (process_results _ _ _ _ _ _ _ _ st2) as [[outcome|e] st3] eqn:Hres;
        [|discriminate].
      destruct (_notify _ _ _ st3) as [[[]|e] st4]; [|discriminate].
      unfold ret. intros [= <- <-].
      apply process_results_outcome in Hres
        as (records & Hrec & _ & Hall & Hpdf & Hmedia & Herr & Hstatus).
      cbn [o_records o_pdf_paths o_status ms_media ms_errors ms_status app]
        in *.
      rewrite Hrec, Hstatus, Herr. repeat split; auto; try discriminate.
      destruct (existsb is_failed records) eqn:Hfailed; [auto|].
      split; [reflexivity|].
      unfold failed_errors. clear -Hfailed.
      induction records as [|r records IH]; [reflexivity|].
      cbn [existsb] in Hfailed. apply orb_false_iff in Hfailed as [Hr Hrest].
      cbn [flat_map]. rewrite (IH Hrest), app_nil_r.
      unfold is_failed in Hr. destruct (status r); [reflexivity|reflexivity|discriminate].
    + destruct (_notify _ _ _ st2) as [[[]|e] st3]; [|discriminate].
      unfold ret. intros [= <- <-]. cbn.
      repeat split; auto; try discriminate;
        try (intros Hne; exfalso; apply Hne; reflexivity).
  - cbn [is_KeyError].
    destruct (_notify _ _ _ st1) as [[[]|e] st2]; [|discriminate].
    unfold ret. intros [= <- <-]. cbn.
      repeat split; auto; try discriminate;
        try (intros Hne; exfalso; apply Hne; reflexivity).
Qed.

(** X16.  The outcome of one media of a run: its records all carry the
    media, the run id and the run timestamp; its PDF paths are those of its
    records, in order; a media that is not in the registry has status failed
    and as its error the [repr] of the text "Unknown media: " followed by
    the media, which is what [str] gives for the [KeyError]; with status
    failed there is no record and one error line; with status partial some
    record failed and the errors are those of the failed records; with
    status ok no record failed and there is no error. *)
Theorem run_media_outcome
    (pdf_dir0 run_id0 run_timestamp0 media_id0 : str) (st st' : state W)
    (o : media_outcome) :
  run_media config MEDIA_REGISTRY pdf_dir0 run_id0 run_timestamp0 media_id0 st
    = (Ok o, st') ->
  ms_media (o_status o) = media_id0
  /\ Forall (fun r => media r = media_id0 /\ run_id r = run_id0
                      /\ run_timestamp r = run_timestamp0) (o_records o)
  /\ o_pdf_paths o = omap per_article_pdf_path (o_records o)
  /\ (MEDIA_REGISTRY media_id0 = None ->
      ms_status (o_status o) = MediaFailed
      /\ ms_errors (o_status o) = [str_repr (lit "Unknown media: " ++ media_id0)])
  /\ match ms_status (o_status o) with
     | MediaFailed =>
         o_records o = [] /\ length (ms_errors (o_status o)) = 1%nat
     | MediaPartial =>
         existsb is_failed (o_records o) = true
         /\ ms_errors (o_status o) = failed_errors (o_records o)
     | MediaOk =>
         existsb is_failed (o_records o) = false
         /\ ms_errors (o_status o) = []
     end.
Proof.
  intros Hrun. apply run_media_cases in Hrun. tauto.
Qed.

Lemma run_medias_records pdf_dir0 run_id0 run_timestamp0 media_ids
    records statuses pdfs st records' statuses' pdfs' st' :
  run_medias config MEDIA_REGISTRY pdf_dir0 run_id0 run_timestamp0 media_ids
    records statuses pdfs st = (Ok (records', statuses', pdfs'), st') ->
  exists new,
    records' = records ++ new
    /\ pdfs' = pdfs ++ omap per_article_pdf_path new
    /\ Forall (fun r => run_id r = run_id0 /\ run_timestamp r = run_timestamp0
                        /\ media r ∈ media_ids
                        /\ is_Some (MEDIA_REGISTRY (media r))) new.
Proof.
  revert records statuses pdfs st.
  induction media_ids as [|media_id0 rest IH]; intros records statuses pdfs st;
    cbn [run_medias].
  - unfold ret. intros [= <- <- <- _]. exists [].
    rewrite !app_nil_r. auto.
  - unfold bind.
    destruct (run_media _ _ _ _ _ _ st) as [[outcome|e] st1] eqn:Hmedia;
      [|discriminate].
    intros Hrest. apply IH in Hrest as (new & -> & -> & Hnew).
    apply run_media_cases in Hmedia as (_ & Hall & Hpdf & Hreg & _ & _).
    exists (o_records outcome ++ new).
    rewrite omap_app, Hpdf, <- !app_assoc. split; [reflexivity|].
    split; [reflexivity|]. apply Forall_app. split.
    + apply Forall_forall. intros r Hin.
      rewrite Forall_forall in Hall. destruct (Hall r Hin) as (Hm & Hid & Hts).
      rewrite Hm. split; [exact Hid|]. split; [exact Hts|].
      split; [apply elem_of_cons; auto|].
      apply Hreg. intros Hnil. rewrite Hnil in Hin. inversion Hin.
    + eapply Forall_impl; [exact Hnew|]. cbv beta.
      intros r (Hid & Hts & Hin & Hreg'). repeat split; auto.
      apply elem_of_cons. auto.
Qed.

(** X17.  Every record of a run that returns carries the id and the
    timestamp of the run, and belongs to a media that is configured and is
    in the registry. *)
Theorem run_job_records (job_name : option str) (st st' : state W)
    (rr : RunResult) :
  run_job config MEDIA_REGISTRY job_name st = (Ok rr, st') ->
  Forall (fun r => run_id r = rr_run_id rr
                   /\ run_timestamp r = rr_run_timestamp rr
                   /\ media r ∈ medias config
                   /\ is_Some (MEDIA_REGISTRY (media r)))
         (rr_records rr).
Proof.
  unfold run_job, bind, call, read, try_finally.
  destruct (generate_run_id job_name (world st)) as [rid w0].
  cbn [world trace].
  destruct (make_run_dirs rid w0) as [[dirs|e] w1]; [|discriminate].
  cbn [world trace].
  destruct (create_driver w1) as [[[]|e] w2]; [|discriminate].
  destruct (run_medias _ _ _ _ _ _ _ _ _ _) as [[[[records statuses] pdfs]|e] st1]
    eqn:Hmedias.
  - cbn [world trace].
    destruct (driver_quit (world st1)) as [[[]|e] w3]; [|discriminate].
    cbn [world trace fst snd].
    destruct (write_run_outputs _ _ _ _ w3) as [[[]|e] w4]; [|discriminate].
    unfold ret. intros [= <- <-]. cbn [rr_records rr_run_id rr_run_timestamp].
    apply run_medias_records in Hmedias as (new & -> & _ & Hnew). exact Hnew.
  - cbn [world trace].
    destruct (driver_quit (world st1)) as [[[]|e'] w3]; discriminate.
Qed.

End RunFacts.

Lemma run_media_outcome_witness :
  exists o st',
    paged_media_run = (Ok o, st')
    /\ o_records o <> []
    /\ o_pdf_paths o = omap per_article_pdf_path (o_records o).
Proof.
  destruct paged_media_run as [[o|e] st'] eqn:Hrun;
    [|vm_compute in Hrun; discriminate].
  exists o, st'. split; [reflexivity|].
  pose proof Hrun as Hrun'. unfold paged_media_run in Hrun'.
  destruct (@run_media_outcome nat paged_env utc_zone latin1_ucd
              toy_date_parser (paged_config 2) sample_registry _ _ _ _ _ _ _
              Hrun') as (_ & _ & Hpdf & _ & _).
  split; [|exact Hpdf].
  vm_compute in Hrun. injection Hrun as <- _. discriminate.
Defined.

(** A media that is not in the registry and whose name has an apostrophe:
    the message of the [KeyError] comes in double quotes. *)
Example unknown_media_quoting :
  (@run_media unit offline_env utc_zone latin1_ucd toy_date_parser
     sample_config sample_registry (lit "run/pdfs") (lit "run") (lit "now")
     (lit "l'x.lu") initial_state).1
  = Ok {| o_status :=
            {| ms_media := lit "l'x.lu"; ms_status := MediaFailed;
               ms_errors := [[34] ++ lit "Unknown media: l'x.lu" ++ [34]] |};
          o_records := []; o_pdf_paths := [] |}.
Proof. vm_compute. reflexivity. Qed.

Lemma run_job_records_witness :
  exists rr st',
    paged_job = (Ok rr, st')
    /\ rr_records rr <> []
    /\ Forall (fun r => run_id r = rr_run_id rr) (rr_records rr).
Proof.
  destruct paged_job as [[rr|e] st'] eqn:Hrun;
    [|vm_compute in Hrun; discriminate].
  exists rr, st'. split; [reflexivity|].
  pose proof Hrun as Hrun'. unfold paged_job in Hrun'.
  pose proof (@run_job_records nat paged_env utc_zone latin1_ucd
                toy_date_parser (paged_config 2) sample_registry _ _ _ _
                Hrun') as Hall.
  split.
  - vm_compute in Hrun. injection Hrun as <- _. discriminate.
  - eapply Forall_impl; [exact Hall|]. cbv beta. tauto.
Defined.

(** ** Browser navigations of a run *)

Section Preserves.
Context {W : Type} {X : Type}.
Variable f : event -> option X.

Lemma observe_snoc tr e :
  observe f (tr ++ [e]) = observe f tr ++ observe f [e].
Proof. unfold observe. apply omap_app. Qed.

Lemma preserves_ret {A} (a : A) : preserves f (ret (W := W) a).
Proof. intros st. reflexivity. Qed.

Lemma preserves_raise {A} e : preserves f (raise (W := W) (A := A) e).
Proof. intros st. reflexivity. Qed.

Lemma preserves_call {A} (op : W -> result A * W) : preserves f (call op).
Proof. intros st. unfold call. destruct (op (world st)). reflexivity. Qed.

Lemma preserves_read {A} (g : W -> A) : preserves f (read g).
Proof. intros st. reflexivity. Qed.

Lemma preserves_emit e : f e = None -> preserves f (emit (W := W) e).
Proof.
  intros He st. unfold emit. cbn [snd trace]. rewrite observe_snoc.
  unfold observe at 2. cbn. rewrite He. apply app_nil_r.
Qed.

Lemma preserves_bind {A B} (m : M W A) (k : A -> M W B) :
  preserves f m -> (forall a, preserves f (k a)) -> preserves f (bind m k).
Proof.
  intros Hm Hk st. unfold bind. specialize (Hm st).
  destruct (m st) as [[a|e] st1]; simpl in *.
  - rewrite (Hk a st1). exact Hm.
  - exact Hm.
Qed.

Lemma preserves_try_except {A} (body : M W A) catches handler :
  preserves f body -> (forall e, preserves f (handler e)) ->
  preserves f (try_except body catches handler).
Proof.
  intros Hb Hh st. unfold try_except. specialize (Hb st).
  destruct (body st) as [[a|e] st1]; simpl in *; [exact Hb|].
  destruct (catches e); simpl; [|exact Hb].
  rewrite (Hh e st1). exact Hb.
Qed.

End Preserves.

Ltac preserves_step :=
  first [ apply preserves_bind; [|intros ?]
        | apply preserves_try_except; [|intros ?]
        | apply preserves_ret | apply preserves_raise | apply preserves_call
        | apply preserves_read
        | apply preserves_emit; (reflexivity || assumption) ].

Section SearchNavigations.
Context {W : Type} {E : Env W} {LZ : LocalZone}.
Variable config : RunConfig.
Variable definition : MediaDefinition.

Lemma filter_hits_by_date_navigations hits days :
  preserves navigation_of (filter_hits_by_date (W := W) hits days).
Proof.
  unfold filter_hits_by_date. preserves_step; [preserves_step|].
  destruct (filter_hits_from _ _ _ _); preserves_step.
Qed.

Lemma fetch_search_page_navigations url :
  preserves navigation_of (fetch_search_page config url).
Proof.
  unfold fetch_search_page. generalize (seqZ 1 3).
  intros attempts. induction attempts as [|attempt rest IH]; simpl.
  - preserves_step.
  - preserves_step.
    + unfold fetch_attempt. repeat preserves_step.
    + destruct a; [preserves_step|exact IH].
Qed.

Lemma search_page_navigations days url urls pages_seen seen_urls hits :
  preserves navigation_of
    (search_page config definition (fetch_search_page config) (ret tt) days
       url urls pages_seen seen_urls hits).
Proof.
  unfold search_page.
  preserves_step; [preserves_step|].
  preserves_step; [apply fetch_search_page_navigations|].
  preserves_step; [apply filter_hits_by_date_navigations|].
  destruct (bool_decide _); [preserves_step|].
  preserves_step; [preserves_step|].
  destruct (_ <=? _)%Z; [preserves_step|].
  destruct (negb _).
  - destruct (_ <=? _)%Z; [preserves_step|].
    destruct (detect_next_page _ _); [|preserves_step].
    destruct (_ && _); repeat preserves_step.
  - repeat preserves_step.
Qed.

Ltac page_navigations :=
  match goal with
  | Hp : search_page _ _ _ _ ?d ?u ?us ?ps ?su ?hs ?s = _ |- _ =>
      pose proof (search_page_navigations d u us ps su hs s) as Hone;
      rewrite Hp in Hone; cbn [snd] in Hone
  end.

Lemma search_loop_navigations days urls pages_seen seen_urls hits :
  preserves navigation_of
    (search_loop config definition (fetch_search_page config) (ret tt) days
       urls pages_seen seen_urls hits).
Proof.
  intros st.
  funelim (search_loop config definition (fetch_search_page config) (ret tt)
             days urls pages_seen seen_urls hits st).
  - reflexivity.
  - assumption.
  - page_navigations. exact Hone.
  - page_navigations.
    match goal with
    | IH : observe _ _ = observe _ _ |- _ => rewrite IH
    end.
    exact Hone.
  - page_navigations. exact Hone.
Qed.

Lemma search_navigations keyword days :
  preserves navigation_of (search config definition keyword days).
Proof. unfold search, search_with. apply search_loop_navigations. Qed.

End SearchNavigations.

Section VisitFacts.
Context {W : Type} {E : Env W} {LZ : LocalZone} {U : UnicodeData} {DP : DateParser}.
Variable config : RunConfig.
Variable MEDIA_REGISTRY : str -> option MediaDefinition.

Section AnyObserver.
Context {X : Type}.
Variable f : event -> option X.
Hypothesis f_pause : f EvPause = None.

Lemma preserves_pause : preserves f (_pause (W := W)).
Proof. unfold _pause. repeat preserves_step. Qed.

Lemma preserves_notify name media_id0 status :
  preserves f (_notify name media_id0 status).
Proof. unfold _notify. repeat preserves_step. Qed.

Lemma preserves_format_error_artifacts media_id0 url0 run_id0 :
  preserves f (_format_error_artifacts media_id0 url0 run_id0).
Proof. unfold _format_error_artifacts. repeat preserves_step. Qed.

Lemma preserves_article_failed media_id0 url0 run_id0 run_timestamp0 vars exc :
  preserves f
    (article_failed config media_id0 url0 run_id0 run_timestamp0 vars exc).
Proof.
  unfold article_failed. preserves_step.
  - destruct (pause_on_error config); [apply preserves_pause|preserves_step].
  - preserves_step; [apply preserves_format_error_artifacts|preserves_step].
Qed.

Lemma guarded_observe {A} media_id0 url0 run_id0 run_timestamp0 vars
    (m : M W A) (k : A -> M W ArticleRecord) seen :
  (forall st, observe f (trace (m st).2) = observe f (trace st) ++ seen) ->
  (forall a, preserves f (k a)) ->
  forall st,
    observe f (trace (guarded config media_id0 url0 run_id0 run_timestamp0
                        vars m k st).2)
    = observe f (trace st) ++ seen.
Proof.
  intros Hm Hk st. unfold guarded. specialize (Hm st).
  destruct (m st) as [[a|e] st1]; cbn [snd] in Hm.
  - rewrite (Hk a st1). exact Hm.
  - destruct (is_Exception e); [|exact Hm].
    rewrite (preserves_article_failed _ _ _ _ _ _ st1). exact Hm.
Qed.

Lemma guarded_preserves {A} media_id0 url0 run_id0 run_timestamp0 vars
    (m : M W A) (k : A -> M W ArticleRecord) :
  preserves f m -> (forall a, preserves f (k a)) ->
  preserves f (guarded config media_id0 url0 run_id0 run_timestamp0 vars m k).
Proof.
  intros Hm Hk st.
  rewrite (guarded_observe _ _ _ _ _ m k []); [apply app_nil_r| |exact Hk].
  intros st0. rewrite app_nil_r. apply Hm.
Qed.

Lemma process_article_observe media_id0 url0 kws search_title search_date
    pdf_dir0 run_id0 run_timestamp0 search_snippets st :
  observe f (trace (_process_article config MEDIA_REGISTRY media_id0 url0 kws
                      search_title search_date pdf_dir0 run_id0 run_timestamp0
                      search_snippets st).2)
  = observe f (trace st) ++ observe f [EvDriverGet url0].
Proof.
  unfold _process_article. apply guarded_observe.
  - intros st0. unfold bind at 1. unfold emit at 1. cbv beta iota.
    rewrite (preserves_call f (driver_get url0)). cbn [trace].
    apply observe_snoc.
  - intros _.
    repeat (apply guarded_preserves; [|intros ?]);
      try solve [repeat preserves_step].
    + unfold extract_title. preserves_step; [repeat preserves_step|].
      match goal with
      | |- preserves _ (match ?t with _ => _ end) =>
          destruct t as [t|]; [destruct (truthy t)|]; preserves_step
      end.
    + preserves_step; [preserves_step|]. unfold lift_result.
      destruct (_extract_date _); preserves_step.
    + destruct (truthy_opt _); [preserves_step|].
      destruct search_date as [d|]; [|preserves_step].
      preserves_step; [|preserves_step]. unfold lift_result.
      destruct (astimezone_utc d); preserves_step.
    + destruct (MEDIA_REGISTRY media_id0); [|preserves_step].
      unfold dump_page. destruct (debug config); preserves_step.
    + destruct (pause config); [apply preserves_pause|preserves_step].
    + destruct (match_keywords kws _); [preserves_step|].
      apply guarded_preserves; [preserves_step|intros ?]. preserves_step.
Qed.

Lemma process_results_observe media_id0 pdf_dir0 run_id0 run_timestamp0
    results acc st o st' :
  process_results config MEDIA_REGISTRY media_id0 pdf_dir0 run_id0
    run_timestamp0 results acc st = (Ok o, st') ->
  observe f (trace st')
  = observe f (trace st)
    ++ observe f (flat_map (fun entry => [EvDriverGet entry.1; EvRateLimit])
                    results).
Proof.
  revert acc st.
  induction results as [|[u payload] rest IH]; intros acc st;
    cbn [process_results].
  - unfold ret. intros [= <- <-]. cbn. rewrite app_nil_r. reflexivity.
  - unfold bind, emit.
    pose proof (process_article_observe media_id0 u (keywords config)
                  (p_title payload) (p_published_at payload) pdf_dir0 run_id0
                  run_timestamp0 (p_snippets payload) st) as Hvisit.
    destruct (_process_article _ _ _ _ _ _ _ _ _ _ _ st)
      as [[record|e] st1]; [|discriminate].
    cbn [snd] in Hvisit.
    intros Hrest. apply IH in Hrest. rewrite Hrest. cbn [trace].
    rewrite observe_snoc, Hvisit. cbn [flat_map fst].
    change ([EvDriverGet u; EvRateLimit] ++ ?l)
      with ([EvDriverGet u] ++ [EvRateLimit] ++ l).
    unfold observe. rewrite !omap_app, <- !app_assoc. reflexivity.
Qed.

End AnyObserver.

(** X18.  The loop over the merged results of a media sends the browser
    to each URL once, in the order of the results, and sleeps for the rate
    limit after each article before going to the next: these are all the
    navigations and rate-limit sleeps of the loop. *)
Theorem process_results_visits
    (media_id0 pdf_dir0 run_id0 run_timestamp0 : str)
    (results : list (str * Payload)) (acc o : media_outcome)
    (st st' : state W) :
  process_results config MEDIA_REGISTRY media_id0 pdf_dir0 run_id0
    run_timestamp0 results acc st = (Ok o, st') ->
  observe visit_of (trace st')
  = observe visit_of (trace st)
    ++ flat_map (fun entry => [EvDriverGet entry.1; EvRateLimit]) results.
Proof.
  intros Hrun.
  rewrite (process_results_observe visit_of eq_refl _ _ _ _ _ _ _ _ _ Hrun).
  f_equal. clear. induction results as [|entry rest IH]; [reflexivity|].
  cbn [flat_map]. unfold observe in *. rewrite omap_app, IH. reflexivity.
Qed.

(** X19.  With the search done over HTTP, the browser of a media whose
    run returns goes to the URLs of its records and nowhere else: once to
    each, in the order of the records. *)
Theorem run_media_navigations
    (pdf_dir0 run_id0 run_timestamp0 media_id0 : str) (st st' : state W)
    (o : media_outcome) :
  search_use_selenium config = false -> debug config = false ->
  run_media config MEDIA_REGISTRY pdf_dir0 run_id0 run_timestamp0 media_id0 st
    = (Ok o, st') ->
  observe navigation_of (trace st')
  = observe navigation_of (trace st) ++ map url (o_records o).
Proof.
  intros Hselenium Hdebug. unfold run_media, bind.
  pose proof (preserves_notify navigation_of (lit "media_start")
                media_id0 None st) as Hstart.
  destruct (_notify _ _ _ st) as [[[]|e] st1]; [|discriminate].
  cbn [snd] in Hstart. rewrite <- Hstart.
  unfold _get_scraper.
  destruct (MEDIA_REGISTRY media_id0) as [definition|].
  - match goal with
    | |- context [try_except ?body ?catches ?handler st1] =>
        assert (Hsearch : preserves navigation_of
                            (try_except body catches handler))
    end.
    { preserves_step; [|preserves_step]. preserves_step; [|preserves_step].
      unfold _collect_search_hits. preserves_step; [|preserves_step].
      generalize (@nil (str * Payload)).
      induction (keywords config) as [|kw kws IH]; intros d;
        cbn [collect_keywords]; [preserves_step|].
      rewrite Hselenium, Hdebug. cbn [orb].
      preserves_step; [apply search_navigations|apply IH]. }
    specialize (Hsearch st1).
    destruct (try_except _ _ _ st1) as [[[results|exc]|e] st2]; [| |discriminate];
      cbn [snd] in Hsearch; rewrite <- Hsearch.
    + destruct (process_results _ _ _ _ _ _ _ _ st2) as [[outcome|e] st3] eqn:Hres;
        [|discriminate].
      pose proof (preserves_notify navigation_of (lit "media_done")
                    media_id0 (Some (o_status outcome)) st3) as Hdone.
      destruct (_notify _ _ _ st3) as [[[]|e] st4]; [|discriminate].
      cbn [snd] in Hdone.
      unfold ret. intros [= <- <-]. rewrite Hdone.
      pose proof (process_results_outcome _ _ _ _ _ _ _ _ _ _ _ Hres)
        as (records & Hrec & Hurls & _).
      cbn [o_records app] in Hrec. rewrite Hrec.
      rewrite (process_results_observe navigation_of eq_refl
                 _ _ _ _ _ _ _ _ _ Hres).
      f_equal. rewrite Hurls. clear.
      induction results as [|entry rest IH]; [reflexivity|].
      cbn [flat_map]. unfold observe in *. rewrite omap_app, IH. reflexivity.
    + match goal with
      | |- context [_notify ?n ?m ?s st2] =>
          pose proof (preserves_notify navigation_of n m s st2)
            as Herror
      end.
      destruct (_notify _ _ _ st2) as [[[]|e] st3]; [|discriminate].
      cbn [snd] in Herror.
      unfold ret. intros [= <- <-]. cbn [o_records map].
      rewrite app_nil_r. exact Herror.
  - cbn [is_KeyError].
    match goal with
    | |- context [_notify ?n ?m ?s st1] =>
        pose proof (preserves_notify navigation_of n m s st1)
          as Herror
    end.
    destruct (_notify _ _ _ st1) as [[[]|e] st2]; [|discriminate].
    cbn [snd] in Herror.
    unfold ret. intros [= <- <-]. cbn [o_records map].
    rewrite app_nil_r. exact Herror.
Qed.

End VisitFacts.

Lemma process_results_visits_witness :
  exists o st',
    @process_results unit offline_env utc_zone latin1_ucd toy_date_parser
      sample_config sample_registry (lit "rtl.lu") (lit "out/pdfs") (lit "run")
      (lit "now") (merge_rounds sample_rounds) (fresh_outcome (lit "rtl.lu"))
      initial_state = (Ok o, st')
    /\ observe visit_of (trace st')
       = observe visit_of (trace initial_state)
         ++ flat_map (fun entry => [EvDriverGet entry.1; EvRateLimit])
              (merge_rounds sample_rounds).
Proof.
  match goal with
  | |- exists o st', ?run = _ /\ _ =>
      assert (Hok : returned run = true) by (vm_compute; reflexivity);
      destruct run as [[o|e] st'] eqn:Hrun; [|discriminate Hok]
  end.
  exists o, st'. split; [reflexivity|].
  apply (@process_results_visits unit offline_env utc_zone latin1_ucd
           toy_date_parser sample_config sample_registry _ _ _ _ _ _ _ _ _
           Hrun).
Defined.

Lemma run_media_navigations_witness :
  exists o st',
    paged_media_run = (Ok o, st')
    /\ observe navigation_of (trace st') = map url (o_records o).
Proof.
  destruct paged_media_run as [[o|e] st'] eqn:Hrun;
    [|vm_compute in Hrun; discriminate].
  exists o, st'. split; [reflexivity|].
  pose proof Hrun as Hrun'. unfold paged_media_run in Hrun'.
  apply (@run_media_navigations nat paged_env utc_zone latin1_ucd
           toy_date_parser (paged_config 2) sample_registry _ _ _ _ _ _ _
           eq_refl eq_refl Hrun').
Defined.

(** ** The date of an article page *)

Section ExtractDate.
Context {W : Type} {E : Env W} {LZ : LocalZone} {DP : DateParser}.






End ExtractDate.

